(** * mem0-mcp extension runtime: event bus, dependency-injection container,
      plugin registry and request dispatcher

    A shallow embedding of the modules under [src/mem0_mcp/core/]:
    - [event_bus.py]            (module [EventBus]),
    - [dependency_injection.py] (module [DI]),
    - [plugin_registry.py] and [base_plugin.py] (module [Registry]),
    - the operation dispatcher of [server.py]    (module [Server]),
    - the key lookup, update and merge of [config_manager.py] (module [Config]).

    Python objects with identity (callbacks, list objects shared between
    dictionaries, instances built by the container) are modelled by
    identifiers and explicit stores; exceptions by a [Result] type;
    dictionaries whose iteration order is observable by association lists,
    the others by [gmap]. *)

From Stdlib Require Import ZArith Lia.
From stdpp Require Import base option list gmap strings sorting pretty.

Open Scope string_scope.
Open Scope list_scope.

#[local] Set Warnings "-register-all,-clear-no-such-hyp,-level-tolerance".

(** ** Values and results shared by all modules *)

(** A JSON-like Python value, as handed around in [kwargs], event data and
    result payloads. *)
Inductive Value : Type :=
  | VNone
  | VBool (b : bool)
  | VInt (z : Z)
  | VStr (s : string)
  | VList (l : list Value)
  | VDict (d : list (string * Value)).

(** Python truthiness ([if x:], [not x]). *)
Definition truthy (v : Value) : bool :=
  match v with
  | VNone => false
  | VBool b => b
  | VInt z => negb (z =? 0)%Z
  | VStr s => negb (String.eqb s "")
  | VList l => match l with [] => false | _ => true end
  | VDict d => match d with [] => false | _ => true end
  end.

(** An insertion-ordered [dict] with string keys. *)
Definition Dict (A : Type) : Type := list (string * A).

Fixpoint dict_get {A} (k : string) (d : Dict A) : option A :=
  match d with
  | [] => None
  | (k', v) :: d' => if String.eqb k k' then Some v else dict_get k d'
  end.

Definition dict_mem {A} (k : string) (d : Dict A) : bool :=
  match dict_get k d with Some _ => true | None => false end.

Definition dict_keys {A} (d : Dict A) : list string := map fst d.

(** [del d[k]]. *)
Definition dict_del {A} (k : string) (d : Dict A) : Dict A :=
  List.filter (fun kv => negb (String.eqb k (fst kv))) d.

(** [d[k] = v]: an existing key keeps its position, a new one goes last. *)
Fixpoint dict_set {A} (k : string) (v : A) (d : Dict A) : Dict A :=
  match d with
  | [] => [(k, v)]
  | (k', v') :: d' =>
      if String.eqb k k' then (k, v) :: d' else (k', v') :: dict_set k v d'
  end.

(** [d.update(other)]. *)
Definition dict_update {A} (d other : Dict A) : Dict A :=
  fold_left (fun acc kv => dict_set (fst kv) (snd kv) acc) other d.

(** [list.remove(x)]: drops the first element equal to [x]; [None] stands
    for the [ValueError] raised when there is none. *)
Fixpoint list_remove {A} `{EqDecision A} (x : A) (l : list A) : option (list A) :=
  match l with
  | [] => None
  | y :: l' =>
      if decide (y = x) then Some l'
      else match list_remove x l' with
           | Some r => Some (y :: r)
           | None => None
           end
  end.

(** The outcome of a call that may raise. *)
Inductive Result (E A : Type) : Type :=
  | Ok (a : A)
  | Err (e : E).
Arguments Ok {E A} a.
Arguments Err {E A} e.

(** Truthiness of an optional string argument ([if name:]). *)
Definition name_given (name : option string) : bool :=
  match name with
  | Some s => negb (String.eqb s "")
  | None => false
  end.

(** ** Event bus ([event_bus.py]) *)

Module EventBus.

(** [class EventPriority(Enum)] and its [.value]. *)
Inductive EventPriority : Type := HIGHEST | HIGH | NORMAL | LOW | LOWEST.

Definition priority_value (p : EventPriority) : Z :=
  match p with
  | HIGHEST => 0
  | HIGH => 25
  | NORMAL => 50
  | LOW => 75
  | LOWEST => 100
  end.

#[global] Instance EventPriority_eq_dec : EqDecision EventPriority.
Proof. solve_decision. Defined.

(** [@dataclass Event]. The wall-clock [timestamp] and the [event_id]
    written into [metadata] are not modelled: no operation below reads
    them. *)
Record Event : Type := mkEvent {
  ev_name : string;
  ev_data : Dict Value;
  ev_source : option string;
  ev_metadata : Dict Value
}.

(** Callables are objects with identity.  A callback, a filter and a
    middleware are identifiers; what calling them does is given by the
    [Runtime] below. *)
Definition CallbackId := nat.
Definition FilterId := nat.
Definition MiddlewareId := nat.

(** What a call to a handler callback does. *)
Inductive Outcome : Type :=
  | Returned (v : Value)
  | Raised (msg : string).

Record Runtime : Type := mkRuntime {
  (** [callback(event)] *)
  call : CallbackId -> Event -> Outcome;
  (** [filter(event)] *)
  test : FilterId -> Event -> bool;
  (** [middleware(event)]; [None] cancels the event *)
  transform : MiddlewareId -> Event -> option Event;
  (** is the referent of a weak reference to this callback still alive? *)
  alive : CallbackId -> bool
}.

(** [@dataclass EventHandler].  With [weak] set, [callback] stands for the
    weak reference to the callback. *)
Record EventHandler : Type := mkHandler {
  callback : CallbackId;
  priority : EventPriority;
  filter_ : option FilterId;
  once : bool;
  weak : bool
}.

#[global] Instance EventHandler_eq_dec : EqDecision EventHandler.
Proof. solve_decision. Defined.

(** The position of the background worker coroutine [_worker]. *)
Inductive WorkerTask : Type :=
  | AtLoopHead      (* created, or between two iterations: about to test [self._running] *)
  | AwaitingGet     (* suspended in [await self._event_queue.get()] *)
  | Finished.       (* the coroutine has returned *)

(** [class EventBus].  [_delivered] is a ghost field: the handlers invoked
    so far, each with the event it received, in invocation order. *)
Record EventBus : Type := mkBus {
  _handlers : gmap string (list EventHandler);
  _history : list Event;
  _history_size : nat;
  _middleware : list MiddlewareId;
  _event_queue : list (option Event);
  _running : bool;
  _worker_task : option WorkerTask;
  _delivered : list (EventHandler * Event)
}.

(** [EventBus(history_size)] *)
Definition new_bus (history_size : nat) : EventBus :=
  {| _handlers := ∅; _history := []; _history_size := history_size;
     _middleware := []; _event_queue := []; _running := false;
     _worker_task := None; _delivered := [] |}.

Definition set_handlers (bus : EventBus) (h : gmap string (list EventHandler)) : EventBus :=
  {| _handlers := h; _history := _history bus; _history_size := _history_size bus;
     _middleware := _middleware bus; _event_queue := _event_queue bus;
     _running := _running bus; _worker_task := _worker_task bus;
     _delivered := _delivered bus |}.

Definition set_history (bus : EventBus) (h : list Event) : EventBus :=
  {| _handlers := _handlers bus; _history := h; _history_size := _history_size bus;
     _middleware := _middleware bus; _event_queue := _event_queue bus;
     _running := _running bus; _worker_task := _worker_task bus;
     _delivered := _delivered bus |}.

Definition set_queue (bus : EventBus) (q : list (option Event)) : EventBus :=
  {| _handlers := _handlers bus; _history := _history bus; _history_size := _history_size bus;
     _middleware := _middleware bus; _event_queue := q;
     _running := _running bus; _worker_task := _worker_task bus;
     _delivered := _delivered bus |}.

Definition set_running (bus : EventBus) (b : bool) : EventBus :=
  {| _handlers := _handlers bus; _history := _history bus; _history_size := _history_size bus;
     _middleware := _middleware bus; _event_queue := _event_queue bus;
     _running := b; _worker_task := _worker_task bus;
     _delivered := _delivered bus |}.

Definition set_worker_task (bus : EventBus) (t : option WorkerTask) : EventBus :=
  {| _handlers := _handlers bus; _history := _history bus; _history_size := _history_size bus;
     _middleware := _middleware bus; _event_queue := _event_queue bus;
     _running := _running bus; _worker_task := t;
     _delivered := _delivered bus |}.

Definition set_delivered (bus : EventBus) (d : list (EventHandler * Event)) : EventBus :=
  {| _handlers := _handlers bus; _history := _history bus; _history_size := _history_size bus;
     _middleware := _middleware bus; _event_queue := _event_queue bus;
     _running := _running bus; _worker_task := _worker_task bus;
     _delivered := d |}.

(** [self._handlers.get(event_name, [])] *)
Definition handlers_of (bus : EventBus) (event_name : string) : list EventHandler :=
  default [] (_handlers bus !! event_name).

(** The loop of [subscribe] that looks for the insertion index: the index of
    the first handler with a strictly greater priority value, or the length
    of the list. *)
Fixpoint insert_idx (handlers : list EventHandler) (p : EventPriority) (i : nat) : nat :=
  match handlers with
  | [] => i
  | h :: rest =>
      if (priority_value (priority h) >? priority_value p)%Z then i
      else insert_idx rest p (S i)
  end.

(** [list.insert(i, x)] for [0 <= i]. *)
Definition list_insert_at {A} (i : nat) (x : A) (l : list A) : list A :=
  take i l ++ x :: drop i l.

(** [EventBus.subscribe] *)
Definition subscribe (bus : EventBus) (event_name : string) (handler : CallbackId)
    (p : EventPriority) (flt : option FilterId) (once_ weak_ : bool) : EventBus :=
  let event_handler :=
    {| callback := handler; priority := p; filter_ := flt; once := once_; weak := weak_ |} in
  let handlers := handlers_of bus event_name in
  let idx := insert_idx handlers p 0 in
  set_handlers bus (<[event_name := list_insert_at idx event_handler handlers]> (_handlers bus)).

(** [EventHandler.matches] *)
Definition matches (rt : Runtime) (h : EventHandler) (event : Event) : bool :=
  match filter_ h with
  | Some f => test rt f event
  | None => true
  end.

(** [handler.weak and handler.callback() is None] *)
Definition is_dead (rt : Runtime) (h : EventHandler) : bool :=
  weak h && negb (alive rt (callback h)).

(** [EventHandler.invoke] *)
Definition invoke (rt : Runtime) (h : EventHandler) (event : Event) : Outcome :=
  if is_dead rt h then Returned VNone else call rt (callback h) event.

(** [EventBus.unsubscribe]: a weak handler is compared through its
    referent, so a dead one matches nothing. *)
Fixpoint unsubscribe_scan (rt : Runtime) (handler : CallbackId) (handlers : list EventHandler)
    : option (list EventHandler) :=
  match handlers with
  | [] => None
  | h :: rest =>
      if negb (is_dead rt h) && Nat.eqb (callback h) handler then Some rest
      else match unsubscribe_scan rt handler rest with
           | Some r => Some (h :: r)
           | None => None
           end
  end.

Definition unsubscribe (rt : Runtime) (bus : EventBus) (event_name : string)
    (handler : CallbackId) : bool * EventBus :=
  match _handlers bus !! event_name with
  | None => (false, bus)
  | Some handlers =>
      match unsubscribe_scan rt handler handlers with
      | Some handlers' => (true, set_handlers bus (<[event_name := handlers']> (_handlers bus)))
      | None => (false, bus)
      end
  end.

(** [EventBus._add_to_history] *)
Definition _add_to_history (bus : EventBus) (event : Event) : EventBus :=
  let h := _history bus ++ [event] in
  set_history bus (if Nat.ltb (_history_size bus) (length h) then drop 1 h else h).

(** The middleware loop of [emit]: [None] when some middleware cancelled. *)
Fixpoint apply_middleware (rt : Runtime) (mws : list MiddlewareId) (event : Event)
    : option Event :=
  match mws with
  | [] => Some event
  | m :: rest =>
      match transform rt m event with
      | None => None
      | Some event' => apply_middleware rt rest event'
      end
  end.

(** The local state of the handler loop of [emit]. *)
Record EmitLoop : Type := mkLoop {
  results : list Value;
  handlers_to_remove : list EventHandler;
  invoked : list EventHandler
}.

(** The handler loop of [emit] ([for handler in handlers: ...]). *)
Fixpoint run_handlers (rt : Runtime) (event : Event) (handlers : list EventHandler)
    (st : EmitLoop) : EmitLoop :=
  match handlers with
  | [] => st
  | handler :: rest =>
      if is_dead rt handler then
        run_handlers rt event rest
          (mkLoop (results st) (handlers_to_remove st ++ [handler]) (invoked st))
      else if negb (matches rt handler event) then
        run_handlers rt event rest st
      else
        match invoke rt handler event with
        | Returned result =>
            run_handlers rt event rest
              (mkLoop (results st ++ [result])
                 (if once handler then handlers_to_remove st ++ [handler]
                  else handlers_to_remove st)
                 (invoked st ++ [handler]))
        | Raised _ =>
            run_handlers rt event rest
              (mkLoop (results st) (handlers_to_remove st) (invoked st ++ [handler]))
        end
  end.

(** The removal loop of [emit]:
    [for handler in handlers_to_remove: self._handlers[event_name].remove(handler)];
    [None] stands for an exception ([KeyError] or [ValueError]). *)
Fixpoint remove_handlers (event_name : string) (to_remove : list EventHandler)
    (hs : gmap string (list EventHandler)) : option (gmap string (list EventHandler)) :=
  match to_remove with
  | [] => Some hs
  | h :: rest =>
      match hs !! event_name with
      | None => None
      | Some l =>
          match list_remove h l with
          | None => None
          | Some l' => remove_handlers event_name rest (<[event_name := l']> hs)
          end
      end
  end.

(** The exceptions [emit] lets escape. *)
Inductive EmitError : Type := RemovalFailed.

(** [EventBus.emit] *)
Definition emit (rt : Runtime) (bus : EventBus) (event_name : string) (data : Dict Value)
    (source : option string) (metadata : Dict Value)
    : Result EmitError (list Value) * EventBus :=
  let event := mkEvent event_name data source metadata in
  let bus1 := _add_to_history bus event in
  match apply_middleware rt (_middleware bus1) event with
  | None => (Ok [], bus1)
  | Some event' =>
      let handlers := handlers_of bus1 event_name in
      let st := run_handlers rt event' handlers (mkLoop [] [] []) in
      let bus2 :=
        set_delivered bus1 (_delivered bus1 ++ map (fun h => (h, event')) (invoked st)) in
      match remove_handlers event_name (handlers_to_remove st) (_handlers bus2) with
      | None => (Err RemovalFailed, bus2)
      | Some hs => (Ok (results st), set_handlers bus2 hs)
      end
  end.

(** [EventBus.emit_async]: [put] on the unbounded queue. *)
Definition emit_async (bus : EventBus) (event_name : string) (data : Dict Value)
    (source : option string) (metadata : Dict Value) : EventBus :=
  set_queue bus (_event_queue bus ++ [Some (mkEvent event_name data source metadata)]).

(** [EventBus.add_middleware] *)
Definition add_middleware (bus : EventBus) (m : MiddlewareId) : EventBus :=
  {| _handlers := _handlers bus; _history := _history bus; _history_size := _history_size bus;
     _middleware := _middleware bus ++ [m]; _event_queue := _event_queue bus;
     _running := _running bus; _worker_task := _worker_task bus;
     _delivered := _delivered bus |}.

(** One run of the body of [_worker] on a dequeued event: [emit], with any
    exception caught and logged. *)
Definition worker_process (rt : Runtime) (bus : EventBus) (event : Event) : EventBus :=
  snd (emit rt bus (ev_name event) (ev_data event) (ev_source event) (ev_metadata event)).

(** [_worker] from the head of its [while self._running:] loop, run until
    it returns or suspends on an empty queue.  [emit] leaves the queue
    alone, so the loop recurses on the queue. *)
Fixpoint worker_loop (rt : Runtime) (queue : list (option Event)) (bus : EventBus)
    : EventBus :=
  if negb (_running bus) then set_worker_task (set_queue bus queue) (Some Finished)
  else
    match queue with
    | [] => set_worker_task (set_queue bus []) (Some AwaitingGet)
    | None :: queue' => set_worker_task (set_queue bus queue') (Some Finished)
    | Some event :: queue' => worker_loop rt queue' (worker_process rt bus event)
    end.

(** [_worker] resumed inside [await self._event_queue.get()]: the pending
    [get] completes before [self._running] is looked at again. *)
Definition worker_resume_get (rt : Runtime) (bus : EventBus) : EventBus :=
  match _event_queue bus with
  | [] => bus
  | None :: queue' => set_worker_task (set_queue bus queue') (Some Finished)
  | Some event :: queue' => worker_loop rt queue' (worker_process rt bus event)
  end.

(** The event loop gives the worker task the processor: it runs from where
    it stands until it suspends or returns. *)
Definition run_worker (rt : Runtime) (bus : EventBus) : EventBus :=
  match _worker_task bus with
  | Some AtLoopHead => worker_loop rt (_event_queue bus) bus
  | Some AwaitingGet => worker_resume_get rt bus
  | Some Finished | None => bus
  end.

(** [EventBus.start] *)
Definition start (bus : EventBus) : EventBus :=
  if _running bus then bus
  else set_worker_task (set_running bus true) (Some AtLoopHead).

(** [EventBus.stop]: [await self._worker_task] suspends the caller until the
    worker has returned. *)
Definition stop (rt : Runtime) (bus : EventBus) : EventBus :=
  let bus1 := set_running bus false in
  match _worker_task bus1 with
  | None => bus1
  | Some _ =>
      let bus2 := set_queue bus1 (_event_queue bus1 ++ [None]) in
      set_worker_task (run_worker rt bus2) None
  end.

(** *** Subscription order *)

(** One [subscribe] call. *)
Record Subscription : Type := mkSub {
  sub_event : string;
  sub_handler : CallbackId;
  sub_priority : EventPriority;
  sub_filter : option FilterId;
  sub_once : bool;
  sub_weak : bool
}.

(** The [EventHandler] a [subscribe] call builds. *)
Definition handler_of (s : Subscription) : EventHandler :=
  {| callback := sub_handler s; priority := sub_priority s; filter_ := sub_filter s;
     once := sub_once s; weak := sub_weak s |}.

(** A sequence of [subscribe] calls, in call order. *)
Definition subscribe_all (bus : EventBus) (subs : list Subscription) : EventBus :=
  fold_left
    (fun b s =>
       subscribe b (sub_event s) (sub_handler s) (sub_priority s) (sub_filter s)
         (sub_once s) (sub_weak s))
    subs bus.

(** The handlers registered on [topic] by [subs], in registration order. *)
Definition registered_on (topic : string) (subs : list Subscription) : list EventHandler :=
  map handler_of (List.filter (fun s => String.eqb (sub_event s) topic) subs).

(** Ascending priority value. *)
Definition prio_le (a b : EventHandler) : Prop :=
  (priority_value (priority a) <= priority_value (priority b))%Z.

(** The handlers of priority [p] in a list, in list order. *)
Definition with_priority (p : EventPriority) (l : list EventHandler) : list EventHandler :=
  List.filter (fun h => bool_decide (priority h = p)) l.

(** Does [emit] invoke this handler for this event? *)
Definition delivers (rt : Runtime) (event : Event) (h : EventHandler) : bool :=
  negb (is_dead rt h) && matches rt h event.

(** Does [emit] drop this handler after the loop? *)
Definition marked (rt : Runtime) (event : Event) (h : EventHandler) : bool :=
  is_dead rt h ||
  (matches rt h event && once h &&
   match call rt (callback h) event with Returned _ => true | Raised _ => false end).

(** The value a delivered call contributes to the result list. *)
Definition returned_value (rt : Runtime) (event : Event) (h : EventHandler) : option Value :=
  match call rt (callback h) event with
  | Returned v => Some v
  | Raised _ => None
  end.

(** Insertion before the first handler of strictly greater priority. *)
Fixpoint ordered_insert (x : EventHandler) (l : list EventHandler) : list EventHandler :=
  match l with
  | [] => [x]
  | h :: rest =>
      if (priority_value (priority h) >? priority_value (priority x))%Z then x :: h :: rest
      else h :: ordered_insert x rest
  end.

Lemma insert_idx_shift handlers p i :
  insert_idx handlers p (S i) = S (insert_idx handlers p i).
Proof.
  revert i. induction handlers as [|h rest IH]; intros i; simpl; [done|].
  destruct (priority_value (priority h) >? priority_value p)%Z; [done|].
  apply IH.
Qed.

Lemma list_insert_at_ordered x handlers :
  list_insert_at (insert_idx handlers (priority x) 0) x handlers = ordered_insert x handlers.
Proof.
  induction handlers as [|h rest IH]; simpl; [done|].
  destruct (priority_value (priority h) >? priority_value (priority x))%Z eqn:E; [done|].
  rewrite insert_idx_shift. unfold list_insert_at in *. simpl. by rewrite IH.
Qed.

Lemma ordered_insert_Forall (P : EventHandler -> Prop) x l :
  P x -> Forall P l -> Forall P (ordered_insert x l).
Proof.
  intros Hx Hl. induction Hl as [|h rest Hh Hrest IH]; simpl.
  - by constructor.
  - destruct (priority_value (priority h) >? priority_value (priority x))%Z; by repeat constructor.
Qed.

Lemma ordered_insert_sorted x l :
  StronglySorted prio_le l -> StronglySorted prio_le (ordered_insert x l).
Proof.
  induction 1 as [|h rest Hs IH Hall]; simpl.
  - repeat constructor.
  - destruct (priority_value (priority h) >? priority_value (priority x))%Z eqn:E.
    + constructor; [by constructor|].
      constructor; [unfold prio_le; lia|].
      eapply Forall_impl; [exact Hall|]. unfold prio_le. intros; simpl in *. lia.
    + constructor; [exact IH|].
      apply ordered_insert_Forall; [unfold prio_le; lia | exact Hall].
Qed.

Lemma with_priority_above p h l :
  (priority_value (priority h) > priority_value p)%Z ->
  Forall (prio_le h) l -> with_priority p l = [].
Proof.
  intros Hgt Hall. induction Hall as [|y rest Hy Hrest IH]; simpl; [done|].
  rewrite bool_decide_eq_false_2; [exact IH|].
  intros Heq. unfold prio_le in Hy. rewrite Heq in Hy. lia.
Qed.

Lemma ordered_insert_with_priority p x l :
  StronglySorted prio_le l ->
  with_priority p (ordered_insert x l) =
  with_priority p l ++ (if bool_decide (priority x = p) then [x] else []).
Proof.
  induction 1 as [|h rest Hs IH Hall]; simpl.
  - by destruct (bool_decide (priority x = p)).
  - destruct (priority_value (priority h) >? priority_value (priority x))%Z eqn:E; simpl.
    + destruct (bool_decide (priority x = p)) eqn:Ex.
      * apply bool_decide_eq_true_1 in Ex. subst p.
        rewrite bool_decide_eq_false_2; [|intros Heq; rewrite Heq in E; lia].
        rewrite (with_priority_above (priority x) h rest); [done|lia|done].
      * by rewrite app_nil_r.
    + rewrite IH. by destruct (bool_decide (priority h = p)).
Qed.

Lemma handlers_of_subscribe bus s topic :
  handlers_of
    (subscribe bus (sub_event s) (sub_handler s) (sub_priority s) (sub_filter s)
       (sub_once s) (sub_weak s)) topic =
  if String.eqb (sub_event s) topic
  then ordered_insert (handler_of s) (handlers_of bus topic)
  else handlers_of bus topic.
Proof.
  unfold subscribe, handlers_of at 1. simpl.
  destruct (String.eqb_spec (sub_event s) topic) as [->|Hne].
  - rewrite lookup_insert_eq. simpl.
    exact (list_insert_at_ordered (handler_of s) (handlers_of bus topic)).
  - by rewrite lookup_insert_ne.
Qed.

Lemma subscribe_all_sorted subs : forall bus topic,
  StronglySorted prio_le (handlers_of bus topic) ->
  StronglySorted prio_le (handlers_of (subscribe_all bus subs) topic).
Proof.
  induction subs as [|s subs IH]; intros bus topic Hs; simpl; [done|].
  apply IH. rewrite handlers_of_subscribe.
  destruct (String.eqb (sub_event s) topic); [by apply ordered_insert_sorted|done].
Qed.

Lemma subscribe_all_with_priority subs : forall bus topic p,
  StronglySorted prio_le (handlers_of bus topic) ->
  with_priority p (handlers_of (subscribe_all bus subs) topic) =
  with_priority p (handlers_of bus topic) ++ with_priority p (registered_on topic subs).
Proof.
  induction subs as [|s subs IH]; intros bus topic p Hs; simpl.
  - by rewrite app_nil_r.
  - rewrite IH.
    + rewrite handlers_of_subscribe. unfold registered_on. simpl.
      destruct (String.eqb (sub_event s) topic); [|done].
      rewrite ordered_insert_with_priority by done. simpl.
      rewrite <- app_assoc. by destruct (bool_decide (sub_priority s = p)).
    + rewrite handlers_of_subscribe.
      destruct (String.eqb (sub_event s) topic); [by apply ordered_insert_sorted|done].
Qed.

Lemma subscribe_all_other_fields subs : forall bus,
  _middleware (subscribe_all bus subs) = _middleware bus /\
  _delivered (subscribe_all bus subs) = _delivered bus.
Proof.
  induction subs as [|s subs IH]; intros bus; simpl; [done|].
  destruct (IH (subscribe bus (sub_event s) (sub_handler s) (sub_priority s)
                  (sub_filter s) (sub_once s) (sub_weak s))) as [-> ->].
  done.
Qed.

(** *** The handler loop of [emit] *)

Lemma run_handlers_spec rt event handlers : forall st,
  results (run_handlers rt event handlers st) =
    results st ++ omap (returned_value rt event) (List.filter (delivers rt event) handlers) /\
  invoked (run_handlers rt event handlers st) =
    invoked st ++ List.filter (delivers rt event) handlers /\
  handlers_to_remove (run_handlers rt event handlers st) =
    handlers_to_remove st ++ List.filter (marked rt event) handlers.
Proof.
  induction handlers as [|h rest IH]; intros st; simpl.
  - by rewrite !app_nil_r.
  - unfold delivers, marked, invoke, returned_value.
    destruct (is_dead rt h) eqn:Hdead; simpl.
    + destruct (IH (mkLoop (results st) (handlers_to_remove st ++ [h]) (invoked st)))
        as (-> & -> & ->). simpl. by rewrite <- app_assoc.
    + destruct (matches rt h event) eqn:Hm; simpl; [|apply IH].
      destruct (call rt (callback h) event) as [v|msg] eqn:Hcall; simpl.
      * destruct (IH (mkLoop (results st ++ [v])
                        (if once h then handlers_to_remove st ++ [h]
                         else handlers_to_remove st)
                        (invoked st ++ [h]))) as (-> & -> & ->). simpl.
        rewrite <- !app_assoc. simpl.
        destruct (once h); simpl; [by rewrite <- app_assoc|done].
      * destruct (IH (mkLoop (results st) (handlers_to_remove st) (invoked st ++ [h])))
          as (-> & -> & ->). simpl.
        rewrite <- !app_assoc. simpl. by rewrite andb_false_r.
Qed.

Lemma filter_sublist {A} (f : A -> bool) (l : list A) : sublist (List.filter f l) l.
Proof.
  induction l as [|x l IH]; simpl; [constructor|].
  destruct (f x); by constructor.
Qed.

Lemma list_remove_sublist {A} `{EqDecision A} (x : A) (rm l : list A) :
  sublist (x :: rm) l -> exists l', list_remove x l = Some l' /\ sublist rm l'.
Proof.
  induction l as [|y l IH]; intros Hsub.
  - inversion Hsub.
  - simpl. destruct (decide (y = x)) as [->|Hne].
    + exists l. split; [done|].
      inversion Hsub; subst; [done|].
      etrans; [|eassumption]. by constructor.
    + inversion Hsub; subst; [done|].
      destruct IH as (l' & -> & Hl'); [done|].
      exists (y :: l'). split; [done|]. by constructor.
Qed.

Lemma remove_handlers_sublist topic rm : forall hs l,
  hs !! topic = Some l -> sublist rm l ->
  exists hs', remove_handlers topic rm hs = Some hs'.
Proof.
  induction rm as [|h rm IH]; intros hs l Hl Hsub; simpl; [by eexists|].
  rewrite Hl.
  destruct (list_remove_sublist h rm l Hsub) as (l' & -> & Hsub').
  apply (IH _ l'); [by rewrite lookup_insert_eq|done].
Qed.

(** [emit] never fails in its removal loop. *)
Lemma remove_marked_succeeds rt event topic (hs : gmap string (list EventHandler)) :
  exists hs',
    remove_handlers topic (List.filter (marked rt event) (default [] (hs !! topic))) hs
    = Some hs'.
Proof.
  destruct (hs !! topic) as [l|] eqn:Hl; simpl.
  - eapply remove_handlers_sublist; [exact Hl|apply filter_sublist].
  - by eexists.
Qed.

(** What [emit] returns and whom it invokes, for any bus. *)
Lemma emit_spec rt bus topic data source metadata :
  match apply_middleware rt (_middleware bus) (mkEvent topic data source metadata) with
  | None =>
      exists bus', emit rt bus topic data source metadata = (Ok [], bus') /\
                   _delivered bus' = _delivered bus
  | Some event =>
      let inv := List.filter (delivers rt event) (handlers_of bus topic) in
      exists bus', emit rt bus topic data source metadata =
                     (Ok (omap (returned_value rt event) inv), bus') /\
                   _delivered bus' = _delivered bus ++ map (fun h => (h, event)) inv
  end.
Proof.
  unfold emit. simpl.
  destruct (apply_middleware rt (_middleware bus) (mkEvent topic data source metadata))
    as [event|]; [|by eexists].
  simpl.
  destruct (run_handlers_spec rt event
              (handlers_of (_add_to_history bus (mkEvent topic data source metadata)) topic)
              (mkLoop [] [] [])) as (Hres & Hinv & Hrm).
  simpl in *. rewrite Hres, Hinv, Hrm.
  unfold handlers_of. simpl.
  destruct (remove_marked_succeeds rt event topic (_handlers bus)) as [hs' ->].
  by eexists.
Qed.

(** C2. After any sequence of [subscribe] calls on a bus that had no
    handler on the topic, the topic's handler list is in ascending priority
    value, handlers of one priority stand in their registration order, and
    [emit] invokes exactly the handlers it does not skip (dead weak
    reference, rejecting filter) in that list order, returning the values of
    the calls that returned in invocation order.  A cancelling middleware
    makes [emit] skip every handler. *)
Theorem subscribe_emit_priority_order rt bus0 subs topic data source metadata
    (Hfresh : handlers_of bus0 topic = []) :
  let bus := subscribe_all bus0 subs in
  let hs := handlers_of bus topic in
  StronglySorted prio_le hs /\
  (forall p, with_priority p hs = with_priority p (registered_on topic subs)) /\
  match apply_middleware rt (_middleware bus0) (mkEvent topic data source metadata) with
  | None =>
      exists bus', emit rt bus topic data source metadata = (Ok [], bus') /\
                   _delivered bus' = _delivered bus0
  | Some event =>
      let inv := List.filter (delivers rt event) hs in
      sublist inv hs /\
      exists bus', emit rt bus topic data source metadata =
                     (Ok (omap (returned_value rt event) inv), bus') /\
                   _delivered bus' = _delivered bus0 ++ map (fun h => (h, event)) inv
  end.
Proof.
  intros bus hs. subst bus hs.
  assert (Hs0 : StronglySorted prio_le (handlers_of bus0 topic))
    by (rewrite Hfresh; constructor).
  split; [by apply subscribe_all_sorted|].
  split.
  - intros p. rewrite subscribe_all_with_priority by done. by rewrite Hfresh.
  - pose proof (emit_spec rt (subscribe_all bus0 subs) topic data source metadata) as He.
    destruct (subscribe_all_other_fields subs bus0) as [Hmw Hdel].
    rewrite Hmw, Hdel in He.
    destruct (apply_middleware rt (_middleware bus0) (mkEvent topic data source metadata));
      [|exact He].
    split; [apply filter_sublist|exact He].
Qed.

(** Scenario 2 of the specification: [h1] at [HIGH] and [h2] at [LOW]
    (registered first) on topic ["x"]. *)
Definition echo_rt : Runtime :=
  mkRuntime (fun cb _ => Returned (VInt (Z.of_nat cb))) (fun _ _ => true)
    (fun _ e => Some e) (fun _ => true).

Definition scenario_subs : list Subscription :=
  [ mkSub "x" 2 LOW None false false; mkSub "x" 1 HIGH None false false ].

Lemma subscribe_emit_priority_order_witness :
  handlers_of (new_bus 1000) "x" = [] /\
  StronglySorted prio_le (handlers_of (subscribe_all (new_bus 1000) scenario_subs) "x").
Proof.
  split; [reflexivity|].
  exact (proj1 (subscribe_emit_priority_order echo_rt (new_bus 1000) scenario_subs
                  "x" [] None [] eq_refl)).
Defined.

Example scenario_emit_results :
  fst (emit echo_rt (subscribe_all (new_bus 1000) scenario_subs) "x" [] None [])
  = Ok [VInt 1; VInt 2].
Proof. vm_compute. reflexivity. Qed.

(** *** One-time handlers *)

(** A runtime in which every callback raises. *)
Definition raising_rt : Runtime :=
  mkRuntime (fun _ _ => Raised "boom") (fun _ _ => true) (fun _ e => Some e)
    (fun _ => true).

Definition once_handler : EventHandler := mkHandler 7 NORMAL None true false.

(** [bus.subscribe("x", f, once=True)] on a new bus. *)
Definition once_bus : EventBus := subscribe (new_bus 1000) "x" 7 NORMAL None true false.

(** C8 fails on the code: a [once] handler whose call raises is not marked
    for removal (the [if handler.once] line sits after the call, inside the
    [try]), so two [emit] calls invoke it twice and it is still subscribed
    after an [emit] that invoked it. *)
Theorem once_handler_raising_is_reinvoked :
  let run1 := emit raising_rt once_bus "x" [] None [] in
  let run2 := emit raising_rt (snd run1) "x" [] None [] in
  fst run1 = Ok [] /\
  handlers_of (snd run1) "x" = [once_handler] /\
  fst run2 = Ok [] /\
  map fst (_delivered (snd run2)) = [once_handler; once_handler] /\
  handlers_of (snd run2) "x" = [once_handler].
Proof. vm_compute. repeat split; reflexivity. Qed.

(** A [once] handler whose call returns is gone after that [emit]. *)
Example once_handler_returning_is_removed :
  let run1 := emit echo_rt once_bus "x" [] None [] in
  fst run1 = Ok [VInt 7] /\ handlers_of (snd run1) "x" = [].
Proof. vm_compute. split; reflexivity. Qed.

(** *** Shutdown of the background worker *)

(** A started bus whose worker has run up to its first [queue.get()]. *)
Definition idle_bus : EventBus :=
  run_worker echo_rt (start (subscribe (new_bus 1000) "b" 1 NORMAL None false false)).

(** [await bus.emit_async("a"); await bus.emit_async("b")]: neither [put]
    suspends the caller, so the worker has not run in between. *)
Definition backlog_bus : EventBus :=
  emit_async (emit_async idle_bus "a" [] None []) "b" [] None [].

(** C7 fails on the code: [stop] clears [_running] before it enqueues the
    sentinel, so the worker, resumed in its pending [get], handles the one
    event it dequeues and leaves its loop at the next [while self._running]
    test.  Event ["b"], enqueued before the sentinel, is never emitted: it
    and the sentinel stay in the queue, and the handler subscribed on ["b"]
    is never invoked. *)
Theorem stop_drops_queued_events :
  _worker_task idle_bus = Some AwaitingGet /\
  let bus' := stop echo_rt backlog_bus in
  map ev_name (_history bus') = ["a"] /\
  _delivered bus' = [] /\
  _event_queue bus' = [Some (mkEvent "b" [] None []); None] /\
  _worker_task bus' = None /\
  _running bus' = false.
Proof. vm_compute. repeat split; reflexivity. Qed.

(** With no backlog the sentinel is what the pending [get] returns. *)
Example stop_idle_worker :
  let bus' := stop echo_rt idle_bus in
  _event_queue bus' = [] /\ _worker_task bus' = None.
Proof. vm_compute. split; reflexivity. Qed.

(** *** Further operations of the bus *)

(** [EventBus.unsubscribe_all]: an absent or empty [event_name] clears
    every topic. *)
Definition unsubscribe_all (bus : EventBus) (event_name : option string) : nat * EventBus :=
  match event_name with
  | Some n =>
      if name_given event_name then
        match _handlers bus !! n with
        | Some handlers => (length handlers, set_handlers bus (delete n (_handlers bus)))
        | None => (0, bus)
        end
      else
        (map_fold (fun _ handlers count => count + length handlers) 0 (_handlers bus),
         set_handlers bus ∅)
  | None =>
      (map_fold (fun _ handlers count => count + length handlers) 0 (_handlers bus),
       set_handlers bus ∅)
  end.

(** [EventBus.remove_middleware] *)
Definition remove_middleware (bus : EventBus) (m : MiddlewareId) : bool * EventBus :=
  match list_remove m (_middleware bus) with
  | Some l =>
      (true,
       {| _handlers := _handlers bus; _history := _history bus;
          _history_size := _history_size bus; _middleware := l;
          _event_queue := _event_queue bus; _running := _running bus;
          _worker_task := _worker_task bus; _delivered := _delivered bus |})
  | None => (false, bus)
  end.

(** One [emit] call. *)
Record EmitCall : Type := mkEmitCall {
  call_event : string;
  call_data : Dict Value;
  call_source : option string;
  call_metadata : Dict Value
}.

(** The event an [emit] call constructs. *)
Definition event_of (c : EmitCall) : Event :=
  mkEvent (call_event c) (call_data c) (call_source c) (call_metadata c).

(** A sequence of [emit] calls, one after the other. *)
Definition emit_all (rt : Runtime) (bus : EventBus) (calls : list EmitCall) : EventBus :=
  fold_left
    (fun b c => snd (emit rt b (call_event c) (call_data c) (call_source c) (call_metadata c)))
    calls bus.

(** *** What [emit] leaves in the handler lists *)

Lemma list_remove_skip {A} `{EqDecision A} (x : A) (pre l : list A) :
  x ∉ pre -> list_remove x (pre ++ x :: l) = Some (pre ++ l).
Proof.
  induction pre as [|y pre IH]; intros Hx; simpl.
  - by rewrite decide_True.
  - rewrite decide_False by (intros ->; apply Hx; by left).
    rewrite IH; [done|]. intros Hin. apply Hx. by right.
Qed.

Lemma remove_handlers_filter (f : EventHandler -> bool) topic l : forall pre hs,
  Forall (fun x => f x = false) pre ->
  hs !! topic = Some (pre ++ l) ->
  exists hs',
    remove_handlers topic (List.filter f l) hs = Some hs' /\
    hs' !! topic = Some (pre ++ List.filter (fun x => negb (f x)) l) /\
    forall t, t <> topic -> hs' !! t = hs !! t.
Proof.
  induction l as [|y l IH]; intros pre hs Hpre Hl; simpl.
  - exists hs. by rewrite app_nil_r in *.
  - destruct (f y) eqn:Hy; simpl.
    + rewrite Hl, list_remove_skip.
      * destruct (IH pre (<[topic := pre ++ l]> hs) Hpre) as (hs' & -> & Ht & Ho);
          [by rewrite lookup_insert_eq|].
        exists hs'. split; [done|]. split; [done|].
        intros t Hne. rewrite Ho by done. by rewrite lookup_insert_ne.
      * intros Hin. rewrite Forall_forall in Hpre. specialize (Hpre y Hin). congruence.
    + destruct (IH (pre ++ [y]) hs) as (hs' & -> & Ht & Ho).
      * apply Forall_app. split; [done|]. by constructor.
      * by rewrite <- app_assoc.
      * exists hs'. split; [done|]. split; [|done]. by rewrite <- app_assoc in Ht.
Qed.

(** After an [emit] that no middleware cancelled, the handlers of the
    topic are those that were neither dead weak references nor one-time
    handlers whose call returned, in their former order, and the handlers
    of every other topic are as before. *)
Theorem emit_prunes_handlers rt bus topic data source metadata event :
  apply_middleware rt (_middleware bus) (mkEvent topic data source metadata) = Some event ->
  let bus' := snd (emit rt bus topic data source metadata) in
  handlers_of bus' topic =
    List.filter (fun h => negb (marked rt event h)) (handlers_of bus topic) /\
  forall t, t <> topic -> handlers_of bus' t = handlers_of bus t.
Proof.
  intros Hmw. unfold emit.
  change (_middleware (_add_to_history bus (mkEvent topic data source metadata)))
    with (_middleware bus).
  rewrite Hmw.
  change (handlers_of (_add_to_history bus (mkEvent topic data source metadata)) topic)
    with (handlers_of bus topic).
  destruct (run_handlers_spec rt event (handlers_of bus topic) (mkLoop [] [] []))
    as (_ & _ & Hrm).
  simpl in Hrm. rewrite Hrm. clear Hrm.
  match goal with
  | |- context [remove_handlers topic ?rm (_handlers ?b)] =>
      change (_handlers b) with (_handlers bus)
  end.
  assert (Hrem : exists hs',
            remove_handlers topic (List.filter (marked rt event) (handlers_of bus topic))
              (_handlers bus) = Some hs' /\
            default [] (hs' !! topic) =
              List.filter (fun h => negb (marked rt event h)) (handlers_of bus topic) /\
            forall t, t <> topic -> hs' !! t = _handlers bus !! t).
  { unfold handlers_of. destruct (_handlers bus !! topic) as [l|] eqn:Hl; simpl.
    - destruct (remove_handlers_filter (marked rt event) topic l [] (_handlers bus))
        as (hs' & Hr & Ht & Ho); [constructor|done|].
      exists hs'. split; [done|]. split; [by rewrite Ht|done].
    - exists (_handlers bus). split; [done|]. split; [by rewrite Hl|done]. }
  destruct Hrem as (hs' & -> & Ht & Ho). simpl.
  split; [exact Ht|]. intros t Hne. unfold handlers_of. simpl. by rewrite Ho.
Qed.

Lemma emit_prunes_handlers_witness :
  handlers_of (snd (emit echo_rt once_bus "x" [] None [])) "x" = [].
Proof.
  exact (proj1 (emit_prunes_handlers echo_rt once_bus "x" [] None []
                  (mkEvent "x" [] None []) eq_refl)).
Defined.

(** When a middleware cancels the event, [emit] returns the empty list,
    invokes nobody and prunes nothing, not even dead or one-time handlers;
    with a history capacity of at least one, the cancelled event is still
    the newest entry of the history. *)
Theorem emit_cancelled rt bus topic data source metadata :
  0 < _history_size bus ->
  apply_middleware rt (_middleware bus) (mkEvent topic data source metadata) = None ->
  let run := emit rt bus topic data source metadata in
  fst run = Ok [] /\
  _handlers (snd run) = _handlers bus /\
  _delivered (snd run) = _delivered bus /\
  last (_history (snd run)) = Some (mkEvent topic data source metadata).
Proof.
  intros Hsize Hmw. unfold emit.
  change (_middleware (_add_to_history bus (mkEvent topic data source metadata)))
    with (_middleware bus).
  rewrite Hmw. simpl.
  split; [done|]. split; [done|]. split; [done|].
  destruct (Nat.ltb (_history_size bus)
              (length (_history bus ++ [mkEvent topic data source metadata])))
    eqn:E; [|apply last_snoc].
  destruct (_history bus) as [|e h]; simpl.
  - apply Nat.ltb_lt in E. simpl in E. lia.
  - rewrite drop_0. apply last_snoc.
Qed.

(** A middleware that cancels everything. *)
Definition cancelling_rt : Runtime :=
  mkRuntime (fun cb _ => Returned (VInt (Z.of_nat cb))) (fun _ _ => true)
    (fun _ _ => None) (fun _ => true).

Lemma emit_cancelled_witness :
  fst (emit cancelling_rt (add_middleware once_bus 1) "x" [] None []) = Ok [] /\
  _handlers (snd (emit cancelling_rt (add_middleware once_bus 1) "x" [] None []))
    = _handlers once_bus.
Proof.
  destruct (emit_cancelled cancelling_rt (add_middleware once_bus 1) "x" [] None [])
    as (H1 & H2 & _); [vm_compute; lia|reflexivity|].
  split; [exact H1|exact H2].
Defined.

(** *** The bounded history *)

Lemma emit_history rt bus topic data source metadata :
  _history (snd (emit rt bus topic data source metadata))
    = _history (_add_to_history bus (mkEvent topic data source metadata)) /\
  _history_size (snd (emit rt bus topic data source metadata)) = _history_size bus.
Proof.
  unfold emit.
  destruct (apply_middleware _ _ _); [|done].
  destruct (remove_handlers _ _ _); done.
Qed.

Lemma add_to_history_drop bus event :
  length (_history bus) <= _history_size bus ->
  _history (_add_to_history bus event) =
  drop (length (_history bus ++ [event]) - _history_size bus) (_history bus ++ [event]).
Proof.
  intros Hle. unfold _add_to_history. simpl.
  rewrite length_app. simpl.
  destruct (Nat.ltb_spec (_history_size bus) (length (_history bus) + 1)) as [Hlt|Hge].
  - replace (length (_history bus) + 1 - _history_size bus) with 1 by lia. done.
  - replace (length (_history bus) + 1 - _history_size bus) with 0 by lia. done.
Qed.

Lemma drop_keeps_suffix {A} (n : nat) (l r : list A) :
  drop (length (drop (length l - n) l ++ r) - n) (drop (length l - n) l ++ r)
  = drop (length (l ++ r) - n) (l ++ r).
Proof.
  rewrite !length_app, length_drop.
  destruct (decide (length l <= n)) as [Hle|Hgt].
  - replace (length l - n) with 0 by lia. simpl. by rewrite Nat.sub_0_r.
  - replace (length l - (length l - n) + length r - n) with (length r) by lia.
    replace (length l + length r - n) with ((length l - n) + length r) by lia.
    rewrite <- drop_drop. f_equal. rewrite drop_app_le by lia. done.
Qed.

(** The history holds the most recent events, as many as its capacity
    allows: after any sequence of [emit] calls it is the tail of length
    [history_size] of the earlier history followed by the emitted events,
    cancelled ones included. *)
Theorem history_keeps_most_recent rt calls : forall bus,
  length (_history bus) <= _history_size bus ->
  _history (emit_all rt bus calls) =
  drop (length (_history bus ++ map event_of calls) - _history_size bus)
       (_history bus ++ map event_of calls).
Proof.
  induction calls as [|c calls IH]; intros bus Hle; simpl.
  - rewrite app_nil_r. replace (length (_history bus) - _history_size bus) with 0 by lia. done.
  - destruct (emit_history rt bus (call_event c) (call_data c) (call_source c)
                (call_metadata c)) as [Hh Hs].
    fold (event_of c) in Hh. rewrite add_to_history_drop in Hh by done.
    rewrite IH.
    + rewrite Hh, Hs, drop_keeps_suffix. by rewrite <- !app_assoc.
    + rewrite Hh, Hs, length_drop, length_app. simpl. lia.
Qed.

Lemma history_keeps_most_recent_witness :
  map ev_name
    (_history
       (emit_all echo_rt (new_bus 3)
          [mkEmitCall "e1" [] None []; mkEmitCall "e2" [] None [];
           mkEmitCall "e3" [] None []; mkEmitCall "e4" [] None [];
           mkEmitCall "e5" [] None []]))
  = ["e3"; "e4"; "e5"].
Proof.
  rewrite (history_keeps_most_recent echo_rt _ (new_bus 3)); [reflexivity|].
  vm_compute. lia.
Defined.

(** *** Unsubscribing *)

(** Does [unsubscribe(handler)] match this entry?  A weak entry is compared
    through its referent, so a dead one matches nothing. *)
Definition live_match (rt : Runtime) (handler : CallbackId) (h : EventHandler) : bool :=
  negb (is_dead rt h) && Nat.eqb (callback h) handler.

Lemma unsubscribe_scan_spec rt handler l :
  match unsubscribe_scan rt handler l with
  | Some l' =>
      exists l1 h l2,
        l = l1 ++ h :: l2 /\ live_match rt handler h = true /\
        Forall (fun x => live_match rt handler x = false) l1 /\ l' = l1 ++ l2
  | None => Forall (fun x => live_match rt handler x = false) l
  end.
Proof.
  induction l as [|y l IH]; simpl; [constructor|].
  fold (live_match rt handler y).
  destruct (live_match rt handler y) eqn:Hy.
  - exists [], y, l. by repeat split.
  - destruct (unsubscribe_scan rt handler l) as [l'|].
    + destruct IH as (l1 & h & l2 & -> & Hh & Hl1 & ->).
      exists (y :: l1), h, l2. repeat split; [done|by constructor].
    + by constructor.
Qed.

(** [unsubscribe] removes the first entry of the topic whose live callback
    is the given one and reports [True]; when there is none (the topic is
    unknown, or the only entries for the callback are dead weak
    references) it reports [False] and leaves the bus as it was.  Other
    topics are never touched. *)
Theorem unsubscribe_removes_first_match rt bus topic handler :
  let run := unsubscribe rt bus topic handler in
  if fst run then
    exists l1 h l2,
      handlers_of bus topic = l1 ++ h :: l2 /\
      callback h = handler /\ is_dead rt h = false /\
      Forall (fun x => live_match rt handler x = false) l1 /\
      handlers_of (snd run) topic = l1 ++ l2 /\
      forall t, t <> topic -> handlers_of (snd run) t = handlers_of bus t
  else
    snd run = bus /\
    Forall (fun x => live_match rt handler x = false) (handlers_of bus topic).
Proof.
  unfold unsubscribe, handlers_of.
  destruct (_handlers bus !! topic) as [l|] eqn:Hl; simpl; [|by split].
  pose proof (unsubscribe_scan_spec rt handler l) as Hscan.
  destruct (unsubscribe_scan rt handler l) as [l'|]; simpl; [|by split].
  destruct Hscan as (l1 & h & l2 & -> & Hh & Hl1 & ->).
  exists l1, h, l2. unfold live_match in Hh.
  apply andb_true_iff in Hh as [Hd He]. apply Nat.eqb_eq in He.
  apply negb_true_iff in Hd.
  split; [done|]. split; [done|]. split; [done|]. split; [done|].
  split; [by rewrite lookup_insert_eq|].
  intros t Hne. by rewrite lookup_insert_ne.
Qed.

Lemma unsubscribe_scan_ordered_insert rt handler x l :
  live_match rt handler x = true ->
  Forall (fun y => live_match rt handler y = false) l ->
  unsubscribe_scan rt handler (ordered_insert x l) = Some l.
Proof.
  intros Hx Hl. induction Hl as [|y l Hy Hl IH]; simpl.
  - fold (live_match rt handler x). by rewrite Hx.
  - destruct (priority_value (priority y) >? priority_value (priority x))%Z; simpl.
    + fold (live_match rt handler x). by rewrite Hx.
    + fold (live_match rt handler y). by rewrite Hy, IH.
Qed.

(** Subscribing a callback and unsubscribing it again gives the topic its
    former handler list back, provided the topic held no live entry for
    that callback before and the new entry is not a weak reference that is
    already dead. *)
Theorem subscribe_then_unsubscribe rt bus topic handler p flt once_ weak_ :
  Forall (fun x => live_match rt handler x = false) (handlers_of bus topic) ->
  weak_ && negb (alive rt handler) = false ->
  let run := unsubscribe rt (subscribe bus topic handler p flt once_ weak_) topic handler in
  fst run = true /\
  handlers_of (snd run) topic = handlers_of bus topic /\
  forall t, t <> topic -> handlers_of (snd run) t = handlers_of bus t.
Proof.
  intros Hnone Hlive. unfold unsubscribe, subscribe. simpl.
  rewrite lookup_insert_eq.
  pose proof (list_insert_at_ordered (mkHandler handler p flt once_ weak_)
                (handlers_of bus topic)) as Hins.
  simpl in Hins. rewrite Hins.
  rewrite (unsubscribe_scan_ordered_insert rt handler _ _); [|
    unfold live_match, is_dead; simpl; by rewrite Hlive, Nat.eqb_refl | done].
  simpl. unfold handlers_of at 1 3. simpl.
  split; [done|]. split; [by rewrite lookup_insert_eq|].
  intros t Hne. unfold handlers_of. simpl. by rewrite !lookup_insert_ne.
Qed.

Lemma subscribe_then_unsubscribe_witness :
  handlers_of
    (snd (unsubscribe echo_rt (subscribe once_bus "x" 3 HIGH None false false) "x" 3)) "x"
  = handlers_of once_bus "x".
Proof.
  assert (Hnone : Forall (fun x => live_match echo_rt 3 x = false) (handlers_of once_bus "x"))
    by (vm_compute; repeat constructor).
  exact (proj1 (proj2 (subscribe_then_unsubscribe echo_rt once_bus "x" 3 HIGH None
                         false false Hnone eq_refl))).
Defined.

(** [unsubscribe_all] with a non-empty topic name drops that topic and
    returns how many handlers it had; with no name, or with the empty
    string, it drops every topic. *)
Theorem unsubscribe_all_clears bus event_name :
  let run := unsubscribe_all bus event_name in
  match event_name with
  | Some n =>
      if String.eqb n "" then forall t, handlers_of (snd run) t = []
      else fst run = length (handlers_of bus n) /\
           handlers_of (snd run) n = [] /\
           forall t, t <> n -> handlers_of (snd run) t = handlers_of bus t
  | None => forall t, handlers_of (snd run) t = []
  end.
Proof.
  unfold unsubscribe_all, handlers_of. destruct event_name as [n|]; simpl; [|done].
  destruct (String.eqb n ""); simpl; [done|].
  destruct (_handlers bus !! n) as [l|] eqn:Hl; simpl.
  - rewrite lookup_delete_eq. split; [done|]. split; [done|].
    intros t Hne. by rewrite lookup_delete_ne.
  - rewrite Hl. done.
Qed.

(** *** The queue and its worker *)

(** A sequence of [emit_async] calls. *)
Definition emit_async_all (bus : EventBus) (calls : list EmitCall) : EventBus :=
  fold_left
    (fun b c => emit_async b (call_event c) (call_data c) (call_source c) (call_metadata c))
    calls bus.

(** [emit] neither reads nor writes the queue and the worker task. *)
Lemma emit_frame rt bus q t topic data source metadata :
  emit rt (set_worker_task (set_queue bus q) t) topic data source metadata =
  (fst (emit rt bus topic data source metadata),
   set_worker_task (set_queue (snd (emit rt bus topic data source metadata)) q) t).
Proof.
  unfold emit. destruct bus as [hs hi sz mw qu ru wt de]. simpl.
  destruct (apply_middleware rt mw _); [|done].
  unfold handlers_of. simpl.
  destruct (remove_handlers _ _ _); done.
Qed.

Lemma emit_running rt bus topic data source metadata :
  _running (snd (emit rt bus topic data source metadata)) = _running bus.
Proof.
  unfold emit. destruct (apply_middleware _ _ _); [|done].
  destruct (remove_handlers _ _ _); done.
Qed.

Lemma worker_process_frame rt bus q t event :
  worker_process rt (set_worker_task (set_queue bus q) t) event =
  set_worker_task (set_queue (worker_process rt bus event) q) t.
Proof. unfold worker_process. by rewrite emit_frame. Qed.

Lemma worker_loop_frame rt queue : forall bus q t,
  worker_loop rt queue (set_worker_task (set_queue bus q) t) = worker_loop rt queue bus.
Proof.
  induction queue as [|[event|] queue IH]; intros bus q t; simpl.
  - by destruct (_running bus).
  - destruct (_running bus); [|done]. simpl.
    rewrite worker_process_frame. apply IH.
  - by destruct (_running bus).
Qed.

Lemma worker_loop_events rt events : forall tail bus,
  _running bus = true ->
  worker_loop rt (map Some events ++ tail) bus =
  worker_loop rt tail (fold_left (worker_process rt) events bus).
Proof.
  induction events as [|e events IH]; intros tail bus Hrun; [done|].
  simpl. rewrite Hrun. simpl. apply IH.
  unfold worker_process. by rewrite emit_running.
Qed.

Lemma fold_worker_process_running rt events : forall bus,
  _running (fold_left (worker_process rt) events bus) = _running bus.
Proof.
  induction events as [|e events IH]; intros bus; [done|].
  simpl. rewrite IH. unfold worker_process. apply emit_running.
Qed.

Lemma emit_all_worker_process rt calls : forall bus,
  fold_left (worker_process rt) (map event_of calls) bus = emit_all rt bus calls.
Proof. induction calls as [|c calls IH]; intros bus; [done|]. simpl. apply IH. Qed.

Lemma emit_async_all_queue calls : forall bus,
  emit_async_all bus calls =
  set_queue bus (_event_queue bus ++ map (fun c => Some (event_of c)) calls).
Proof.
  unfold emit_async_all. induction calls as [|c calls IH]; intros bus; simpl.
  - rewrite app_nil_r. by destruct bus.
  - rewrite IH. unfold emit_async, event_of. simpl. by rewrite <- app_assoc.
Qed.

(** Events queued with [emit_async] while the worker waits are delivered,
    once the worker runs, exactly as the same [emit] calls made directly
    and in the same order would have been; the worker then waits again on
    an empty queue. *)
Theorem worker_delivers_queue_in_order rt bus calls :
  _running bus = true ->
  _worker_task bus = Some AwaitingGet ->
  _event_queue bus = [] ->
  let bus' := run_worker rt (emit_async_all bus calls) in
  _history bus' = _history (emit_all rt bus calls) /\
  _delivered bus' = _delivered (emit_all rt bus calls) /\
  _handlers bus' = _handlers (emit_all rt bus calls) /\
  _event_queue bus' = [] /\
  _worker_task bus' = Some AwaitingGet.
Proof.
  intros Hrun Htask Hq. rewrite emit_async_all_queue, Hq. simpl.
  unfold run_worker. simpl. rewrite Htask. unfold worker_resume_get. simpl.
  destruct calls as [|c calls]; simpl.
  - done.
  - pose proof (worker_process_frame rt bus
                  (Some (event_of c) :: map (fun c0 => Some (event_of c0)) calls)
                  (_worker_task bus) (event_of c)) as Hf.
    replace (set_worker_task
               (set_queue bus (Some (event_of c) :: map (fun c0 => Some (event_of c0)) calls))
               (_worker_task bus))
      with (set_queue bus (Some (event_of c) :: map (fun c0 => Some (event_of c0)) calls))
      in Hf by (by destruct bus).
    rewrite Hf, worker_loop_frame.
    rewrite <- (app_nil_r (map _ calls)).
    rewrite <- (map_map event_of Some).
    rewrite worker_loop_events by (unfold worker_process; by rewrite emit_running).
    simpl. rewrite fold_worker_process_running.
    assert (Hrun' : _running (worker_process rt bus (event_of c)) = true)
      by (unfold worker_process; by rewrite emit_running).
    rewrite Hrun'. simpl.
    rewrite emit_all_worker_process. done.
Qed.

Lemma worker_delivers_queue_in_order_witness :
  map ev_name
    (_history
       (run_worker echo_rt
          (emit_async_all idle_bus
             [mkEmitCall "a" [] None []; mkEmitCall "b" [] None []])))
  = ["a"; "b"].
Proof.
  rewrite (proj1 (worker_delivers_queue_in_order echo_rt idle_bus
                    [mkEmitCall "a" [] None []; mkEmitCall "b" [] None []]
                    eq_refl eq_refl eq_refl)).
  reflexivity.
Defined.

(** *** Middleware registration *)

(** A middleware added last runs last: it receives the event the earlier
    ones produced, and does not run when one of them cancelled. *)
Theorem added_middleware_runs_last rt bus m event :
  apply_middleware rt (_middleware (add_middleware bus m)) event =
  match apply_middleware rt (_middleware bus) event with
  | Some event' => transform rt m event'
  | None => None
  end.
Proof.
  unfold add_middleware. simpl. generalize event.
  induction (_middleware bus) as [|m0 mws IH]; intros e; simpl.
  - by destruct (transform rt m e).
  - destruct (transform rt m0 e); [apply IH|done].
Qed.

(** Removing a middleware that was just added, and was not registered
    before, gives the bus back; removing one that is not registered
    reports [False] and changes nothing. *)
Theorem add_then_remove_middleware bus m :
  m ∉ _middleware bus ->
  remove_middleware (add_middleware bus m) m = (true, bus) /\
  remove_middleware bus m = (false, bus).
Proof.
  intros Hm. unfold remove_middleware, add_middleware. simpl.
  rewrite (list_remove_skip m (_middleware bus) []) by done.
  rewrite app_nil_r. split; [by destruct bus|].
  assert (Hnone : forall l : list MiddlewareId, m ∉ l -> list_remove m l = None).
  { induction l as [|y l IH]; intros Hl; simpl; [done|].
    rewrite decide_False by (intros ->; apply Hl; by left).
    rewrite IH; [done|]. intros Hin. apply Hl. by right. }
  by rewrite Hnone.
Qed.

Lemma add_then_remove_middleware_witness :
  remove_middleware (add_middleware once_bus 4) 4 = (true, once_bus).
Proof.
  apply (add_then_remove_middleware once_bus 4).
  vm_compute. intros H. by apply elem_of_nil in H.
Defined.

End EventBus.

(** ** Dependency-injection container ([dependency_injection.py]) *)

Module DI.

(** [class Scope(Enum)] *)
Inductive Scope : Type := SINGLETON | REQUEST | TRANSIENT.

(** An interface is a type used as a dictionary key; it is modelled by its
    name. *)
Definition Interface := string.

(** An object built or held by the container: its identity and the class
    it is an instance of. *)
Record Instance : Type := mkInstance {
  inst_id : nat;
  inst_class : string
}.

(** The exceptions that cross the container's methods. *)
Inductive Exn : Type :=
  | CircularDependency (interface : Interface) (* RuntimeError("Circular dependency detected for ...") *)
  | NoRegistration (interface : Interface)     (* ValueError("No registration found for ...") *)
  | NoNamedRegistration (interface : Interface) (name : string) (* ValueError("... with name ...") *)
  | MissingArgument (cls param : string)       (* TypeError of a constructor call *)
  | KeyError (interface : Interface)           (* set.remove of an absent element *)
  | UserValueError (msg : string)              (* a ValueError raised by user code *)
  | UserError (msg : string).                  (* any other exception raised by user code *)

(** [except ValueError] *)
Definition is_ValueError (e : Exn) : bool :=
  match e with
  | NoRegistration _ | NoNamedRegistration _ _ | UserValueError _ => true
  | _ => false
  end.

(** One parameter of a constructor signature, [self] included when the
    signature lists it.  A variadic parameter, which a call may leave out,
    counts as having a default. *)
Record Param : Type := mkParam {
  param_name : string;
  annotation : option Interface;
  has_default : bool
}.

(** What a synchronous user callable (a factory, a function registered as
    implementation) does when called. *)
Inductive Body : Type :=
  | Builds (cls : string)      (* returns a new object *)
  | Returns (o : Instance)     (* returns an existing object *)
  | Raises (e : Exn).

(** An asynchronous factory: it awaits [container.resolve(i)] for each
    interface of [awaits] in turn, handling no exception, and then behaves
    as [finish]. *)
Record AsyncFactory : Type := mkAsyncFactory {
  awaits : list Interface;
  finish : Body
}.

(** The three kinds of [implementation] that [_create_instance] tells apart. *)
Inductive Implementation : Type :=
  | AClass (cls : string)       (* [inspect.isclass] *)
  | ACallable (f : Body)        (* callable and not a class *)
  | AnInstance (o : Instance).  (* neither: a ready instance *)

(** [@dataclass DependencyDefinition] *)
Record DependencyDefinition : Type := mkDefinition {
  def_interface : Interface;
  def_implementation : Implementation;
  def_scope : Scope;
  def_name : option string;
  def_factory : option Body;
  def_async_factory : option AsyncFactory;
  def_kwargs : Dict Value
}.

(** The part of the Python heap the containers live in.  The values of
    [_definitions] are list objects, which [create_child_container] shares
    between parent and child: [lists] maps each list object to its content.
    [next_id] numbers the objects built so far.  [resolve_log] is a ghost
    field: every call of [resolve] so far, with whether its interface was
    already being resolved. *)
Record World : Type := mkWorld {
  lists : gmap nat (list DependencyDefinition);
  next_loc : nat;
  next_id : nat;
  resolve_log : list (Interface * bool)
}.

(** [class Container] ([_factories] is never used by the source). *)
Record Container : Type := mkContainer {
  _definitions : gmap Interface nat;
  _singletons : gmap Interface Instance;
  _resolving : gset Interface;
  _request_scope : gmap Interface Instance
}.

Definition State : Type := World * Container.

(** A computation that may run out of fuel ([None]), raise or return. *)
Definition M (A : Type) : Type := option (Result Exn A * State).

Definition new_world : World :=
  {| lists := ∅; next_loc := 0; next_id := 0; resolve_log := [] |}.

(** [Container()] *)
Definition new_container : Container :=
  {| _definitions := ∅; _singletons := ∅; _resolving := ∅; _request_scope := ∅ |}.

Definition set_lists (w : World) (l : gmap nat (list DependencyDefinition)) : World :=
  {| lists := l; next_loc := next_loc w; next_id := next_id w; resolve_log := resolve_log w |}.

Definition log_call (w : World) (entry : Interface * bool) : World :=
  {| lists := lists w; next_loc := next_loc w; next_id := next_id w;
     resolve_log := resolve_log w ++ [entry] |}.

Definition set_definitions (c : Container) (d : gmap Interface nat) : Container :=
  {| _definitions := d; _singletons := _singletons c; _resolving := _resolving c;
     _request_scope := _request_scope c |}.

Definition set_singletons (c : Container) (s : gmap Interface Instance) : Container :=
  {| _definitions := _definitions c; _singletons := s; _resolving := _resolving c;
     _request_scope := _request_scope c |}.

Definition set_resolving (c : Container) (r : gset Interface) : Container :=
  {| _definitions := _definitions c; _singletons := _singletons c; _resolving := r;
     _request_scope := _request_scope c |}.

Definition set_request_scope (c : Container) (s : gmap Interface Instance) : Container :=
  {| _definitions := _definitions c; _singletons := _singletons c;
     _resolving := _resolving c; _request_scope := s |}.

(** A new list object holding [l]. *)
Definition alloc_list (w : World) (l : list DependencyDefinition) : nat * World :=
  (next_loc w,
   {| lists := <[next_loc w := l]> (lists w); next_loc := S (next_loc w);
      next_id := next_id w; resolve_log := resolve_log w |}).

(** A new object of class [cls]. *)
Definition new_instance (w : World) (cls : string) : Instance * World :=
  (mkInstance (next_id w) cls,
   {| lists := lists w; next_loc := next_loc w; next_id := S (next_id w);
      resolve_log := resolve_log w |}).

(** The content of a list object. *)
Definition deref (w : World) (l : nat) : list DependencyDefinition :=
  default [] (lists w !! l).

(** [self._definitions.get(interface, [])] *)
Definition definitions_of (w : World) (c : Container) (interface : Interface)
    : list DependencyDefinition :=
  match _definitions c !! interface with
  | Some l => deref w l
  | None => []
  end.

(** [d.name != name] for a given (truthy) [name]. *)
Definition name_differs (name : string) (d : DependencyDefinition) : bool :=
  match def_name d with
  | Some n => negb (String.eqb n name)
  | None => true
  end.

(** [Container.register] *)
Definition register (st : State) (interface : Interface)
    (implementation : option Implementation) (scope : Scope) (name : option string)
    (factory : option Body) (async_factory : option AsyncFactory) (kwargs : Dict Value)
    : State :=
  let '(w, c) := st in
  let implementation := default (AClass interface) implementation in
  let definition :=
    mkDefinition interface implementation scope name factory async_factory kwargs in
  (* if interface not in self._definitions: self._definitions[interface] = [] *)
  let '(w1, c1) :=
    match _definitions c !! interface with
    | Some _ => (w, c)
    | None =>
        let '(l, w') := alloc_list w [] in
        (w', set_definitions c (<[interface := l]> (_definitions c)))
    end in
  (* if name: self._definitions[interface] = [d for d in ... if d.name != name] *)
  let '(w2, c2) :=
    match name with
    | Some n =>
        if name_given name then
          let '(l, w') := alloc_list w1 (List.filter (name_differs n) (definitions_of w1 c1 interface)) in
          (w', set_definitions c1 (<[interface := l]> (_definitions c1)))
        else (w1, c1)
    | None => (w1, c1)
    end in
  (* self._definitions[interface].append(definition) *)
  match _definitions c2 !! interface with
  | Some l => (set_lists w2 (<[l := deref w2 l ++ [definition]]> (lists w2)), c2)
  | None => (w2, c2)
  end.

(** [Container.register_singleton], [register_transient], [register_request] *)
Definition register_singleton (st : State) (interface : Interface)
    (implementation : option Implementation) (kwargs : Dict Value) : State :=
  register st interface implementation SINGLETON None None None kwargs.

Definition register_transient (st : State) (interface : Interface)
    (implementation : option Implementation) (kwargs : Dict Value) : State :=
  register st interface implementation TRANSIENT None None None kwargs.

Definition register_request (st : State) (interface : Interface)
    (implementation : option Implementation) (kwargs : Dict Value) : State :=
  register st interface implementation REQUEST None None None kwargs.

(** [Container.register_factory] *)
Definition register_factory (st : State) (interface : Interface) (factory : Body)
    (scope : Scope) : State :=
  register st interface None scope None (Some factory) None [].

(** [Container.register_instance] *)
Definition register_instance (st : State) (interface : Interface) (instance : Instance)
    : State :=
  let '(w, c) := st in
  register (w, set_singletons c (<[interface := instance]> (_singletons c)))
    interface (Some (AnInstance instance)) SINGLETON None None None [].

Section Resolve.

(** The constructor signatures of the program's classes
    ([inspect.signature(cls.__init__)]), by class name. *)
Variable signature : string -> list Param.

(** The [__ainit__] methods of the program's classes, by class name
    ([None]: the class has none).  What the method does is described like
    an asynchronous factory: the [container.resolve] calls it awaits, then
    how it ends; the value it returns is dropped. *)
Variable ainit : string -> option AsyncFactory.

(** Calling a synchronous user callable. *)
Definition run_body (b : Body) (st : State) : Result Exn Instance * State :=
  match b with
  | Builds cls => let '(o, w') := new_instance (fst st) cls in (Ok o, (w', snd st))
  | Returns o => (Ok o, st)
  | Raises e => (Err e, st)
  end.

(** The [await container.resolve(i)] calls of an asynchronous factory. *)
Fixpoint run_awaits (resolve_ : State -> Interface -> M Instance)
    (interfaces : list Interface) (st : State) : M unit :=
  match interfaces with
  | [] => Some (Ok tt, st)
  | i :: rest =>
      match resolve_ st i with
      | None => None
      | Some (Ok _, st') => run_awaits resolve_ rest st'
      | Some (Err e, st') => Some (Err e, st')
      end
  end.

(** The parameter loop of [_create_instance]; it returns [resolved_kwargs]. *)
Fixpoint wire_params (resolve_ : State -> Interface -> M Instance) (kwargs : Dict Value)
    (params : list Param) (resolved_kwargs : list string) (st : State)
    : M (list string) :=
  match params with
  | [] => Some (Ok resolved_kwargs, st)
  | param :: rest =>
      if String.eqb (param_name param) "self" then
        wire_params resolve_ kwargs rest resolved_kwargs st
      else if dict_mem (param_name param) kwargs then
        wire_params resolve_ kwargs rest (resolved_kwargs ++ [param_name param]) st
      else
        match annotation param with
        | None => wire_params resolve_ kwargs rest resolved_kwargs st
        | Some a =>
            match resolve_ st a with
            | None => None
            | Some (Ok _, st') =>
                wire_params resolve_ kwargs rest (resolved_kwargs ++ [param_name param]) st'
            | Some (Err e, st') =>
                if is_ValueError e then
                  if has_default param then
                    wire_params resolve_ kwargs rest resolved_kwargs st'
                  else Some (Err e, st')
                else Some (Err e, st')
            end
        end
  end.

(** The first parameter that the constructor call with [resolved_kwargs] is
    not given and has no default for. *)
Definition missing_argument (params : list Param) (resolved_kwargs : list string)
    : option string :=
  param_name <$>
    List.find
      (fun p => negb (String.eqb (param_name p) "self") && negb (has_default p) &&
                negb (bool_decide (param_name p ∈ resolved_kwargs)))
      params.

(** The constructor call on [resolved_args] and [resolved_kwargs]: the
    constructor body itself is taken not to raise. *)
Definition construct (cls : string) (resolved_kwargs : list string) (st : State)
    : Result Exn Instance * State :=
  match missing_argument (signature cls) resolved_kwargs with
  | Some p => (Err (MissingArgument cls p), st)
  | None => let '(o, w') := new_instance (fst st) cls in (Ok o, (w', snd st))
  end.

(** The end of [_create_instance], after the constructor call:
    [if hasattr(instance, "__ainit__"): await instance.__ainit__()]. *)
Definition call_ainit (resolve_ : State -> Interface -> M Instance) (cls : string)
    (built : Result Exn Instance * State) : M Instance :=
  match built with
  | (Err e, st) => Some (Err e, st)
  | (Ok instance, st) =>
      match ainit cls with
      | None => Some (Ok instance, st)
      | Some method =>
          match run_awaits resolve_ (awaits method) st with
          | None => None
          | Some (Err e, st') => Some (Err e, st')
          | Some (Ok _, st') =>
              match run_body (finish method) st' with
              | (Ok _, st'') => Some (Ok instance, st'')
              | (Err e, st'') => Some (Err e, st'')
              end
          end
      end
  end.

(** [Container._create_instance] *)
Definition _create_instance (resolve_ : State -> Interface -> M Instance)
    (st : State) (definition : DependencyDefinition) : M Instance :=
  match def_implementation definition with
  | AnInstance o => Some (Ok o, st)
  | impl =>
      match def_async_factory definition with
      | Some af =>
          match run_awaits resolve_ (awaits af) st with
          | None => None
          | Some (Ok _, st') => Some (run_body (finish af) st')
          | Some (Err e, st') => Some (Err e, st')
          end
      | None =>
          match def_factory definition with
          | Some f => Some (run_body f st)
          | None =>
              match impl with
              | ACallable f => Some (run_body f st)
              | AClass cls =>
                  match wire_params resolve_ (def_kwargs definition) (signature cls) [] st with
                  | None => None
                  | Some (Ok resolved_kwargs, st') =>
                      call_ainit resolve_ cls (construct cls resolved_kwargs st')
                  | Some (Err e, st') => Some (Err e, st')
                  end
              | AnInstance o => Some (Ok o, st)
              end
          end
      end
  end.

(** [Container._resolve_singleton] *)
Definition _resolve_singleton (resolve_ : State -> Interface -> M Instance)
    (st : State) (definition : DependencyDefinition) : M Instance :=
  match _singletons (snd st) !! def_interface definition with
  | Some o => Some (Ok o, st)
  | None =>
      match _create_instance resolve_ st definition with
      | None => None
      | Some (Ok instance, (w', c')) =>
          Some (Ok instance,
                (w', set_singletons c' (<[def_interface definition := instance]> (_singletons c'))))
      | Some (Err e, st') => Some (Err e, st')
      end
  end.

(** [Container._resolve_request] *)
Definition _resolve_request (resolve_ : State -> Interface -> M Instance)
    (st : State) (definition : DependencyDefinition) : M Instance :=
  match _request_scope (snd st) !! def_interface definition with
  | Some o => Some (Ok o, st)
  | None =>
      match _create_instance resolve_ st definition with
      | None => None
      | Some (Ok instance, (w', c')) =>
          Some (Ok instance,
                (w', set_request_scope c'
                       (<[def_interface definition := instance]> (_request_scope c'))))
      | Some (Err e, st') => Some (Err e, st')
      end
  end.

(** [Container._resolve_transient] *)
Definition _resolve_transient (resolve_ : State -> Interface -> M Instance)
    (st : State) (definition : DependencyDefinition) : M Instance :=
  _create_instance resolve_ st definition.

(** The selection of the definition in [resolve]. *)
Definition select_definition (definitions : list DependencyDefinition)
    (interface : Interface) (name : option string) : Result Exn DependencyDefinition :=
  match definitions with
  | [] => Err (NoRegistration interface)
  | _ =>
      match name with
      | Some n =>
          if name_given name then
            match List.find (fun d => bool_decide (def_name d = Some n)) definitions with
            | Some d => Ok d
            | None => Err (NoNamedRegistration interface n)
            end
          else match last definitions with
               | Some d => Ok d
               | None => Err (NoRegistration interface)
               end
      | None =>
          match last definitions with
          | Some d => Ok d
          | None => Err (NoRegistration interface)
          end
      end
  end.

(** The [try] block of [resolve]. *)
Definition resolve_body (resolve_ : State -> Interface -> M Instance)
    (st : State) (interface : Interface) (name : option string) : M Instance :=
  match select_definition (definitions_of (fst st) (snd st) interface) interface name with
  | Err e => Some (Err e, st)
  | Ok definition =>
      match def_scope definition with
      | SINGLETON => _resolve_singleton resolve_ st definition
      | REQUEST => _resolve_request resolve_ st definition
      | TRANSIENT => _resolve_transient resolve_ st definition
      end
  end.

(** [Container.resolve] on an interpreter whose stack has room for [fuel]
    more nested calls of it.  [None] is the [RecursionError] raised where
    that room is used up: the container has no handler for it (its only
    [except] clause is for [ValueError]), so it ends every enclosing
    call. *)
Fixpoint resolve_fuel (fuel : nat) (st : State) (interface : Interface)
    (name : option string) : M Instance :=
  match fuel with
  | 0 => None
  | S fuel' =>
      let '(w, c) := st in
      if bool_decide (interface ∈ _resolving c) then
        Some (Err (CircularDependency interface), (log_call w (interface, true), c))
      else
        let st1 :=
          (log_call w (interface, false),
           set_resolving c ({[interface]} ∪ _resolving c)) in
        match resolve_body (fun s i => resolve_fuel fuel' s i None) st1 interface name with
        | None => None
        | Some (r, (w2, c2)) =>
            (* finally: self._resolving.remove(interface) *)
            if bool_decide (interface ∈ _resolving c2) then
              Some (r, (w2, set_resolving c2 (_resolving c2 ∖ {[interface]})))
            else Some (Err (KeyError interface), (w2, c2))
        end
  end.

(** [Container.resolve] on a stack deep enough: room for one more nested
    call than there are registered interfaces is never used up (see
    [resolve_returns]), and every deeper stack gives the same (see
    [resolve_fuel_enough]). *)
Definition resolve (st : State) (interface : Interface) (name : option string)
    : M Instance :=
  resolve_fuel (S (size (_definitions (snd st)))) st interface name.

End Resolve.

(** [Container.clear_request_scope] *)
Definition clear_request_scope (st : State) : State :=
  (fst st, set_request_scope (snd st) ∅).

(** [Container.has] *)
Definition has (st : State) (interface : Interface) (name : option string) : bool :=
  match definitions_of (fst st) (snd st) interface with
  | [] => false
  | definitions =>
      match name with
      | Some n =>
          if name_given name
          then existsb (fun d => bool_decide (def_name d = Some n)) definitions
          else true
      | None => true
      end
  end.

(** [Container.unregister] *)
Definition unregister (st : State) (interface : Interface) (name : option string)
    : bool * State :=
  let '(w, c) := st in
  match _definitions c !! interface with
  | None => (false, st)
  | Some l =>
      let '(removed, (w1, c1)) :=
        match name with
        | Some n =>
            if name_given name then
              let before := deref w l in
              let kept := List.filter (name_differs n) before in
              let '(l', w') := alloc_list w kept in
              (Nat.ltb (length kept) (length before),
               (w', set_definitions c (<[interface := l']> (_definitions c))))
            else
              (match deref w l with [] => false | _ => true end,
               (w, set_definitions c (delete interface (_definitions c))))
        | None =>
            (match deref w l with [] => false | _ => true end,
             (w, set_definitions c (delete interface (_definitions c))))
        end in
      (* if interface in self._singletons: del self._singletons[interface] *)
      (removed, (w1, set_singletons c1 (delete interface (_singletons c1))))
  end.

(** [Container.create_child_container]: [dict.copy()] is shallow, the child
    maps every interface to the parent's list object. *)
Definition create_child_container (parent : Container) : Container :=
  set_definitions new_container (_definitions parent).

(** *** What a resolution leaves alone *)

(** [unchanged st st' l]: from [st] to [st'] the registrations and the set
    of interfaces being resolved are the same, and [l] is what was added to
    the log of [resolve] calls. *)
Definition unchanged (st st' : State) (l : list (Interface * bool)) : Prop :=
  lists (fst st') = lists (fst st) /\
  _definitions (snd st') = _definitions (snd st) /\
  _resolving (snd st') = _resolving (snd st) /\
  resolve_log (fst st') = resolve_log (fst st) ++ l.

(** [sound st m]: the computation [m], started in [st], does not run out of
    fuel, leaves registrations and the in-progress set as they were, and
    if one of the [resolve] calls it made found its interface already in
    progress, it raises the circular-dependency error of that call. *)
Definition sound {A} (st : State) (m : M A) : Prop :=
  exists r st' l,
    m = Some (r, st') /\ unchanged st st' l /\
    forall k, (k, true) ∈ l -> r = Err (CircularDependency k).

(** The specification a [resolve] callback meets in states whose
    registrations are [D] and whose in-progress set is [R]. *)
Definition callback_sound (resolve_ : State -> Interface -> M Instance)
    (D : gmap Interface nat) (R : gset Interface) : Prop :=
  forall st j, _definitions (snd st) = D -> _resolving (snd st) = R ->
    sound st (resolve_ st j).

Lemma unchanged_refl st : unchanged st st [].
Proof. unfold unchanged. by rewrite app_nil_r. Qed.

Lemma unchanged_trans st st' st'' l l' :
  unchanged st st' l -> unchanged st' st'' l' -> unchanged st st'' (l ++ l').
Proof.
  intros (H1 & H2 & H3 & H4) (H1' & H2' & H3' & H4').
  unfold unchanged. rewrite H1', H2', H3', H4', H1, H2, H3, H4.
  by rewrite app_assoc.
Qed.

Lemma sound_ret {A} st (r : Result Exn A) : sound st (Some (r, st)).
Proof.
  exists r, st, []. split; [done|]. split; [apply unchanged_refl|].
  intros k Hk. by apply elem_of_nil in Hk.
Qed.

(** A step that touches neither registrations, in-progress set nor log. *)
Lemma sound_silent {A} st st' (r : Result Exn A) :
  unchanged st st' [] -> sound st (Some (r, st')).
Proof.
  intros Hun. exists r, st', []. split; [done|]. split; [done|].
  intros k Hk. by apply elem_of_nil in Hk.
Qed.

(** Sequencing: [k] continues after a result, [h] after an exception; [h]
    must let a circular-dependency error through. *)
Lemma sound_bind {A B} st (m : M A) (k : A -> State -> M B) (h : Exn -> State -> M B) :
  sound st m ->
  (forall a st' l, unchanged st st' l -> sound st' (k a st')) ->
  (forall e st' l, unchanged st st' l -> sound st' (h e st')) ->
  (forall j st', h (CircularDependency j) st' = Some (Err (CircularDependency j), st')) ->
  sound st
    (match m with
     | None => None
     | Some (Ok a, st') => k a st'
     | Some (Err e, st') => h e st'
     end).
Proof.
  intros (r & st' & l & -> & Hun & Hlog) Hk Hh Hcirc.
  destruct r as [a|e].
  - destruct (Hk a st' l Hun) as (r2 & st2 & l2 & -> & Hun2 & Hlog2).
    exists r2, st2, (l ++ l2). split; [done|]. split; [by eapply unchanged_trans|].
    intros j [Hj|Hj]%elem_of_app; [by specialize (Hlog j Hj)|by apply Hlog2].
  - destruct (Hh e st' l Hun) as (r2 & st2 & l2 & Heq & Hun2 & Hlog2).
    exists r2, st2, (l ++ l2). split; [done|]. split; [by eapply unchanged_trans|].
    intros j [Hj|Hj]%elem_of_app; [|by apply Hlog2].
    specialize (Hlog j Hj). injection Hlog as ->.
    rewrite Hcirc in Heq. by injection Heq as <- _.
Qed.

Section ResolveFacts.

Variable signature : string -> list Param.
Variable ainit : string -> option AsyncFactory.

Lemma sound_run_body st b : sound st (Some (run_body b st)).
Proof.
  destruct b as [cls|o|e]; simpl; try apply sound_ret.
  destruct st as [w c]. simpl. apply sound_silent.
  unfold unchanged. simpl. by rewrite app_nil_r.
Qed.

Lemma sound_construct st cls resolved_kwargs :
  sound st (Some (construct signature cls resolved_kwargs st)).
Proof.
  unfold construct. destruct (missing_argument _ _); [apply sound_ret|].
  destruct st as [w c]. simpl. apply sound_silent.
  unfold unchanged. simpl. by rewrite app_nil_r.
Qed.

Lemma sound_run_awaits resolve_ D R interfaces :
  callback_sound resolve_ D R ->
  forall st, _definitions (snd st) = D -> _resolving (snd st) = R ->
    sound st (run_awaits resolve_ interfaces st).
Proof.
  intros Hcb. induction interfaces as [|i rest IH]; intros st HD HR; simpl.
  - apply sound_ret.
  - apply (sound_bind st (resolve_ st i) (fun _ st' => run_awaits resolve_ rest st')
             (fun e st' => Some (Err e, st'))).
    + by apply Hcb.
    + intros _ st' l (_ & HD' & HR' & _). apply IH; congruence.
    + intros e st' l _. apply sound_ret.
    + done.
Qed.

Lemma sound_wire_params resolve_ D R kwargs params :
  callback_sound resolve_ D R ->
  forall resolved st, _definitions (snd st) = D -> _resolving (snd st) = R ->
    sound st (wire_params resolve_ kwargs params resolved st).
Proof.
  intros Hcb. induction params as [|p rest IH]; intros resolved st HD HR; simpl.
  - apply sound_ret.
  - destruct (String.eqb (param_name p) "self"); [by apply IH|].
    destruct (dict_mem (param_name p) kwargs); [by apply IH|].
    destruct (annotation p) as [a|]; [|by apply IH].
    apply (sound_bind st (resolve_ st a)
             (fun _ st' => wire_params resolve_ kwargs rest (resolved ++ [param_name p]) st')
             (fun e st' =>
                if is_ValueError e then
                  if has_default p then wire_params resolve_ kwargs rest resolved st'
                  else Some (Err e, st')
                else Some (Err e, st'))).
    + by apply Hcb.
    + intros _ st' l (_ & HD' & HR' & _). apply IH; congruence.
    + intros e st' l (_ & HD' & HR' & _).
      destruct (is_ValueError e); [|apply sound_ret].
      destruct (has_default p); [apply IH; congruence|apply sound_ret].
    + done.
Qed.

Lemma sound_call_ainit resolve_ D R cls resolved_kwargs :
  callback_sound resolve_ D R ->
  forall st, _definitions (snd st) = D -> _resolving (snd st) = R ->
    sound st (call_ainit ainit resolve_ cls (construct signature cls resolved_kwargs st)).
Proof.
  intros Hcb st HD HR. unfold call_ainit.
  apply (sound_bind st (Some (construct signature cls resolved_kwargs st))
           (fun instance st1 =>
              match ainit cls with
              | None => Some (Ok instance, st1)
              | Some method =>
                  match run_awaits resolve_ (awaits method) st1 with
                  | None => None
                  | Some (Err e, st') => Some (Err e, st')
                  | Some (Ok _, st') =>
                      match run_body (finish method) st' with
                      | (Ok _, st'') => Some (Ok instance, st'')
                      | (Err e, st'') => Some (Err e, st'')
                      end
                  end
              end)
           (fun e st1 => Some (Err e, st1))).
  - apply sound_construct.
  - intros instance st1 l (_ & HD1 & HR1 & _).
    destruct (ainit cls) as [method|]; [|apply sound_ret].
    apply (sound_bind st1 (run_awaits resolve_ (awaits method) st1)
             (fun _ st' =>
                match run_body (finish method) st' with
                | (Ok _, st'') => Some (Ok instance, st'')
                | (Err e, st'') => Some (Err e, st'')
                end)
             (fun e st' => Some (Err e, st'))).
    + eapply sound_run_awaits; [done|congruence|congruence].
    + intros _ st' l' _. destruct (finish method) as [c0|o|e]; simpl; try apply sound_ret.
      destruct st' as [w c]. simpl. apply sound_silent.
      unfold unchanged. simpl. by rewrite app_nil_r.
    + intros. apply sound_ret.
    + done.
  - intros. apply sound_ret.
  - done.
Qed.

Lemma sound_create_instance resolve_ D R definition :
  callback_sound resolve_ D R ->
  forall st, _definitions (snd st) = D -> _resolving (snd st) = R ->
    sound st (_create_instance signature ainit resolve_ st definition).
Proof.
  intros Hcb st HD HR. unfold _create_instance.
  assert (Hfac : sound st
    match def_async_factory definition with
    | Some af =>
        match run_awaits resolve_ (awaits af) st with
        | None => None
        | Some (Ok _, st') => Some (run_body (finish af) st')
        | Some (Err e, st') => Some (Err e, st')
        end
    | None =>
        match def_factory definition with
        | Some f => Some (run_body f st)
        | None =>
            match def_implementation definition with
            | ACallable f => Some (run_body f st)
            | AClass cls =>
                match wire_params resolve_ (def_kwargs definition) (signature cls) [] st with
                | None => None
                | Some (Ok resolved_kwargs, st') =>
                    call_ainit ainit resolve_ cls (construct signature cls resolved_kwargs st')
                | Some (Err e, st') => Some (Err e, st')
                end
            | AnInstance o => Some (Ok o, st)
            end
        end
    end).
  { destruct (def_async_factory definition) as [af|].
    - apply (sound_bind st (run_awaits resolve_ (awaits af) st)
               (fun _ st' => Some (run_body (finish af) st'))
               (fun e st' => Some (Err e, st'))).
      + by eapply sound_run_awaits.
      + intros. apply sound_run_body.
      + intros. apply sound_ret.
      + done.
    - destruct (def_factory definition) as [f|]; [apply sound_run_body|].
      destruct (def_implementation definition) as [cls|f|o];
        [|apply sound_run_body|apply sound_ret].
      apply (sound_bind st (wire_params resolve_ (def_kwargs definition) (signature cls) [] st)
               (fun resolved_kwargs st' =>
                  call_ainit ainit resolve_ cls (construct signature cls resolved_kwargs st'))
               (fun e st' => Some (Err e, st'))).
      + by eapply sound_wire_params.
      + intros resolved_kwargs st' l (_ & HD' & HR' & _).
        eapply sound_call_ainit; [done|congruence|congruence].
      + intros. apply sound_ret.
      + done. }
  destruct (def_implementation definition); try exact Hfac. apply sound_ret.
Qed.

Lemma sound_resolve_singleton resolve_ D R definition :
  callback_sound resolve_ D R ->
  forall st, _definitions (snd st) = D -> _resolving (snd st) = R ->
    sound st (_resolve_singleton signature ainit resolve_ st definition).
Proof.
  intros Hcb st HD HR. unfold _resolve_singleton.
  destruct (_singletons (snd st) !! def_interface definition); [apply sound_ret|].
  apply (sound_bind st (_create_instance signature ainit resolve_ st definition)
           (fun instance st' =>
              let '(w', c') := st' in
              Some (Ok instance,
                    (w', set_singletons c'
                           (<[def_interface definition := instance]> (_singletons c')))))
           (fun e st' => Some (Err e, st'))).
  - by eapply sound_create_instance.
  - intros instance [w' c'] l _. apply sound_silent.
    unfold unchanged. simpl. by rewrite app_nil_r.
  - intros. apply sound_ret.
  - done.
Qed.

Lemma sound_resolve_request resolve_ D R definition :
  callback_sound resolve_ D R ->
  forall st, _definitions (snd st) = D -> _resolving (snd st) = R ->
    sound st (_resolve_request signature ainit resolve_ st definition).
Proof.
  intros Hcb st HD HR. unfold _resolve_request.
  destruct (_request_scope (snd st) !! def_interface definition); [apply sound_ret|].
  apply (sound_bind st (_create_instance signature ainit resolve_ st definition)
           (fun instance st' =>
              let '(w', c') := st' in
              Some (Ok instance,
                    (w', set_request_scope c'
                           (<[def_interface definition := instance]> (_request_scope c')))))
           (fun e st' => Some (Err e, st'))).
  - by eapply sound_create_instance.
  - intros instance [w' c'] l _. apply sound_silent.
    unfold unchanged. simpl. by rewrite app_nil_r.
  - intros. apply sound_ret.
  - done.
Qed.

Lemma sound_resolve_body resolve_ D R interface name :
  callback_sound resolve_ D R ->
  forall st, _definitions (snd st) = D -> _resolving (snd st) = R ->
    sound st (resolve_body signature ainit resolve_ st interface name).
Proof.
  intros Hcb st HD HR. unfold resolve_body.
  destruct (select_definition _ interface name) as [definition|e]; [|apply sound_ret].
  destruct (def_scope definition).
  - by eapply sound_resolve_singleton.
  - by eapply sound_resolve_request.
  - by eapply sound_create_instance.
Qed.

(** An interface without registrations fails before any nested call. *)
Lemma resolve_body_unregistered resolve_ st interface name :
  _definitions (snd st) !! interface = None ->
  resolve_body signature ainit resolve_ st interface name = Some (Err (NoRegistration interface), st).
Proof. intros H. unfold resolve_body, definitions_of. by rewrite H. Qed.

Lemma remove_added (i : Interface) (R : gset Interface) : i ∉ R -> ({[i]} ∪ R) ∖ {[i]} = R.
Proof. set_solver. Qed.

Lemma fewer_left (i : Interface) (D : gmap Interface nat) (R : gset Interface) :
  is_Some (D !! i) -> i ∉ R -> size (dom D ∖ ({[i]} ∪ R)) < size (dom D ∖ R).
Proof.
  intros HD HR. apply subset_size. apply elem_of_dom in HD. set_solver.
Qed.

(** With more fuel than there are registered interfaces outside the
    in-progress set, [resolve] returns or raises, restores the in-progress
    set, and raises the circular-dependency error of any [resolve] call
    that found its interface in progress. *)
Lemma sound_resolve_fuel fuel : forall st interface name,
  size (dom (_definitions (snd st)) ∖ _resolving (snd st)) < fuel ->
  sound st (resolve_fuel signature ainit fuel st interface name).
Proof.
  induction fuel as [|fuel IH]; intros [w c] interface name Hfuel; [lia|].
  simpl in *.
  destruct (bool_decide (interface ∈ _resolving c)) eqn:Hin.
  - exists (Err (CircularDependency interface)), (log_call w (interface, true), c),
           [(interface, true)].
    split; [done|]. split; [done|].
    intros k Hk. apply list_elem_of_singleton in Hk. by injection Hk as ->.
  - apply bool_decide_eq_false_1 in Hin.
    set (st1 := (log_call w (interface, false),
                 set_resolving c ({[interface]} ∪ _resolving c))).
    assert (Hbody : sound st1
              (resolve_body signature ainit (fun s i => resolve_fuel signature ainit fuel s i None)
                 st1 interface name)).
    { destruct (_definitions c !! interface) as [l|] eqn:Hl.
      - eapply sound_resolve_body; [|reflexivity|reflexivity].
        intros st j HD HR. apply IH. rewrite HD, HR. simpl.
        assert (Hlt : size (dom (_definitions c) ∖ ({[interface]} ∪ _resolving c))
                      < size (dom (_definitions c) ∖ _resolving c)); [|lia].
        apply fewer_left; [by rewrite Hl|done].
      - rewrite resolve_body_unregistered by done. apply sound_ret. }
    destruct Hbody as (r & [w2 c2] & l & -> & (H1 & H2 & H3 & H4) & Hlog).
    simpl in *. rewrite H3.
    rewrite bool_decide_eq_true_2 by set_solver.
    exists r, (w2, set_resolving c2 (({[interface]} ∪ _resolving c) ∖ {[interface]})),
           ((interface, false) :: l).
    split; [done|]. split.
    + unfold unchanged. simpl. rewrite remove_added by done.
      rewrite H4. simpl. by rewrite <- app_assoc.
    + intros k Hk. apply elem_of_cons in Hk as [Hk|Hk]; [done|by apply Hlog].
Qed.

(** [Container.resolve] always comes back. *)
Lemma sound_resolve st interface name : sound st (resolve signature ainit st interface name).
Proof.
  apply sound_resolve_fuel.
  assert (Hle : size (dom (_definitions (snd st)) ∖ _resolving (snd st))
                <= size (dom (_definitions (snd st)))) by (apply subseteq_size; set_solver).
  rewrite size_dom in Hle. lia.
Qed.

(** [resolve] always comes back (the nesting of [resolve] calls is
    bounded by the number of registered interfaces), it leaves the
    in-progress set as it found it, and whenever the resolution, through
    constructor auto-wiring or the nested [resolve] calls of a factory or
    of [__ainit__], reaches a [resolve] call for an interface that is
    still being resolved, the whole resolution raises the
    circular-dependency error of that call. *)
Lemma resolve_returns st interface name :
  exists r st' l,
    resolve signature ainit st interface name = Some (r, st') /\
    _resolving (snd st') = _resolving (snd st) /\
    resolve_log (fst st') = resolve_log (fst st) ++ l /\
    forall k, (k, true) ∈ l -> r = Err (CircularDependency k).
Proof.
  destruct (sound_resolve st interface name) as (r & st' & l & Heq & Hun & Hlog).
  destruct Hun as (_ & _ & Hres & Hl).
  by exists r, st', l.
Qed.

Lemma resolve_unchanged st interface name r st' :
  resolve signature ainit st interface name = Some (r, st') -> exists l, unchanged st st' l.
Proof.
  intros Heq.
  destruct (sound_resolve st interface name) as (r0 & st0 & l & Heq0 & Hun & _).
  rewrite Heq in Heq0. injection Heq0 as <- <-. by exists l.
Qed.

Lemma definitions_of_unchanged st st' l interface :
  unchanged st st' l ->
  definitions_of (fst st') (snd st') interface = definitions_of (fst st) (snd st) interface.
Proof.
  intros (H1 & H2 & _ & _). unfold definitions_of, deref. by rewrite H1, H2.
Qed.

Lemma resolve_fuel_S fuel w c interface name :
  resolve_fuel signature ainit (S fuel) (w, c) interface name =
  if bool_decide (interface ∈ _resolving c) then
    Some (Err (CircularDependency interface), (log_call w (interface, true), c))
  else
    match resolve_body signature ainit (fun s i => resolve_fuel signature ainit fuel s i None)
            (log_call w (interface, false),
             set_resolving c ({[interface]} ∪ _resolving c)) interface name with
    | None => None
    | Some (r, (w2, c2)) =>
        if bool_decide (interface ∈ _resolving c2) then
          Some (r, (w2, set_resolving c2 (_resolving c2 ∖ {[interface]})))
        else Some (Err (KeyError interface), (w2, c2))
    end.
Proof. reflexivity. Qed.

(** A successful resolution through a singleton definition leaves the
    returned instance in the singleton cache. *)
Lemma resolve_singleton_caches st interface name definition o st1 :
  select_definition (definitions_of (fst st) (snd st) interface) interface name
    = Ok definition ->
  def_scope definition = SINGLETON ->
  def_interface definition = interface ->
  resolve signature ainit st interface name = Some (Ok o, st1) ->
  _singletons (snd st1) !! interface = Some o.
Proof.
  intros Hsel Hscope Hif. destruct st as [w c]. unfold resolve. simpl snd.
  rewrite resolve_fuel_S.
  destruct (bool_decide (interface ∈ _resolving c)); [done|].
  unfold resolve_body. simpl fst; simpl snd.
  change (definitions_of (log_call w (interface, false))
            (set_resolving c ({[interface]} ∪ _resolving c)) interface)
    with (definitions_of w c interface).
  simpl in Hsel. rewrite Hsel, Hscope. unfold _resolve_singleton. rewrite Hif. simpl.
  destruct (_singletons c !! interface) as [o'|] eqn:Hc.
  - rewrite bool_decide_eq_true_2 by set_solver.
    intros [= <- <-]. done.
  - destruct (_create_instance _ _ _ _) as [[[inst|e] [w' c']]|]; [| |done].
    + destruct (bool_decide (interface ∈ _resolving _)); [|done].
      intros [= <- <-]. simpl. by rewrite lookup_insert_eq.
    + by destruct (bool_decide (interface ∈ _resolving c')).
Qed.

(** A resolution through a singleton definition whose interface is cached
    returns the cached instance and builds nothing. *)
Lemma resolve_cached st interface name definition o :
  interface ∉ _resolving (snd st) ->
  select_definition (definitions_of (fst st) (snd st) interface) interface name
    = Ok definition ->
  def_scope definition = SINGLETON ->
  def_interface definition = interface ->
  _singletons (snd st) !! interface = Some o ->
  resolve signature ainit st interface name
  = Some (Ok o, (log_call (fst st) (interface, false), snd st)).
Proof.
  intros Hnin Hsel Hscope Hif Hc. destruct st as [w c]. unfold resolve.
  simpl fst in *; simpl snd in *.
  rewrite resolve_fuel_S.
  rewrite bool_decide_eq_false_2 by done.
  unfold resolve_body. simpl fst; simpl snd.
  change (definitions_of (log_call w (interface, false))
            (set_resolving c ({[interface]} ∪ _resolving c)) interface)
    with (definitions_of w c interface).
  rewrite Hsel, Hscope. unfold _resolve_singleton. rewrite Hif. simpl. rewrite Hc.
  rewrite bool_decide_eq_true_2 by set_solver.
  simpl. rewrite remove_added by done. by destruct c.
Qed.

Lemma resolve_success_not_resolving st interface name o st1 :
  resolve signature ainit st interface name = Some (Ok o, st1) ->
  interface ∉ _resolving (snd st).
Proof.
  destruct st as [w c]. unfold resolve. simpl snd. rewrite resolve_fuel_S.
  destruct (bool_decide (interface ∈ _resolving c)) eqn:Hin; [done|].
  intros _. by apply bool_decide_eq_false_1 in Hin.
Qed.

(** C10. The singleton cache is keyed by the interface alone.  When the
    definitions selected for interface [X] under the names [a] and [b] both
    have singleton scope, a successful [resolve(X, a)] that returned [o]
    makes a later [resolve(X, b)] return the same [o]: the state is left as
    it was but for the log, so nothing is built for the implementation
    registered under [b]. *)
Theorem singleton_cache_ignores_name st X a b da db o st1 :
  select_definition (definitions_of (fst st) (snd st) X) X (Some a) = Ok da ->
  def_scope da = SINGLETON -> def_interface da = X ->
  select_definition (definitions_of (fst st) (snd st) X) X (Some b) = Ok db ->
  def_scope db = SINGLETON -> def_interface db = X ->
  resolve signature ainit st X (Some a) = Some (Ok o, st1) ->
  resolve signature ainit st1 X (Some b)
  = Some (Ok o, (log_call (fst st1) (X, false), snd st1)).
Proof.
  intros Ha Hsa Hia Hb Hsb Hib Hres.
  destruct (resolve_unchanged _ _ _ _ _ Hres) as [l Hun].
  apply (resolve_cached st1 X (Some b) db o).
  - destruct Hun as (_ & _ & -> & _). by eapply resolve_success_not_resolving.
  - by rewrite (definitions_of_unchanged st st1 l).
  - done.
  - done.
  - exact (resolve_singleton_caches st X (Some a) da o st1 Ha Hsa Hia Hres).
Qed.

(** *** Singletons across repeated resolution and re-registration *)

(** What a caller may do to interface [X] short of unregistering it:
    resolve it again, or register it again with singleton scope. *)
Inductive SingletonOp : Type :=
  | OpResolve
  | OpRegister (implementation : option Implementation) (name : option string)
      (factory : option Body) (async_factory : option AsyncFactory) (kwargs : Dict Value).

(** A sequence of such calls; the results of the [resolve] calls are
    collected in call order. *)
Fixpoint run_ops (X : Interface) (ops : list SingletonOp) (st : State)
    : option (list (Result Exn Instance) * State) :=
  match ops with
  | [] => Some ([], st)
  | OpResolve :: rest =>
      match resolve signature ainit st X None with
      | None => None
      | Some (r, st') =>
          match run_ops X rest st' with
          | None => None
          | Some (rs, st'') => Some (r :: rs, st'')
          end
      end
  | OpRegister implementation name factory async_factory kwargs :: rest =>
      run_ops X rest (register st X implementation SINGLETON name factory async_factory kwargs)
  end.

Definition is_resolve (op : SingletonOp) : bool :=
  match op with OpResolve => true | OpRegister _ _ _ _ _ => false end.

(** What [register] does to the definitions of its interface, and what it
    leaves alone. *)
Lemma register_effect st X implementation scope name factory async_factory kwargs :
  let st' := register st X implementation scope name factory async_factory kwargs in
  (exists kept,
     definitions_of (fst st') (snd st') X =
     kept ++ [mkDefinition X (default (AClass X) implementation) scope name factory
                async_factory kwargs]) /\
  _singletons (snd st') = _singletons (snd st) /\
  _resolving (snd st') = _resolving (snd st) /\
  next_id (fst st') = next_id (fst st).
Proof.
  destruct st as [w c]. unfold register.
  destruct (_definitions c !! X) as [l0|] eqn:H0;
    (destruct name as [n|]; [destruct (name_given (Some n))|]);
    simpl; rewrite ?H0, ?lookup_insert_eq; unfold definitions_of, deref; simpl;
    rewrite ?H0, ?lookup_insert_eq; simpl;
    (split; [first [by exists [] | by eexists]|done]).
Qed.

Lemma select_last definitions X d :
  last definitions = Some d -> select_definition definitions X None = Ok d.
Proof.
  intros Hl. unfold select_definition. rewrite Hl.
  destruct definitions; [done|done].
Qed.

(** The condition the calls of [run_ops] maintain. *)
Definition cached_singleton (X : Interface) (o : Instance) (st : State) : Prop :=
  X ∉ _resolving (snd st) /\
  _singletons (snd st) !! X = Some o /\
  exists d, last (definitions_of (fst st) (snd st) X) = Some d /\
            def_scope d = SINGLETON /\ def_interface d = X.

Lemma run_ops_cached X o ops : forall st,
  cached_singleton X o st ->
  exists st2,
    run_ops X ops st = Some (replicate (length (List.filter is_resolve ops)) (Ok o), st2) /\
    next_id (fst st2) = next_id (fst st) /\
    cached_singleton X o st2.
Proof.
  induction ops as [|op ops IH]; intros st Hinv.
  - exists st. by simpl.
  - destruct Hinv as (Hnin & Hc & d & Hlast & Hscope & Hif).
    destruct op as [|impl name f af kw]; simpl.
    + rewrite (resolve_cached st X None d o Hnin (select_last _ X d Hlast) Hscope Hif Hc).
      destruct (IH (log_call (fst st) (X, false), snd st)) as (st2 & -> & Hid & Hinv2).
      { split; [done|]. split; [done|]. by exists d. }
      by exists st2.
    + pose proof (register_effect st X impl SINGLETON name f af kw) as Hreg.
      simpl in Hreg. destruct Hreg as ([kept Hdefs] & Hs & Hr & Hid).
      destruct (IH (register st X impl SINGLETON name f af kw)) as (st2 & -> & Hid2 & Hinv2).
      { split; [by rewrite Hr|]. split; [by rewrite Hs|].
        eexists. split; [rewrite Hdefs; apply last_snoc|done]. }
      exists st2. split; [done|]. split; [congruence|done].
Qed.

(** [unregister] of a registered interface evicts its cached singleton,
    whatever the name it is called with. *)
Lemma unregister_evicts st X name :
  is_Some (_definitions (snd st) !! X) ->
  _singletons (snd (snd (unregister st X name))) !! X = None.
Proof.
  destruct st as [w c]. intros [l Hl]. unfold unregister. simpl in Hl. rewrite Hl.
  destruct name as [n|]; [destruct (name_given (Some n))|]; simpl;
    by rewrite lookup_delete_eq.
Qed.

(** C3. Let the definition that [resolve(X)] selects have singleton scope,
    and let a first [resolve(X)] return the instance [o].  Then in every
    later sequence of [resolve(X)] calls and re-registrations of [X] with
    singleton scope, each [resolve(X)] returns that same [o] and no object
    is built; and [unregister(X)] evicts [o] from the singleton cache. *)
Theorem singleton_resolved_once st X d o st1 :
  last (definitions_of (fst st) (snd st) X) = Some d ->
  def_scope d = SINGLETON ->
  def_interface d = X ->
  resolve signature ainit st X None = Some (Ok o, st1) ->
  (forall ops, exists st2,
     run_ops X ops st1 = Some (replicate (length (List.filter is_resolve ops)) (Ok o), st2) /\
     next_id (fst st2) = next_id (fst st1)) /\
  (forall name, _singletons (snd (snd (unregister st1 X name))) !! X = None).
Proof.
  intros Hlast Hscope Hif Hres.
  destruct (resolve_unchanged _ _ _ _ _ Hres) as [l Hun].
  pose proof (definitions_of_unchanged st st1 l X Hun) as Hdefs.
  assert (Hinv : cached_singleton X o st1).
  { split.
    - destruct Hun as (_ & _ & -> & _). by eapply resolve_success_not_resolving.
    - split.
      + exact (resolve_singleton_caches st X None d o st1
                 (select_last _ X d Hlast) Hscope Hif Hres).
      + exists d. by rewrite Hdefs. }
  split.
  - intros ops. destruct (run_ops_cached X o ops st1 Hinv) as (st2 & Hrun & Hid & _).
    by exists st2.
  - intros name. apply unregister_evicts.
    destruct Hinv as (_ & _ & d' & Hlast' & _).
    unfold definitions_of in Hlast'.
    destruct (_definitions (snd st1) !! X); [by eexists|done].
Qed.

End ResolveFacts.

(** *** Scenarios *)

Definition empty_state : State := (new_world, new_container).

(** A program whose classes take no constructor argument. *)
Definition no_params : string -> list Param := fun _ => [].

(** A program whose classes have no [__ainit__] method. *)
Definition no_ainit : string -> option AsyncFactory := fun _ => None.

(** Scenario 3 of the specification: [Logger] registered as a singleton. *)
Definition logger_definition : DependencyDefinition :=
  mkDefinition "Logger" (AClass "FileLogger") SINGLETON None None None [].

Definition logger_state : State :=
  register empty_state "Logger" (Some (AClass "FileLogger")) SINGLETON None None None [].

Definition the_logger : Instance := mkInstance 0 "FileLogger".

(** The state after a first [resolve(Logger)]. *)
Definition logger_resolved : State :=
  match resolve no_params no_ainit logger_state "Logger" None with
  | Some (_, st) => st
  | None => logger_state
  end.

Lemma singleton_resolved_once_witness :
  resolve no_params no_ainit logger_state "Logger" None = Some (Ok the_logger, logger_resolved) /\
  exists st2,
    run_ops no_params no_ainit "Logger"
      [OpResolve; OpRegister (Some (AClass "NullLogger")) None None None []; OpResolve]
      logger_resolved
    = Some ([Ok the_logger; Ok the_logger], st2) /\
    next_id (fst st2) = next_id (fst logger_resolved).
Proof.
  split; [vm_compute; reflexivity|].
  apply (singleton_resolved_once no_params no_ainit logger_state "Logger" logger_definition
           the_logger logger_resolved); vm_compute; reflexivity.
Defined.

(** After [unregister(Logger)], registering and resolving again builds a
    second object. *)
Example unregister_then_resolve_builds_anew :
  let st := snd (unregister logger_resolved "Logger" None) in
  let st' := register st "Logger" (Some (AClass "FileLogger")) SINGLETON None None None [] in
  fst <$> resolve no_params no_ainit st' "Logger" None = Some (Ok (mkInstance 1 "FileLogger")).
Proof. vm_compute. reflexivity. Qed.

(** One interface under two names, both singletons. *)
Definition primary_definition : DependencyDefinition :=
  mkDefinition "Store" (AClass "DiskStore") SINGLETON (Some "primary") None None [].

Definition backup_definition : DependencyDefinition :=
  mkDefinition "Store" (AClass "MemoryStore") SINGLETON (Some "backup") None None [].

Definition store_state : State :=
  register
    (register empty_state "Store" (Some (AClass "DiskStore")) SINGLETON (Some "primary")
       None None [])
    "Store" (Some (AClass "MemoryStore")) SINGLETON (Some "backup") None None [].

Definition store_resolved : State :=
  match resolve no_params no_ainit store_state "Store" (Some "primary") with
  | Some (_, st) => st
  | None => store_state
  end.

Lemma singleton_cache_ignores_name_witness :
  resolve no_params no_ainit store_state "Store" (Some "primary")
    = Some (Ok (mkInstance 0 "DiskStore"), store_resolved) /\
  resolve no_params no_ainit store_resolved "Store" (Some "backup")
    = Some (Ok (mkInstance 0 "DiskStore"),
            (log_call (fst store_resolved) ("Store", false), snd store_resolved)).
Proof.
  split; [vm_compute; reflexivity|].
  apply (singleton_cache_ignores_name no_params no_ainit store_state "Store" "primary" "backup"
           primary_definition backup_definition); vm_compute; reflexivity.
Defined.

(** Scenario 4 of the specification: [ServiceA] needs a [ServiceB], which
    needs a [ServiceA], both wired by annotation. *)
Definition cyclic_signature (cls : string) : list Param :=
  if String.eqb cls "ServiceA" then
    [mkParam "self" None false; mkParam "b" (Some "ServiceB") false]
  else if String.eqb cls "ServiceB" then
    [mkParam "self" None false; mkParam "a" (Some "ServiceA") false]
  else [].

Definition cyclic_state : State :=
  register (register empty_state "ServiceA" None SINGLETON None None None [])
    "ServiceB" None SINGLETON None None None [].

Example resolve_cyclic_services :
  exists st',
    resolve cyclic_signature no_ainit cyclic_state "ServiceA" None
      = Some (Err (CircularDependency "ServiceA"), st') /\
    _resolving (snd st') = ∅ /\
    resolve_log (fst st') = [("ServiceA", false); ("ServiceB", false); ("ServiceA", true)].
Proof. eexists. vm_compute. repeat split; reflexivity. Qed.

(** *** Child containers *)

(** [parent.register(Logger, FileLogger)], then
    [child = parent.create_child_container()]. *)
Definition parent_container : Container := snd logger_state.
Definition child_container : Container := create_child_container parent_container.

(** [child.register(Logger, NullLogger)]. *)
Definition after_child_register : State :=
  register (fst logger_state, child_container) "Logger" (Some (AClass "NullLogger"))
    SINGLETON None None None [].

(** C6 fails on the code.  The child starts with the parent's definitions
    and an empty singleton cache, but the copy is shallow: the child's
    dictionary holds the parent's list objects, and an unnamed [register]
    on the child appends to the list the parent reads.  After
    [child.register(Logger, NullLogger)] the parent has two definitions of
    [Logger], and [parent.resolve(Logger)] builds a [NullLogger] where it
    built a [FileLogger] before. *)
Theorem child_register_changes_parent :
  _definitions child_container = _definitions parent_container /\
  _singletons child_container = ∅ /\
  definitions_of (fst logger_state) parent_container "Logger" = [logger_definition] /\
  fst <$> resolve no_params no_ainit logger_state "Logger" None
    = Some (Ok (mkInstance 0 "FileLogger")) /\
  definitions_of (fst after_child_register) parent_container "Logger"
    = [logger_definition;
       mkDefinition "Logger" (AClass "NullLogger") SINGLETON None None None []] /\
  fst <$> resolve no_params no_ainit (fst after_child_register, parent_container) "Logger" None
    = Some (Ok (mkInstance 0 "NullLogger")).
Proof. vm_compute. repeat split; reflexivity. Qed.

(** A named [register] on the child rebinds the child's entry to a new
    list first, and leaves the parent's list alone. *)
Example child_named_register_keeps_parent :
  let st := register (fst logger_state, child_container) "Logger"
              (Some (AClass "NullLogger")) SINGLETON (Some "null") None None [] in
  definitions_of (fst st) parent_container "Logger" = [logger_definition].
Proof. vm_compute. reflexivity. Qed.

(** *** Objects built by a resolution *)

Section ResolveMore.

Variable signature : string -> list Param.
Variable ainit : string -> option AsyncFactory.

(** A [resolve] callback never lowers the count of objects built. *)
Definition callback_grows (resolve_ : State -> Interface -> M Instance) : Prop :=
  forall st j r st', resolve_ st j = Some (r, st') ->
    next_id (fst st) <= next_id (fst st').

Lemma grows_run_body b st r st' :
  run_body b st = (r, st') -> next_id (fst st) <= next_id (fst st').
Proof.
  destruct b as [cls|o|e]; simpl; intros [= <- <-]; simpl; lia.
Qed.

Lemma grows_run_awaits resolve_ interfaces :
  callback_grows resolve_ ->
  forall st r st', run_awaits resolve_ interfaces st = Some (r, st') ->
    next_id (fst st) <= next_id (fst st').
Proof.
  intros Hcb. induction interfaces as [|i rest IH]; intros st r st'; simpl.
  - by intros [= <- <-].
  - destruct (resolve_ st i) as [[[v|e] st1]|] eqn:E; [| |done].
    + intros H. apply Hcb in E. apply IH in H. lia.
    + intros [= <- <-]. by apply Hcb in E.
Qed.

Lemma grows_wire_params resolve_ kwargs params :
  callback_grows resolve_ ->
  forall resolved st r st',
    wire_params resolve_ kwargs params resolved st = Some (r, st') ->
    next_id (fst st) <= next_id (fst st').
Proof.
  intros Hcb. induction params as [|p rest IH]; intros resolved st r st'; simpl.
  - by intros [= <- <-].
  - destruct (String.eqb (param_name p) "self"); [apply IH|].
    destruct (dict_mem (param_name p) kwargs); [apply IH|].
    destruct (annotation p) as [a|]; [|apply IH].
    destruct (resolve_ st a) as [[[v|e] st1]|] eqn:E; [| |done].
    + intros H. apply Hcb in E. apply IH in H. lia.
    + apply Hcb in E. destruct (is_ValueError e); [destruct (has_default p)|].
      * intros H. apply IH in H. lia.
      * by intros [= <- <-].
      * by intros [= <- <-].
Qed.

(** The constructor call and the [__ainit__] step that follows it: the
    object returned is the one the constructor built. *)
Lemma call_ainit_spec resolve_ cls resolved_kwargs st r st' :
  callback_grows resolve_ ->
  call_ainit ainit resolve_ cls (construct signature cls resolved_kwargs st) = Some (r, st') ->
  next_id (fst st) <= next_id (fst st') /\
  forall o, r = Ok o ->
    inst_id o = next_id (fst st) /\ inst_class o = cls /\ next_id (fst st) < next_id (fst st').
Proof.
  intros Hcb. unfold call_ainit, construct.
  destruct (missing_argument _ _).
  { intros [= <- <-]. split; [done|]. intros o [=]. }
  destruct st as [w c]. simpl.
  destruct (ainit cls) as [method|].
  2: { intros [= <- <-]. simpl. split; [lia|]. intros o [= <-]. simpl. repeat split; lia. }
  destruct (run_awaits resolve_ (awaits method) _) as [[[v|e] st1]|] eqn:E; [| |done].
  - apply grows_run_awaits in E; [|done]. simpl in E.
    destruct (run_body (finish method) st1) as [[v'|e'] st2] eqn:Hb;
      apply grows_run_body in Hb; intros [= <- <-].
    + split; [lia|]. intros o [= <-]. simpl. repeat split; lia.
    + split; [lia|]. intros o [=].
  - apply grows_run_awaits in E; [|done]. simpl in E.
    intros [= <- <-]. split; [lia|]. intros o [=].
Qed.

(** Building an instance of a class, with no factory in the way, returns
    an object that did not exist before. *)
Lemma create_class_fresh resolve_ st definition cls o st' :
  callback_grows resolve_ ->
  def_implementation definition = AClass cls ->
  def_factory definition = None ->
  def_async_factory definition = None ->
  _create_instance signature ainit resolve_ st definition = Some (Ok o, st') ->
  next_id (fst st) <= inst_id o /\ inst_id o < next_id (fst st') /\ inst_class o = cls.
Proof.
  intros Hcb Himpl Hf Haf. unfold _create_instance. rewrite Himpl, Hf, Haf.
  destruct (wire_params resolve_ (def_kwargs definition) (signature cls) [] st)
    as [[[resolved|e] st1]|] eqn:E; [| |done]; [|done].
  apply grows_wire_params in E; [|done].
  intros Hrun. apply call_ainit_spec in Hrun as [_ Hrun]; [|done].
  destruct (Hrun o eq_refl) as (Hid & Hcls & Hlt). repeat split; [lia|lia|done].
Qed.

Lemma grows_create_instance resolve_ definition :
  callback_grows resolve_ ->
  forall st r st', _create_instance signature ainit resolve_ st definition = Some (r, st') ->
    next_id (fst st) <= next_id (fst st').
Proof.
  intros Hcb st r st'. unfold _create_instance.
  assert (Hrest :
    match def_async_factory definition with
    | Some af =>
        match run_awaits resolve_ (awaits af) st with
        | None => None
        | Some (Ok _, st') => Some (run_body (finish af) st')
        | Some (Err e, st') => Some (Err e, st')
        end
    | None =>
        match def_factory definition with
        | Some f => Some (run_body f st)
        | None =>
            match def_implementation definition with
            | ACallable f => Some (run_body f st)
            | AClass cls =>
                match wire_params resolve_ (def_kwargs definition) (signature cls) [] st with
                | None => None
                | Some (Ok resolved_kwargs, st') =>
                    call_ainit ainit resolve_ cls (construct signature cls resolved_kwargs st')
                | Some (Err e, st') => Some (Err e, st')
                end
            | AnInstance o => Some (Ok o, st)
            end
        end
    end = Some (r, st') -> next_id (fst st) <= next_id (fst st')).
  { destruct (def_async_factory definition) as [af|].
    - destruct (run_awaits resolve_ (awaits af) st) as [[[v|e] st1]|] eqn:E; [| |done].
      + apply grows_run_awaits in E; [|done].
        intros [= H]. destruct (run_body (finish af) st1) eqn:Hb.
        injection H as <- <-. apply grows_run_body in Hb. lia.
      + apply grows_run_awaits in E; [|done]. by intros [= <- <-].
    - destruct (def_factory definition) as [f|].
      { intros [= H]. by apply grows_run_body in H. }
      destruct (def_implementation definition) as [cls|f|o].
      + destruct (wire_params _ _ _ _ _) as [[[resolved|e] st1]|] eqn:E; [| |done].
        * apply grows_wire_params in E; [|done].
          intros Hrun. apply call_ainit_spec in Hrun as [Hrun _]; [|done]. lia.
        * apply grows_wire_params in E; [|done]. by intros [= <- <-].
      + intros [= H]. by apply grows_run_body in H.
      + by intros [= <- <-]. }
  destruct (def_implementation definition); try exact Hrest.
  by intros [= <- <-].
Qed.

Lemma grows_resolve_body resolve_ interface name :
  callback_grows resolve_ ->
  forall st r st', resolve_body signature ainit resolve_ st interface name = Some (r, st') ->
    next_id (fst st) <= next_id (fst st').
Proof.
  intros Hcb st r st'. unfold resolve_body.
  destruct (select_definition _ interface name) as [d|e]; [|by intros [= <- <-]].
  destruct (def_scope d).
  - unfold _resolve_singleton.
    destruct (_singletons (snd st) !! def_interface d); [by intros [= <- <-]|].
    destruct (_create_instance _ _ _ _) as [[[inst|e] [w1 c1]]|] eqn:E; [| |done].
    + apply grows_create_instance in E; [|done]. by intros [= <- <-].
    + apply grows_create_instance in E; [|done]. by intros [= <- <-].
  - unfold _resolve_request.
    destruct (_request_scope (snd st) !! def_interface d); [by intros [= <- <-]|].
    destruct (_create_instance _ _ _ _) as [[[inst|e] [w1 c1]]|] eqn:E; [| |done].
    + apply grows_create_instance in E; [|done]. by intros [= <- <-].
    + apply grows_create_instance in E; [|done]. by intros [= <- <-].
  - by apply grows_create_instance.
Qed.

Lemma grows_resolve_fuel fuel : forall name,
  callback_grows (fun st i => resolve_fuel signature ainit fuel st i name).
Proof.
  induction fuel as [|fuel IH]; intros name [w c] j r st'; [done|].
  rewrite resolve_fuel_S.
  destruct (bool_decide (j ∈ _resolving c)); [by intros [= <- <-]|].
  destruct (resolve_body _ _ _ _ _) as [[r1 [w2 c2]]|] eqn:E; [|done].
  apply grows_resolve_body in E; [|apply IH]. simpl in E.
  destruct (bool_decide (j ∈ _resolving c2)); by intros [= <- <-].
Qed.

(** The outcome of [resolve] through its [try] block, when its interface
    is not being resolved yet. *)
Lemma resolve_through_body st interface name r st' :
  resolve signature ainit st interface name = Some (r, st') ->
  interface ∉ _resolving (snd st) ->
  exists w2 c2,
    resolve_body signature ainit
      (fun s i => resolve_fuel signature ainit (size (_definitions (snd st))) s i None)
      (log_call (fst st) (interface, false),
       set_resolving (snd st) ({[interface]} ∪ _resolving (snd st))) interface name
    = Some (r, (w2, c2)) /\
    st' = (w2, set_resolving c2 (_resolving c2 ∖ {[interface]})).
Proof.
  destruct st as [w c]. unfold resolve. simpl fst; simpl snd. rewrite resolve_fuel_S.
  intros Hres Hnin. rewrite bool_decide_eq_false_2 in Hres by done.
  destruct (resolve_body _ _ _ _ _) as [[r1 [w2 c2]]|] eqn:E; [|done].
  assert (Hbody : sound (log_call w (interface, false),
                         set_resolving c ({[interface]} ∪ _resolving c))
            (resolve_body signature ainit
               (fun s i => resolve_fuel signature ainit (size (_definitions c)) s i None)
               (log_call w (interface, false),
                set_resolving c ({[interface]} ∪ _resolving c)) interface name)).
  { destruct (_definitions c !! interface) as [l0|] eqn:Hl.
    - eapply sound_resolve_body; [|reflexivity|reflexivity].
      intros s j HD HR. apply sound_resolve_fuel. rewrite HD, HR. simpl.
      assert (Hlt : size (dom (_definitions c) ∖ ({[interface]} ∪ _resolving c))
                    < size (dom (_definitions c) ∖ _resolving c))
        by (apply (fewer_left signature ainit); [by exists l0|done]).
      assert (Hle : size (dom (_definitions c) ∖ _resolving c)
                    <= size (dom (_definitions c)))
        by (apply subseteq_size; set_solver).
      rewrite size_dom in Hle. lia.
    - rewrite resolve_body_unregistered by done. apply sound_ret. }
  destruct Hbody as (r0 & st0 & l & Heq & (_ & _ & Hr & _) & _).
  rewrite E in Heq. injection Heq as <- <-. simpl in Hr.
  rewrite bool_decide_eq_true_2 in Hres by (rewrite Hr; set_solver).
  injection Hres as <- <-. by exists w2, c2.
Qed.

(** Every successful [resolve] through a transient definition whose
    implementation is a class, with no factory, returns an object that
    did not exist before the call; so a later such [resolve] returns a
    different object. *)
Theorem transient_resolve_builds_new st X name d cls o st' :
  select_definition (definitions_of (fst st) (snd st) X) X name = Ok d ->
  def_scope d = TRANSIENT ->
  def_implementation d = AClass cls ->
  def_factory d = None ->
  def_async_factory d = None ->
  resolve signature ainit st X name = Some (Ok o, st') ->
  next_id (fst st) <= inst_id o /\ inst_id o < next_id (fst st') /\ inst_class o = cls /\
  forall o2 st2, resolve signature ainit st' X name = Some (Ok o2, st2) -> inst_id o < inst_id o2.
Proof.
  assert (Hfresh : forall st o st',
            select_definition (definitions_of (fst st) (snd st) X) X name = Ok d ->
            def_scope d = TRANSIENT -> def_implementation d = AClass cls ->
            def_factory d = None -> def_async_factory d = None ->
            resolve signature ainit st X name = Some (Ok o, st') ->
            next_id (fst st) <= inst_id o /\ inst_id o < next_id (fst st') /\
            inst_class o = cls).
  { clear. intros st o st' Hsel Hscope Himpl Hf Haf Hres.
    destruct (resolve_through_body st X name _ _ Hres
                (resolve_success_not_resolving signature ainit _ _ _ _ _ Hres))
      as (w2 & c2 & Hbody & ->).
    unfold resolve_body in Hbody. simpl fst in Hbody; simpl snd in Hbody.
    change (definitions_of (log_call (fst st) (X, false))
              (set_resolving (snd st) ({[X]} ∪ _resolving (snd st))) X)
      with (definitions_of (fst st) (snd st) X) in Hbody.
    rewrite Hsel, Hscope in Hbody. unfold _resolve_transient in Hbody.
    apply create_class_fresh with (cls := cls) in Hbody;
      [exact Hbody|apply grows_resolve_fuel|done|done|done]. }
  intros Hsel Hscope Himpl Hf Haf Hres.
  destruct (Hfresh st o st' Hsel Hscope Himpl Hf Haf Hres) as (H1 & H2 & H3).
  split; [done|]. split; [done|]. split; [done|].
  intros o2 st2 Hres2.
  destruct (resolve_unchanged signature ainit _ _ _ _ _ Hres) as [l Hun].
  destruct (Hfresh st' o2 st2) as (H4 & _); try done; [|lia].
  by rewrite (definitions_of_unchanged st st' l).
Qed.

(** *** Request scope *)

Lemma resolve_request_caches st interface name definition o st1 :
  select_definition (definitions_of (fst st) (snd st) interface) interface name
    = Ok definition ->
  def_scope definition = REQUEST ->
  def_interface definition = interface ->
  resolve signature ainit st interface name = Some (Ok o, st1) ->
  _request_scope (snd st1) !! interface = Some o.
Proof.
  intros Hsel Hscope Hif Hres.
  destruct (resolve_through_body st interface name _ _ Hres
              (resolve_success_not_resolving signature ainit _ _ _ _ _ Hres))
    as (w2 & c2 & Hbody & ->).
  unfold resolve_body in Hbody. simpl fst in Hbody; simpl snd in Hbody.
  change (definitions_of (log_call (fst st) (interface, false))
            (set_resolving (snd st) ({[interface]} ∪ _resolving (snd st))) interface)
    with (definitions_of (fst st) (snd st) interface) in Hbody.
  rewrite Hsel, Hscope in Hbody. unfold _resolve_request in Hbody. rewrite Hif in Hbody.
  simpl in Hbody.
  destruct (_request_scope (snd st) !! interface) as [o'|] eqn:Hc.
  - injection Hbody as <- <- <-. done.
  - destruct (_create_instance _ _ _ _) as [[[inst|e] [w' c']]|]; [| |done]; [|done].
    injection Hbody as <- <- <-. simpl. by rewrite lookup_insert_eq.
Qed.

Lemma resolve_request_cached st interface name definition o :
  interface ∉ _resolving (snd st) ->
  select_definition (definitions_of (fst st) (snd st) interface) interface name
    = Ok definition ->
  def_scope definition = REQUEST ->
  def_interface definition = interface ->
  _request_scope (snd st) !! interface = Some o ->
  resolve signature ainit st interface name
  = Some (Ok o, (log_call (fst st) (interface, false), snd st)).
Proof.
  intros Hnin Hsel Hscope Hif Hc. destruct st as [w c]. unfold resolve.
  simpl fst in *; simpl snd in *.
  rewrite resolve_fuel_S.
  rewrite bool_decide_eq_false_2 by done.
  unfold resolve_body. simpl fst; simpl snd.
  change (definitions_of (log_call w (interface, false))
            (set_resolving c ({[interface]} ∪ _resolving c)) interface)
    with (definitions_of w c interface).
  rewrite Hsel, Hscope. unfold _resolve_request. rewrite Hif. simpl. rewrite Hc.
  rewrite bool_decide_eq_true_2 by set_solver.
  simpl. rewrite (remove_added signature ainit) by done. by destruct c.
Qed.

(** Within a request a request-scoped interface resolves to one instance:
    after a first successful [resolve] every further one returns the same
    instance and builds nothing.  [clear_request_scope] ends that: the next
    [resolve] of a class implementation builds a new object. *)
Theorem request_scope_reuses_until_cleared st X name d cls o st1 :
  select_definition (definitions_of (fst st) (snd st) X) X name = Ok d ->
  def_scope d = REQUEST ->
  def_interface d = X ->
  def_implementation d = AClass cls ->
  def_factory d = None ->
  def_async_factory d = None ->
  resolve signature ainit st X name = Some (Ok o, st1) ->
  resolve signature ainit st1 X name = Some (Ok o, (log_call (fst st1) (X, false), snd st1)) /\
  forall o2 st2,
    resolve signature ainit (clear_request_scope st1) X name = Some (Ok o2, st2) ->
    next_id (fst st1) <= inst_id o2.
Proof.
  intros Hsel Hscope Hif Himpl Hf Haf Hres.
  destruct (resolve_unchanged signature ainit _ _ _ _ _ Hres) as [l Hun].
  pose proof (definitions_of_unchanged st st1 l X Hun) as Hdefs.
  pose proof (resolve_success_not_resolving signature ainit _ _ _ _ _ Hres) as Hnin.
  split.
  - apply (resolve_request_cached st1 X name d o).
    + destruct Hun as (_ & _ & -> & _). done.
    + by rewrite Hdefs.
    + done.
    + done.
    + exact (resolve_request_caches st X name d o st1 Hsel Hscope Hif Hres).
  - intros o2 st2 Hres2.
    destruct (resolve_through_body (clear_request_scope st1) X name _ _ Hres2
                (resolve_success_not_resolving signature ainit _ _ _ _ _ Hres2))
      as (w2 & c2 & Hbody & ->).
    unfold resolve_body in Hbody. simpl fst in Hbody; simpl snd in Hbody.
    match type of Hbody with context [select_definition ?ds X name] =>
      change ds with (definitions_of (fst st1) (snd st1) X) in Hbody end.
    rewrite Hdefs, Hsel, Hscope in Hbody. unfold _resolve_request in Hbody.
    rewrite Hif in Hbody. simpl in Hbody. rewrite lookup_empty in Hbody.
    destruct (_create_instance _ _ _ _) as [[[inst|e] [w' c']]|] eqn:E; [| |done]; [|done].
    injection Hbody as <- <- <-.
    apply create_class_fresh with (cls := cls) in E;
      [|apply grows_resolve_fuel|done|done|done].
    simpl in E. lia.
Qed.

(** *** Registration and lookup *)

(** [has] tells whether [resolve] finds a definition to work with. *)
Lemma has_select st X name :
  has st X name = true <->
  exists d, select_definition (definitions_of (fst st) (snd st) X) X name = Ok d.
Proof.
  unfold has, select_definition.
  destruct (definitions_of (fst st) (snd st) X) as [|d0 ds] eqn:Hd.
  - split; [done|]. by intros [d Hsel].
  - destruct name as [n|]; cbv beta iota.
    + destruct (name_given (Some n)) eqn:Hn.
      * rewrite existsb_exists. split.
        -- intros (d & Hin & Hd'). 
           destruct (List.find _ (d0 :: ds)) as [d1|] eqn:Hf; [by eexists|].
           eapply find_none in Hf; [|exact Hin]. simpl in Hf. congruence.
        -- destruct (List.find _ (d0 :: ds)) as [d1|] eqn:Hf; [|by intros [d Hsel]].
           intros _. apply find_some in Hf. by exists d1.
      * split; [|done]. intros _.
        destruct (last (d0 :: ds)) as [d1|] eqn:Hl; [by eexists|].
        by apply last_None in Hl.
    + split; [|done]. intros _.
      destruct (last (d0 :: ds)) as [d1|] eqn:Hl; [by eexists|].
      by apply last_None in Hl.
Qed.

(** When [has] answers [False], [resolve] raises the "no registration"
    [ValueError] for that interface (and name), builds nothing, and leaves
    caches and in-progress set as they were. *)
Theorem has_false_resolve_raises st X name :
  X ∉ _resolving (snd st) ->
  has st X name = false ->
  exists e,
    resolve signature ainit st X name = Some (Err e, (log_call (fst st) (X, false), snd st)) /\
    (e = NoRegistration X \/ exists n, name = Some n /\ e = NoNamedRegistration X n).
Proof.
  intros Hnin Hhas.
  assert (Hsel : exists e,
            select_definition (definitions_of (fst st) (snd st) X) X name = Err e /\
            (e = NoRegistration X \/ exists n, name = Some n /\ e = NoNamedRegistration X n)).
  { destruct (select_definition (definitions_of (fst st) (snd st) X) X name) as [d|e] eqn:Hs.
    - assert (Ht : has st X name = true) by (apply has_select; by exists d). congruence.
    - exists e. split; [done|]. unfold select_definition in Hs.
      destruct (definitions_of (fst st) (snd st) X) as [|d0 ds]; [left; congruence|].
      destruct name as [n|].
      + destruct (name_given (Some n)).
        * destruct (List.find _ _); [done|]. right. exists n. split; [done|congruence].
        * destruct (last (d0 :: ds)); [done|left; congruence].
      + destruct (last (d0 :: ds)); [done|left; congruence]. }
  destruct Hsel as (e & Hsel & He). exists e. split; [|done].
  destruct st as [w c]. unfold resolve. simpl fst in *; simpl snd in *.
  rewrite resolve_fuel_S, bool_decide_eq_false_2 by done.
  unfold resolve_body. simpl fst; simpl snd.
  change (definitions_of (log_call w (X, false))
            (set_resolving c ({[X]} ∪ _resolving c)) X)
    with (definitions_of w c X).
  rewrite Hsel. rewrite bool_decide_eq_true_2 by set_solver.
  simpl. rewrite (remove_added signature ainit) by done. by destruct c.
Qed.

(** After [register], an unnamed [resolve] selects the definition just
    registered (the last registration wins), and so does a [resolve] by
    the name it was registered under: a named registration replaces the
    earlier definitions of that name. *)
Theorem register_selects_new st X implementation scope name factory async_factory kwargs :
  let st' := register st X implementation scope name factory async_factory kwargs in
  let d := mkDefinition X (default (AClass X) implementation) scope name factory
             async_factory kwargs in
  select_definition (definitions_of (fst st') (snd st') X) X None = Ok d /\
  select_definition (definitions_of (fst st') (snd st') X) X name = Ok d /\
  has st' X name = true.
Proof.
  intros st' d.
  assert (Hdefs : exists kept,
            definitions_of (fst st') (snd st') X = kept ++ [d] /\
            (name_given name = true ->
             forall d0, d0 ∈ kept -> def_name d0 <> name)).
  { subst st' d. destruct st as [w c]. unfold register.
    destruct (_definitions c !! X) as [l0|] eqn:H0;
      (destruct name as [n|]; [destruct (name_given (Some n)) eqn:Hn|]);
      simpl; rewrite ?H0, ?lookup_insert_eq; unfold definitions_of, deref; simpl;
      rewrite ?H0, ?lookup_insert_eq; simpl;
      try (eexists; split; [reflexivity|done]);
      try (exists []; split; [reflexivity|]; intros _ d0 Hd0; by apply elem_of_nil in Hd0).
    eexists. split; [reflexivity|]. intros _ d0 Hd0.
    apply list_elem_of_In, filter_In in Hd0 as [_ Hd0].
    unfold name_differs in Hd0. destruct (def_name d0) as [n0|]; [|done].
    intros [= ->]. by rewrite String.eqb_refl in Hd0. }
  destruct Hdefs as (kept & Hdefs & Hkept).
  assert (Hlast : select_definition (kept ++ [d]) X None = Ok d)
    by (apply select_last, last_snoc).
  assert (Hnamed : select_definition (kept ++ [d]) X name = Ok d).
  { destruct name as [n|]; [|done].
    unfold select_definition. destruct (name_given (Some n)) eqn:Hn.
    - assert (Hfind : List.find (fun d1 => bool_decide (def_name d1 = Some n)) (kept ++ [d])
                      = Some d).
      { specialize (Hkept eq_refl). clear -Hkept.
        induction kept as [|d0 kept IH]; simpl.
        - by rewrite bool_decide_eq_true_2.
        - rewrite bool_decide_eq_false_2 by (apply Hkept; by left).
          apply IH. intros d1 Hd1. apply Hkept. by right. }
      rewrite Hfind. by destruct (kept ++ [d]).
    - rewrite last_snoc. by destruct (kept ++ [d]). }
  rewrite Hdefs. split; [done|]. split; [done|].
  apply has_select. exists d. by rewrite Hdefs.
Qed.

(** [register_instance] makes [resolve] return the given instance as it
    is, whatever was registered or cached for the interface before. *)
Theorem register_instance_resolves st X instance :
  X ∉ _resolving (snd st) ->
  let st' := register_instance st X instance in
  resolve signature ainit st' X None
  = Some (Ok instance, (log_call (fst st') (X, false), snd st')).
Proof.
  intros Hnin st'. subst st'. destruct st as [w c]. unfold register_instance.
  pose proof (register_effect
                (w, set_singletons c (<[X := instance]> (_singletons c))) X
                (Some (AnInstance instance)) SINGLETON None None None [])
    as ([kept Hdefs] & Hs & Hr & _).
  eapply resolve_cached.
  - rewrite Hr. done.
  - rewrite Hdefs. apply select_last, last_snoc.
  - done.
  - done.
  - rewrite Hs. simpl. by rewrite lookup_insert_eq.
Qed.

(** An unnamed [unregister] reports whether the interface had a
    definition, and afterwards [has] answers [False] for it under every
    name. *)
Theorem unregister_then_has st X name :
  fst (unregister st X None) = has st X None /\
  has (snd (unregister st X None)) X name = false.
Proof.
  destruct st as [w c]. unfold unregister, has, definitions_of. simpl.
  destruct (_definitions c !! X) as [l|] eqn:Hl; simpl.
  - rewrite lookup_delete_eq. split; [|done]. by destruct (deref w l).
  - rewrite Hl. done.
Qed.

(** *** Constructor parameters that cannot be resolved *)

(** A constructor parameter for which [_create_instance] calls no
    [resolve]: it is [self], or it is given in the definition's keyword
    arguments, or it has no annotation. *)
Definition needs_no_resolve (kwargs : Dict Value) (q : Param) : Prop :=
  param_name q = "self" \/ dict_mem (param_name q) kwargs = true \/ annotation q = None.

Lemma wire_params_cons resolve_ kwargs param rest resolved_kwargs st :
  wire_params resolve_ kwargs (param :: rest) resolved_kwargs st =
  if String.eqb (param_name param) "self" then
    wire_params resolve_ kwargs rest resolved_kwargs st
  else if dict_mem (param_name param) kwargs then
    wire_params resolve_ kwargs rest (resolved_kwargs ++ [param_name param]) st
  else
    match annotation param with
    | None => wire_params resolve_ kwargs rest resolved_kwargs st
    | Some a =>
        match resolve_ st a with
        | None => None
        | Some (Ok _, st') =>
            wire_params resolve_ kwargs rest (resolved_kwargs ++ [param_name param]) st'
        | Some (Err e, st') =>
            if is_ValueError e then
              if has_default param then
                wire_params resolve_ kwargs rest resolved_kwargs st'
              else Some (Err e, st')
            else Some (Err e, st')
        end
    end.
Proof. reflexivity. Qed.

Lemma wire_params_skips resolve_ kwargs before rest st :
  Forall (needs_no_resolve kwargs) before ->
  forall resolved_kwargs, exists resolved_kwargs',
    wire_params resolve_ kwargs (before ++ rest) resolved_kwargs st
    = wire_params resolve_ kwargs rest resolved_kwargs' st.
Proof.
  induction 1 as [|q before Hq _ IH]; intros acc; [by exists acc|].
  change ((q :: before) ++ rest) with (q :: (before ++ rest)).
  rewrite wire_params_cons.
  destruct (String.eqb (param_name q) "self") eqn:Hself; [apply IH|].
  destruct (dict_mem (param_name q) kwargs) eqn:Hmem; [apply IH|].
  destruct Hq as [Hq|[Hq|Hq]].
  - apply String.eqb_neq in Hself. done.
  - congruence.
  - rewrite Hq. apply IH.
Qed.

(** When the constructor of the class to build has a parameter without
    default whose annotation is not registered (and every parameter before
    it needs no resolution), [resolve] raises the "no registration"
    [ValueError] of that annotation, not of the interface asked for.
    Nothing is built or cached and the in-progress set is restored; the
    only trace is the two [resolve] calls. *)
Theorem missing_required_dependency st X name d cls before p a after :
  X ∉ _resolving (snd st) ->
  select_definition (definitions_of (fst st) (snd st) X) X name = Ok d ->
  def_implementation d = AClass cls ->
  def_factory d = None ->
  def_async_factory d = None ->
  (def_scope d = SINGLETON -> _singletons (snd st) !! def_interface d = None) ->
  (def_scope d = REQUEST -> _request_scope (snd st) !! def_interface d = None) ->
  signature cls = before ++ p :: after ->
  Forall (needs_no_resolve (def_kwargs d)) before ->
  param_name p <> "self" ->
  dict_mem (param_name p) (def_kwargs d) = false ->
  annotation p = Some a ->
  has_default p = false ->
  a <> X ->
  a ∉ _resolving (snd st) ->
  _definitions (snd st) !! a = None ->
  resolve signature ainit st X name
  = Some (Err (NoRegistration a),
          (log_call (log_call (fst st) (X, false)) (a, false), snd st)).
Proof.
  intros Hnin Hsel Himpl Hf Haf Hsing Hreq Hsig Hbefore Hself Hmem Hann Hdef HaX Ha Hunreg.
  destruct st as [w c]. simpl fst in *; simpl snd in *.
  assert (Hsize : exists m, size (_definitions c) = S m).
  { destruct (size (_definitions c)) as [|m] eqn:Hm; [|by exists m].
    apply map_size_empty_inv in Hm. unfold select_definition, definitions_of in Hsel.
    rewrite Hm, lookup_empty in Hsel. done. }
  destruct Hsize as [m Hm].
  assert (Hcreate :
    _create_instance signature ainit
      (fun s i => resolve_fuel signature ainit (size (_definitions c)) s i None)
      (log_call w (X, false), set_resolving c ({[X]} ∪ _resolving c)) d
    = Some (Err (NoRegistration a),
            (log_call (log_call w (X, false)) (a, false),
             set_resolving c ({[X]} ∪ _resolving c)))).
  { unfold _create_instance. rewrite Himpl, Hf, Haf, Hsig.
    destruct (wire_params_skips
                (fun s i => resolve_fuel signature ainit (size (_definitions c)) s i None)
                (def_kwargs d) before (p :: after)
                (log_call w (X, false), set_resolving c ({[X]} ∪ _resolving c))
                Hbefore []) as [acc ->].
    rewrite wire_params_cons.
    apply String.eqb_neq in Hself. rewrite Hself, Hmem, Hann.
    cbv beta. rewrite Hm, resolve_fuel_S.
    rewrite bool_decide_eq_false_2 by (simpl; set_solver).
    rewrite resolve_body_unregistered by done.
    rewrite bool_decide_eq_true_2 by (simpl; set_solver).
    simpl is_ValueError. cbv iota. rewrite Hdef.
    simpl. rewrite (remove_added signature ainit a) by set_solver. done. }
  unfold resolve. simpl snd. rewrite resolve_fuel_S.
  rewrite bool_decide_eq_false_2 by done.
  unfold resolve_body. simpl fst; simpl snd.
  change (definitions_of (log_call w (X, false))
            (set_resolving c ({[X]} ∪ _resolving c)) X)
    with (definitions_of w c X).
  rewrite Hsel.
  assert (Hscope :
    match def_scope d with
    | SINGLETON =>
        _resolve_singleton signature ainit
          (fun s i => resolve_fuel signature ainit (size (_definitions c)) s i None)
          (log_call w (X, false), set_resolving c ({[X]} ∪ _resolving c)) d
    | REQUEST =>
        _resolve_request signature ainit
          (fun s i => resolve_fuel signature ainit (size (_definitions c)) s i None)
          (log_call w (X, false), set_resolving c ({[X]} ∪ _resolving c)) d
    | TRANSIENT =>
        _resolve_transient signature ainit
          (fun s i => resolve_fuel signature ainit (size (_definitions c)) s i None)
          (log_call w (X, false), set_resolving c ({[X]} ∪ _resolving c)) d
    end
    = Some (Err (NoRegistration a),
            (log_call (log_call w (X, false)) (a, false),
             set_resolving c ({[X]} ∪ _resolving c)))).
  { destruct (def_scope d) eqn:Hs.
    - unfold _resolve_singleton. simpl snd. simpl _singletons.
      rewrite (Hsing eq_refl), Hcreate. done.
    - unfold _resolve_request. simpl snd. simpl _request_scope.
      rewrite (Hreq eq_refl), Hcreate. done.
    - unfold _resolve_transient. exact Hcreate. }
  rewrite Hscope.
  rewrite bool_decide_eq_true_2 by (simpl; set_solver).
  simpl. rewrite (remove_added signature ainit X) by done. by destruct c.
Qed.

(** *** Depth of the interpreter's stack *)

(** [callback_le f g]: wherever the [resolve] callback [f] comes back, [g]
    comes back with the same. *)
Definition callback_le (f g : State -> Interface -> M Instance) : Prop :=
  forall st i r, f st i = Some r -> g st i = Some r.

Lemma run_awaits_le f g interfaces :
  callback_le f g ->
  forall st r, run_awaits f interfaces st = Some r -> run_awaits g interfaces st = Some r.
Proof.
  intros Hle. induction interfaces as [|i rest IH]; intros st r; simpl; [done|].
  destruct (f st i) as [[[v|e] st1]|] eqn:E; [| |done]; rewrite (Hle _ _ _ E); [apply IH|done].
Qed.

Lemma wire_params_le f g kwargs params :
  callback_le f g ->
  forall resolved st r,
    wire_params f kwargs params resolved st = Some r ->
    wire_params g kwargs params resolved st = Some r.
Proof.
  intros Hle. induction params as [|p rest IH]; intros resolved st r; simpl; [done|].
  destruct (String.eqb (param_name p) "self"); [apply IH|].
  destruct (dict_mem (param_name p) kwargs); [apply IH|].
  destruct (annotation p) as [a|]; [|apply IH].
  destruct (f st a) as [[[v|e] st1]|] eqn:E; [| |done]; rewrite (Hle _ _ _ E); [apply IH|].
  destruct (is_ValueError e); [|done]. destruct (has_default p); [apply IH|done].
Qed.

Lemma call_ainit_le f g cls built r :
  callback_le f g ->
  call_ainit ainit f cls built = Some r -> call_ainit ainit g cls built = Some r.
Proof.
  intros Hle. unfold call_ainit. destruct built as [[instance|e] st]; [|done].
  destruct (ainit cls) as [method|]; [|done].
  destruct (run_awaits f (awaits method) st) as [r1|] eqn:E; [|done].
  by rewrite (run_awaits_le f g _ Hle _ _ E).
Qed.

Lemma create_instance_le f g st d r :
  callback_le f g ->
  _create_instance signature ainit f st d = Some r ->
  _create_instance signature ainit g st d = Some r.
Proof.
  intros Hle. unfold _create_instance.
  assert (Hrest :
    match def_async_factory d with
    | Some af =>
        match run_awaits f (awaits af) st with
        | None => None
        | Some (Ok _, st') => Some (run_body (finish af) st')
        | Some (Err e, st') => Some (Err e, st')
        end
    | None =>
        match def_factory d with
        | Some b => Some (run_body b st)
        | None =>
            match def_implementation d with
            | ACallable b => Some (run_body b st)
            | AClass cls =>
                match wire_params f (def_kwargs d) (signature cls) [] st with
                | None => None
                | Some (Ok resolved_kwargs, st') =>
                    call_ainit ainit f cls (construct signature cls resolved_kwargs st')
                | Some (Err e, st') => Some (Err e, st')
                end
            | AnInstance o => Some (Ok o, st)
            end
        end
    end = Some r ->
    match def_async_factory d with
    | Some af =>
        match run_awaits g (awaits af) st with
        | None => None
        | Some (Ok _, st') => Some (run_body (finish af) st')
        | Some (Err e, st') => Some (Err e, st')
        end
    | None =>
        match def_factory d with
        | Some b => Some (run_body b st)
        | None =>
            match def_implementation d with
            | ACallable b => Some (run_body b st)
            | AClass cls =>
                match wire_params g (def_kwargs d) (signature cls) [] st with
                | None => None
                | Some (Ok resolved_kwargs, st') =>
                    call_ainit ainit g cls (construct signature cls resolved_kwargs st')
                | Some (Err e, st') => Some (Err e, st')
                end
            | AnInstance o => Some (Ok o, st)
            end
        end
    end = Some r).
  { destruct (def_async_factory d) as [af|].
    - destruct (run_awaits f (awaits af) st) as [r1|] eqn:E; [|done].
      by rewrite (run_awaits_le f g _ Hle _ _ E).
    - destruct (def_factory d); [done|].
      destruct (def_implementation d) as [cls|b|o]; [|done|done].
      destruct (wire_params f (def_kwargs d) (signature cls) [] st) as [r1|] eqn:E; [|done].
      rewrite (wire_params_le f g _ _ Hle _ _ _ E).
      destruct r1 as [[resolved|e] st1]; [|done]. by apply call_ainit_le. }
  destruct (def_implementation d); try exact Hrest. done.
Qed.

Lemma resolve_body_le f g st interface name r :
  callback_le f g ->
  resolve_body signature ainit f st interface name = Some r ->
  resolve_body signature ainit g st interface name = Some r.
Proof.
  intros Hle. unfold resolve_body.
  destruct (select_definition _ interface name) as [d|e]; [|done].
  destruct (def_scope d).
  - unfold _resolve_singleton. destruct (_singletons (snd st) !! def_interface d); [done|].
    destruct (_create_instance signature ainit f st d) as [r1|] eqn:E; [|done].
    by rewrite (create_instance_le f g _ _ _ Hle E).
  - unfold _resolve_request. destruct (_request_scope (snd st) !! def_interface d); [done|].
    destruct (_create_instance signature ainit f st d) as [r1|] eqn:E; [|done].
    by rewrite (create_instance_le f g _ _ _ Hle E).
  - unfold _resolve_transient. by apply create_instance_le.
Qed.

(** A call of [resolve] that comes back with room for [depth] nested calls
    comes back with the same on every deeper stack. *)
Lemma resolve_fuel_mono depth : forall depth' name,
  depth <= depth' ->
  callback_le (fun st i => resolve_fuel signature ainit depth st i name)
              (fun st i => resolve_fuel signature ainit depth' st i name).
Proof.
  induction depth as [|depth IH]; intros depth' name Hle [w c] i r; [done|].
  destruct depth' as [|depth']; [lia|].
  rewrite !resolve_fuel_S.
  destruct (bool_decide (i ∈ _resolving c)); [done|].
  destruct (resolve_body signature ainit _ _ i name) as [r1|] eqn:E; [|done].
  rewrite (resolve_body_le _ (fun s j => resolve_fuel signature ainit depth' s j None)
             _ _ _ _ (IH depth' None ltac:(lia)) E).
  done.
Qed.

(** On a stack with room for more nested calls than there are registered
    interfaces, [resolve] never meets the recursion limit. *)
Lemma resolve_fuel_enough depth st interface name :
  size (_definitions (snd st)) < depth ->
  resolve_fuel signature ainit depth st interface name
  = resolve signature ainit st interface name.
Proof.
  intros Hlt.
  destruct (resolve_returns signature ainit st interface name) as (r & st' & l & Hres & _).
  rewrite Hres.
  apply (resolve_fuel_mono (S (size (_definitions (snd st)))) depth name ltac:(lia)).
  exact Hres.
Qed.

(** *** Cycles *)

(** The cache that the scope of [d] consults holds nothing for its
    interface, so that resolving through [d] builds an instance. *)
Definition uncached (c : Container) (d : DependencyDefinition) : Prop :=
  match def_scope d with
  | SINGLETON => _singletons c !! def_interface d = None
  | REQUEST => _request_scope c !! def_interface d = None
  | TRANSIENT => True
  end.

(** [first_resolves d y]: building an instance for [d] calls [resolve(y)]
    before any other [resolve]: [y] is the annotation of the first
    constructor parameter that is auto-wired, or the first interface an
    asynchronous factory awaits, or, when no parameter is auto-wired and
    the constructor call has all it needs, the first interface that
    [__ainit__] awaits. *)
Inductive first_resolves (d : DependencyDefinition) (y : Interface) : Prop :=
  | first_by_parameter cls before p after :
      def_implementation d = AClass cls ->
      def_factory d = None ->
      def_async_factory d = None ->
      signature cls = before ++ p :: after ->
      Forall (needs_no_resolve (def_kwargs d)) before ->
      param_name p <> "self" ->
      dict_mem (param_name p) (def_kwargs d) = false ->
      annotation p = Some y ->
      first_resolves d y
  | first_by_async_factory af rest :
      (forall o, def_implementation d <> AnInstance o) ->
      def_async_factory d = Some af ->
      awaits af = y :: rest ->
      first_resolves d y
  | first_by_ainit cls method rest :
      def_implementation d = AClass cls ->
      def_factory d = None ->
      def_async_factory d = None ->
      Forall (needs_no_resolve (def_kwargs d)) (signature cls) ->
      (forall p, p ∈ signature cls -> param_name p <> "self" -> has_default p = false ->
         dict_mem (param_name p) (def_kwargs d) = true) ->
      ainit cls = Some method ->
      awaits method = y :: rest ->
      first_resolves d y.

(** [wired w c d path target]: building an instance for [d] first resolves
    the head of [path], whose own definition is not cached and first
    resolves the next interface of [path], and so on to [target]. *)
Fixpoint wired (w : World) (c : Container) (d : DependencyDefinition)
    (path : list Interface) (target : Interface) : Prop :=
  match path with
  | [] => first_resolves d target
  | y :: rest =>
      first_resolves d y /\
      exists dy,
        select_definition (definitions_of w c y) y None = Ok dy /\
        uncached c dy /\ wired w c dy rest target
  end.

Lemma wired_ext w c w' c' d path target :
  lists w' = lists w -> _definitions c' = _definitions c ->
  _singletons c' = _singletons c -> _request_scope c' = _request_scope c ->
  wired w c d path target -> wired w' c' d path target.
Proof.
  intros Hl Hd Hs Hr. revert d. induction path as [|y rest IH]; intros d; simpl; [done|].
  intros (Hfirst & dy & Hsel & Hun & Hw). split; [done|]. exists dy.
  split; [|split; [|by apply IH]].
  - unfold definitions_of, deref in *. by rewrite Hl, Hd.
  - unfold uncached in *. by rewrite Hs, Hr.
Qed.

Lemma select_registered w c y name d :
  select_definition (definitions_of w c y) y name = Ok d -> is_Some (_definitions c !! y).
Proof.
  unfold select_definition, definitions_of.
  destruct (_definitions c !! y); [by eexists|done].
Qed.

Lemma wired_registered w c d path target :
  wired w c d path target -> forall y, y ∈ path -> is_Some (_definitions c !! y).
Proof.
  revert d. induction path as [|x rest IH]; intros d; simpl.
  - intros _ y Hy. by apply elem_of_nil in Hy.
  - intros (_ & dx & Hsel & _ & Hw) y [->|Hy]%elem_of_cons.
    + by eapply select_registered.
    + by eapply IH.
Qed.

Lemma wire_params_all_skipped resolve_ kwargs params st :
  Forall (needs_no_resolve kwargs) params ->
  forall resolved, exists resolved',
    wire_params resolve_ kwargs params resolved st = Some (Ok resolved', st) /\
    (forall x, x ∈ resolved -> x ∈ resolved') /\
    (forall p, p ∈ params -> param_name p <> "self" ->
       dict_mem (param_name p) kwargs = true -> param_name p ∈ resolved').
Proof.
  induction 1 as [|q params Hq _ IH]; intros resolved.
  - exists resolved. split; [done|]. split; [done|]. intros p Hp. by apply elem_of_nil in Hp.
  - rewrite wire_params_cons.
    destruct (String.eqb_spec (param_name q) "self") as [Hself|Hself].
    { destruct (IH resolved) as (r' & -> & Hsub & Hin). exists r'.
      split; [done|]. split; [done|].
      intros p [->|Hp]%elem_of_cons Hns Hmem; [done|by apply Hin]. }
    destruct (dict_mem (param_name q) kwargs) eqn:Hmem.
    { destruct (IH (resolved ++ [param_name q])) as (r' & -> & Hsub & Hin). exists r'.
      split; [done|]. split; [intros x Hx; apply Hsub, elem_of_app; by left|].
      intros p [->|Hp]%elem_of_cons Hns Hm; [|by apply Hin].
      apply Hsub, elem_of_app. right. by left. }
    destruct Hq as [Hq|[Hq|Hq]]; [done|congruence|]. rewrite Hq.
    destruct (IH resolved) as (r' & -> & Hsub & Hin). exists r'.
    split; [done|]. split; [done|].
    intros p [->|Hp]%elem_of_cons Hns Hm; [congruence|by apply Hin].
Qed.

Lemma find_all_false {A} (f : A -> bool) (l : list A) :
  (forall x, x ∈ l -> f x = false) -> List.find f l = None.
Proof.
  induction l as [|x l IH]; intros Hall; simpl; [done|].
  rewrite (Hall x) by (by left). apply IH. intros y Hy. apply Hall. by right.
Qed.

(** Up to its first [resolve] call, building an instance changes nothing
    but the count of objects built; an exception of that call other than
    a [ValueError] ends the building. *)
Lemma create_instance_first_call resolve_ st d y :
  first_resolves d y ->
  exists w1,
    lists w1 = lists (fst st) /\ resolve_log w1 = resolve_log (fst st) /\
    forall e st2,
      resolve_ (w1, snd st) y = Some (Err e, st2) -> is_ValueError e = false ->
      _create_instance signature ainit resolve_ st d = Some (Err e, st2).
Proof.
  intros [cls before p after Himpl Hf Haf Hsig Hbefore Hself Hmem Hann
         |af rest Himpl Haf Haw
         |cls method rest Himpl Hf Haf Hall Hgiven Hainit Haw].
  - exists (fst st). split; [done|]. split; [done|]. intros e st2 Hcall He.
    unfold _create_instance. rewrite Himpl, Hf, Haf, Hsig.
    destruct (wire_params_skips resolve_ (def_kwargs d) before (p :: after) st Hbefore [])
      as [acc ->].
    rewrite wire_params_cons. apply String.eqb_neq in Hself.
    rewrite Hself, Hmem, Hann. destruct st as [w c]. simpl in Hcall. rewrite Hcall, He. done.
  - exists (fst st). split; [done|]. split; [done|]. intros e st2 Hcall He.
    unfold _create_instance. rewrite Haf, Haw. simpl run_awaits.
    destruct st as [w c]. simpl in Hcall. rewrite Hcall.
    destruct (def_implementation d) as [cls|f|o]; [done|done|by destruct (Himpl o)].
  - destruct (wire_params_all_skipped resolve_ (def_kwargs d) (signature cls) st Hall [])
      as (resolved & Hwire & _ & Hin).
    assert (Hmiss : missing_argument (signature cls) resolved = None).
    { unfold missing_argument. rewrite find_all_false; [done|].
      intros q Hq. destruct (String.eqb_spec (param_name q) "self") as [|Hns]; [done|].
      destruct (has_default q) eqn:Hdef; [done|]. simpl.
      rewrite bool_decide_eq_true_2; [done|]. apply Hin; [done|done|by apply Hgiven]. }
    exists (snd (new_instance (fst st) cls)). split; [done|]. split; [done|].
    intros e st2 Hcall He.
    unfold _create_instance. rewrite Himpl, Hf, Haf, Hwire.
    unfold call_ainit, construct. rewrite Hmiss.
    destruct st as [w c]. simpl in *. rewrite Hainit, Haw. simpl run_awaits.
    rewrite Hcall. done.
Qed.

Lemma wired_raises path : forall fuel w c x name d target,
  S (length path) < fuel ->
  NoDup (x :: path) ->
  (forall y, y ∈ x :: path -> y ∉ _resolving c) ->
  target = x \/ target ∈ _resolving c ->
  select_definition (definitions_of w c x) x name = Ok d ->
  uncached c d ->
  wired w c d path target ->
  exists w',
    resolve_fuel signature ainit fuel (w, c) x name
      = Some (Err (CircularDependency target), (w', c)) /\
    lists w' = lists w /\
    resolve_log w' =
      resolve_log w ++ map (fun y => (y, false)) (x :: path) ++ [(target, true)].
Proof.
  induction path as [|y rest IH];
    intros fuel w c x name d target Hfuel Hnd Hfree Htarget Hsel Hun Hwired.
  all: destruct fuel as [|fuel]; [lia|].
  all: rewrite resolve_fuel_S.
  all: rewrite bool_decide_eq_false_2 by (apply Hfree; by left).
  all: unfold resolve_body; simpl fst; simpl snd.
  all: change (definitions_of (log_call w (x, false))
                 (set_resolving c ({[x]} ∪ _resolving c)) x)
         with (definitions_of w c x).
  all: rewrite Hsel.
  all: assert (Hx : x ∉ _resolving c) by (apply Hfree; by left).
  all: assert (Hscope : forall e w2,
         _create_instance signature ainit
           (fun s i => resolve_fuel signature ainit fuel s i None)
           (log_call w (x, false), set_resolving c ({[x]} ∪ _resolving c)) d
         = Some (Err e, (w2, set_resolving c ({[x]} ∪ _resolving c))) ->
         match
           match def_scope d with
           | SINGLETON =>
               _resolve_singleton signature ainit
                 (fun s i => resolve_fuel signature ainit fuel s i None)
                 (log_call w (x, false), set_resolving c ({[x]} ∪ _resolving c)) d
           | REQUEST =>
               _resolve_request signature ainit
                 (fun s i => resolve_fuel signature ainit fuel s i None)
                 (log_call w (x, false), set_resolving c ({[x]} ∪ _resolving c)) d
           | TRANSIENT =>
               _resolve_transient signature ainit
                 (fun s i => resolve_fuel signature ainit fuel s i None)
                 (log_call w (x, false), set_resolving c ({[x]} ∪ _resolving c)) d
           end
         with
         | None => None
         | Some (r, (w2, c2)) =>
             if bool_decide (x ∈ _resolving c2) then
               Some (r, (w2, set_resolving c2 (_resolving c2 ∖ {[x]})))
             else Some (Err (KeyError x), (w2, c2))
         end = Some (Err e, (w2, c))).
  1,3: intros e w2 Hcreate; unfold uncached in Hun;
       destruct (def_scope d);
       unfold _resolve_singleton, _resolve_request, _resolve_transient;
       simpl snd; simpl _singletons; simpl _request_scope;
       rewrite ?Hun, Hcreate; simpl;
       rewrite bool_decide_eq_true_2 by set_solver;
       rewrite (remove_added signature ainit x) by done; by destruct c.
  - (* the definition of [x] first resolves the target itself *)
    simpl in Hwired.
    destruct (create_instance_first_call
                (fun s i => resolve_fuel signature ainit fuel s i None)
                (log_call w (x, false), set_resolving c ({[x]} ∪ _resolving c)) d target
                Hwired) as (w1 & Hl1 & Hlog1 & Hcall).
    destruct fuel as [|fuel]; [simpl in Hfuel; lia|].
    specialize (Hcall (CircularDependency target)
                  (log_call w1 (target, true), set_resolving c ({[x]} ∪ _resolving c))).
    rewrite resolve_fuel_S in Hcall. simpl snd in Hcall.
    rewrite bool_decide_eq_true_2 in Hcall by (simpl; set_solver).
    specialize (Hcall eq_refl eq_refl).
    exists (log_call w1 (target, true)). split; [by apply Hscope|].
    split; [done|]. simpl. rewrite Hlog1. simpl. by rewrite <- app_assoc.
  - (* the definition of [x] first resolves [y], the next of the path *)
    destruct Hwired as (Hfirst & dy & Hsely & Huny & Hw).
    destruct (create_instance_first_call
                (fun s i => resolve_fuel signature ainit fuel s i None)
                (log_call w (x, false), set_resolving c ({[x]} ∪ _resolving c)) d y
                Hfirst) as (w1 & Hl1 & Hlog1 & Hcall).
    apply NoDup_cons in Hnd as [Hxnot Hnd].
    destruct (IH fuel w1 (set_resolving c ({[x]} ∪ _resolving c)) y None dy target)
      as (w2 & Hres & Hl2 & Hlog2).
    + simpl in Hfuel. lia.
    + done.
    + intros z Hz. simpl. intros [Hzx|Hzr]%elem_of_union.
      * apply elem_of_singleton in Hzx. by subst z.
      * revert Hzr. apply Hfree. by right.
    + right. simpl. destruct Htarget as [->|Ht]; set_solver.
    + unfold definitions_of, deref in *. simpl. by rewrite Hl1.
    + done.
    + apply (wired_ext w c w1 _ dy rest target); [by rewrite Hl1|done|done|done|exact Hw].
    + specialize (Hcall (CircularDependency target)
                    (w2, set_resolving c ({[x]} ∪ _resolving c)) Hres eq_refl).
      exists w2. split; [by apply Hscope|]. split; [by rewrite Hl2, Hl1|].
      rewrite Hlog2, Hlog1. simpl. by rewrite <- app_assoc.
Qed.


End ResolveMore.


(** A class whose [__ainit__] resolves its own interface: the instance is
    built, [__ainit__] finds the interface in progress, and nothing is
    cached. *)
Definition worker_ainit (cls : string) : option AsyncFactory :=
  if String.eqb cls "Worker"
  then Some (mkAsyncFactory ["Worker"] (Returns (mkInstance 0 "Worker")))
  else None.

Example resolve_cycle_through_ainit :
  let st := register empty_state "Worker" None SINGLETON None None None [] in
  exists st',
    resolve no_params worker_ainit st "Worker" None
      = Some (Err (CircularDependency "Worker"), st') /\
    snd st' = snd st /\ next_id (fst st') = 1 /\
    resolve_log (fst st') = [("Worker", false); ("Worker", true)].
Proof. eexists. vm_compute. repeat split; reflexivity. Qed.

(** C3 fails on the code for these re-registrations: re-registering
    [Logger] with another scope, or through [register_instance], changes
    what [resolve] returns although [Logger] was resolved as a singleton
    before and never unregistered: the transient registration builds a
    second object, and the registered instance replaces the cached one. *)
Lemma reregistration_replaces_singleton :
  resolve no_params no_ainit logger_state "Logger" None
    = Some (Ok the_logger, logger_resolved) /\
  fst <$> resolve no_params no_ainit
            (register logger_resolved "Logger" (Some (AClass "NullLogger")) TRANSIENT
               None None None [])
            "Logger" None
    = Some (Ok (mkInstance 1 "NullLogger")) /\
  fst <$> resolve no_params no_ainit
            (register_instance logger_resolved "Logger" (mkInstance 7 "SyslogLogger"))
            "Logger" None
    = Some (Ok (mkInstance 7 "SyslogLogger")).
Proof. vm_compute. repeat split; reflexivity. Qed.

(** A transient and a request-scoped registration. *)
Definition session_definition : DependencyDefinition :=
  mkDefinition "Session" (AClass "DbSession") TRANSIENT None None None [].

Definition session_state : State :=
  register empty_state "Session" (Some (AClass "DbSession")) TRANSIENT None None None [].

Definition session_resolved : State :=
  match resolve no_params no_ainit session_state "Session" None with
  | Some (_, st) => st
  | None => session_state
  end.

Lemma transient_resolve_builds_new_witness :
  resolve no_params no_ainit session_state "Session" None
  = Some (Ok (mkInstance 0 "DbSession"), session_resolved) /\
  forall o2 st2,
    resolve no_params no_ainit session_resolved "Session" None = Some (Ok o2, st2) -> 0 < inst_id o2.
Proof.
  assert (Hsel : select_definition
                   (definitions_of (fst session_state) (snd session_state) "Session")
                   "Session" None = Ok session_definition) by (vm_compute; reflexivity).
  assert (Hres : resolve no_params no_ainit session_state "Session" None
                 = Some (Ok (mkInstance 0 "DbSession"), session_resolved))
    by (vm_compute; reflexivity).
  split; [exact Hres|].
  exact (proj2 (proj2 (proj2
           (transient_resolve_builds_new no_params no_ainit session_state "Session" None
              session_definition "DbSession" _ _ Hsel eq_refl eq_refl eq_refl eq_refl Hres)))).
Defined.

Definition context_definition : DependencyDefinition :=
  mkDefinition "Context" (AClass "RequestContext") REQUEST None None None [].

Definition context_state : State :=
  register empty_state "Context" (Some (AClass "RequestContext")) REQUEST None None None [].

Definition context_resolved : State :=
  match resolve no_params no_ainit context_state "Context" None with
  | Some (_, st) => st
  | None => context_state
  end.

Lemma request_scope_reuses_until_cleared_witness :
  resolve no_params no_ainit context_state "Context" None
  = Some (Ok (mkInstance 0 "RequestContext"), context_resolved) /\
  resolve no_params no_ainit context_resolved "Context" None
  = Some (Ok (mkInstance 0 "RequestContext"),
          (log_call (fst context_resolved) ("Context", false), snd context_resolved)) /\
  forall o2 st2,
    resolve no_params no_ainit (clear_request_scope context_resolved) "Context" None
    = Some (Ok o2, st2) ->
    next_id (fst context_resolved) <= inst_id o2.
Proof.
  assert (Hsel : select_definition
                   (definitions_of (fst context_state) (snd context_state) "Context")
                   "Context" None = Ok context_definition) by (vm_compute; reflexivity).
  assert (Hres : resolve no_params no_ainit context_state "Context" None
                 = Some (Ok (mkInstance 0 "RequestContext"), context_resolved))
    by (vm_compute; reflexivity).
  split; [exact Hres|].
  exact (request_scope_reuses_until_cleared no_params no_ainit context_state "Context" None
           context_definition "RequestContext" _ _ Hsel eq_refl eq_refl eq_refl eq_refl
           eq_refl Hres).
Defined.

Lemma has_false_resolve_raises_witness :
  has store_state "Store" (Some "tertiary") = false /\
  exists e,
    resolve no_params no_ainit store_state "Store" (Some "tertiary")
    = Some (Err e, (log_call (fst store_state) ("Store", false), snd store_state)) /\
    (e = NoRegistration "Store" \/
     exists n, Some "tertiary" = Some n /\ e = NoNamedRegistration "Store" n).
Proof.
  split; [vm_compute; reflexivity|].
  apply (has_false_resolve_raises no_params no_ainit store_state "Store" (Some "tertiary")).
  - vm_compute. discriminate.
  - vm_compute. reflexivity.
Defined.

Lemma register_instance_resolves_witness :
  resolve no_params no_ainit (register_instance logger_state "Logger" (mkInstance 7 "SyslogLogger"))
    "Logger" None
  = Some (Ok (mkInstance 7 "SyslogLogger"),
          (log_call (fst (register_instance logger_state "Logger" (mkInstance 7 "SyslogLogger")))
             ("Logger", false),
           snd (register_instance logger_state "Logger" (mkInstance 7 "SyslogLogger")))).
Proof.
  apply (register_instance_resolves no_params no_ainit logger_state "Logger"
           (mkInstance 7 "SyslogLogger")).
  vm_compute. discriminate.
Defined.

Definition service_params (cls : string) : list Param :=
  if String.eqb cls "ReportService"
  then [mkParam "self" None false; mkParam "db" (Some "Database") false]
  else [].

Definition service_state : State :=
  register empty_state "ReportService" None SINGLETON None None None [].

Lemma missing_required_dependency_witness :
  resolve service_params no_ainit service_state "ReportService" None
  = Some (Err (NoRegistration "Database"),
          (log_call (log_call (fst service_state) ("ReportService", false))
             ("Database", false),
           snd service_state)).
Proof.
  apply (missing_required_dependency service_params no_ainit service_state "ReportService" None
           (mkDefinition "ReportService" (AClass "ReportService") SINGLETON None None None [])
           "ReportService" [mkParam "self" None false]
           (mkParam "db" (Some "Database") false) "Database" []).
  - vm_compute. discriminate.
  - vm_compute. reflexivity.
  - reflexivity.
  - reflexivity.
  - reflexivity.
  - intros _. vm_compute. reflexivity.
  - intros _. vm_compute. reflexivity.
  - reflexivity.
  - constructor; [by left|constructor].
  - discriminate.
  - reflexivity.
  - reflexivity.
  - reflexivity.
  - discriminate.
  - vm_compute. discriminate.
  - vm_compute. reflexivity.
Defined.

(** *** Child containers *)

(** The shape every heap built by [register] has: the list objects of a
    container exist already, and no two interfaces share one. *)
Definition heap_ok (w : World) (c : Container) : Prop :=
  (forall X l, _definitions c !! X = Some l -> l < next_loc w) /\
  (forall X Y l, _definitions c !! X = Some l -> _definitions c !! Y = Some l -> X = Y).

Lemma heap_ok_new : heap_ok new_world new_container.
Proof. split; intros *; simpl; by rewrite lookup_empty. Qed.

Lemma heap_ok_register st X implementation scope name factory async_factory kwargs :
  heap_ok (fst st) (snd st) ->
  let st' := register st X implementation scope name factory async_factory kwargs in
  heap_ok (fst st') (snd st').
Proof.
  destruct st as [w c]. intros [Hlt Hinj]. simpl in Hlt, Hinj. unfold register, heap_ok.
  destruct (_definitions c !! X) as [l0|] eqn:H0;
    (destruct name as [n|]; [destruct (name_given (Some n))|]);
    simpl; rewrite ?H0, ?lookup_insert_eq; simpl;
    (split; [intros Y l|intros Y Z l]);
    rewrite ?lookup_insert; repeat case_decide; subst;
    try (intros; simplify_eq; done);
    try (intros HY; try apply Hlt in HY; simplify_eq; lia);
    try (intros HY HZ; try apply Hlt in HY; try apply Hlt in HZ; simplify_eq; lia);
    try (intros HY HZ; by eapply Hinj).
Qed.

(** What [register] does to the list objects that existed before. *)
Lemma register_lists st X implementation scope name factory async_factory kwargs :
  let st' := register st X implementation scope name factory async_factory kwargs in
  let d := mkDefinition X (default (AClass X) implementation) scope name factory
             async_factory kwargs in
  match _definitions (snd st) !! X with
  | Some l0 =>
      if name_given name
      then forall l, l < next_loc (fst st) -> lists (fst st') !! l = lists (fst st) !! l
      else lists (fst st') = <[l0 := deref (fst st) l0 ++ [d]]> (lists (fst st))
  | None => forall l, l < next_loc (fst st) -> lists (fst st') !! l = lists (fst st) !! l
  end.
Proof.
  destruct st as [w c]. unfold register. simpl fst; simpl snd.
  destruct (_definitions c !! X) as [l0|] eqn:H0;
    (destruct name as [n|]; [destruct (name_given (Some n)) eqn:Hn|]);
    simpl; rewrite ?H0, ?lookup_insert_eq; simpl; rewrite ?Hn; try done;
    intros l Hl; rewrite ?lookup_insert_ne by lia; done.
Qed.

(** What the parent sees after [register] on a child container.  The
    definitions of the other interfaces are as before.  Those of the
    registered interface are as before when the registration is named (the
    child then rebinds its entry to a new list) or the parent has none;
    an unnamed registration of an interface the parent has registered
    appends the new definition to the parent's list. *)
Theorem child_register_seen_by_parent w parent X implementation scope name factory
    async_factory kwargs :
  heap_ok w parent ->
  let st' := register (w, create_child_container parent) X implementation scope name
               factory async_factory kwargs in
  let d := mkDefinition X (default (AClass X) implementation) scope name factory
             async_factory kwargs in
  (forall Y, Y <> X -> definitions_of (fst st') parent Y = definitions_of w parent Y) /\
  definitions_of (fst st') parent X =
    (if name_given name then definitions_of w parent X
     else match _definitions parent !! X with
          | Some _ => definitions_of w parent X ++ [d]
          | None => []
          end).
Proof.
  intros [Hlt Hinj] st' d.
  pose proof (register_lists (w, create_child_container parent) X implementation scope
                name factory async_factory kwargs) as Hl.
  fold st' in Hl. simpl fst in Hl; simpl snd in Hl.
  change (_definitions (create_child_container parent)) with (_definitions parent) in Hl.
  unfold definitions_of, deref.
  destruct (_definitions parent !! X) as [l0|] eqn:H0.
  - destruct (name_given name).
    + split; [intros Y _|]; [destruct (_definitions parent !! Y) as [ly|] eqn:HY; [|done]|];
        rewrite Hl; eauto.
    + rewrite Hl. split.
      * intros Y HYX. destruct (_definitions parent !! Y) as [ly|] eqn:HY; [|done].
        rewrite lookup_insert_ne; [done|]. intros ->. apply HYX. by eapply Hinj.
      * by rewrite lookup_insert_eq.
  - split; [|by destruct (name_given name)].
    intros Y _. destruct (_definitions parent !! Y) as [ly|] eqn:HY; [|done].
    rewrite Hl; eauto.
Qed.

Lemma child_register_seen_by_parent_witness :
  let st' := register (fst logger_state, create_child_container (snd logger_state))
               "Logger" (Some (AClass "NullLogger")) SINGLETON (Some "null") None None [] in
  (forall Y, Y <> "Logger" ->
     definitions_of (fst st') (snd logger_state) Y
     = definitions_of (fst logger_state) (snd logger_state) Y) /\
  definitions_of (fst st') (snd logger_state) "Logger"
  = definitions_of (fst logger_state) (snd logger_state) "Logger".
Proof.
  apply (child_register_seen_by_parent (fst logger_state) (snd logger_state) "Logger"
           (Some (AClass "NullLogger")) SINGLETON (Some "null") None None []).
  apply (heap_ok_register empty_state "Logger" (Some (AClass "FileLogger")) SINGLETON
           None None None []).
  exact heap_ok_new.
Defined.


(** *** A cycle deeper than the stack *)

(** [container.register(cls)]: a class registered under itself, as a
    singleton. *)
Definition register_class (st : State) (cls : string) : State :=
  register st cls None SINGLETON None None None [].

Definition class_definition (cls : string) : DependencyDefinition :=
  mkDefinition cls (AClass cls) SINGLETON None None None [].

(** The classes [s0], [s1], ..., [sn], the constructor of each taking an
    instance of the next and that of [sn] an instance of [s0]: a cycle of
    [n + 1] interfaces. *)
Definition ring_name (i : nat) : string := String.append "s" (pretty i).
Arguments ring_name : simpl never.

Definition ring_next (n i : nat) : nat := if Nat.eqb i n then 0 else S i.

Definition ring_params (n i : nat) : list Param :=
  [mkParam "self" None false; mkParam "next" (Some (ring_name (ring_next n i))) false].

Definition ring_signature (n : nat) (cls : string) : list Param :=
  default [] (dict_get cls (map (fun i => (ring_name i, ring_params n i)) (seq 0 (S n)))).

Definition ring_state (n : nat) : State :=
  fold_left register_class (map ring_name (seq 0 (S n))) empty_state.

Lemma ring_name_inj i j : ring_name i = ring_name j -> i = j.
Proof.
  unfold ring_name. intros H. cbv [String.append] in H.
  injection H as H. by apply (inj pretty) in H.
Qed.

Lemma ring_get {A} (f : nat -> A) i len : forall start,
  start <= i < start + len ->
  dict_get (ring_name i) (map (fun j => (ring_name j, f j)) (seq start len)) = Some (f i).
Proof.
  induction len as [|len IH]; intros start Hi; [lia|].
  change (seq start (S len)) with (start :: seq (S start) len).
  rewrite map_cons.
  change (dict_get (ring_name i) ((ring_name start, f start) :: ?d))
    with (if String.eqb (ring_name i) (ring_name start) then Some (f start)
          else dict_get (ring_name i) d).
  destruct (String.eqb_spec (ring_name i) (ring_name start)) as [Heq|Hne].
  - apply ring_name_inj in Heq. by subst start.
  - apply IH. assert (i <> start) by (by intros ->). lia.
Qed.

Lemma ring_signature_at n i : i <= n -> ring_signature n (ring_name i) = ring_params n i.
Proof. intros Hi. unfold ring_signature. rewrite ring_get by lia. done. Qed.

(** Registering a class that is not registered yet. *)
Lemma register_class_new w c (cls : Interface) :
  heap_ok w c ->
  _definitions c !! cls = None ->
  let st' := register_class (w, c) cls in
  heap_ok (fst st') (snd st') /\
  definitions_of (fst st') (snd st') cls = [class_definition cls] /\
  (forall y : Interface, y <> cls ->
     definitions_of (fst st') (snd st') y = definitions_of w c y /\
     _definitions (snd st') !! y = _definitions c !! y) /\
  _singletons (snd st') = _singletons c /\
  _request_scope (snd st') = _request_scope c /\
  _resolving (snd st') = _resolving c.
Proof.
  intros Hok Hnew. split.
  { apply (heap_ok_register (w, c) cls None SINGLETON None None None []). exact Hok. }
  destruct Hok as [Hlt _].
  unfold register_class, register. cbv beta iota zeta. rewrite Hnew. simpl.
  rewrite lookup_insert_eq. unfold definitions_of, deref. simpl.
  rewrite !lookup_insert_eq. simpl.
  split; [done|]. split; [|done].
  intros y Hy. rewrite lookup_insert_ne by done. split; [|done].
  destruct (_definitions c !! y) as [l|] eqn:Hl; [|done].
  apply Hlt in Hl. rewrite !lookup_insert_ne by lia. done.
Qed.

Lemma register_classes (classes : list Interface) : forall st,
  heap_ok (fst st) (snd st) ->
  NoDup classes ->
  (forall x, x ∈ classes -> _definitions (snd st) !! x = None) ->
  let st' := fold_left register_class classes st in
  heap_ok (fst st') (snd st') /\
  (forall x, x ∈ classes ->
     definitions_of (fst st') (snd st') x = [class_definition x]) /\
  (forall y : Interface, y ∉ classes ->
     definitions_of (fst st') (snd st') y = definitions_of (fst st) (snd st) y /\
     _definitions (snd st') !! y = _definitions (snd st) !! y) /\
  _singletons (snd st') = _singletons (snd st) /\
  _request_scope (snd st') = _request_scope (snd st) /\
  _resolving (snd st') = _resolving (snd st).
Proof.
  induction classes as [|cls rest IH]; intros [w c] Hok Hnd Hnew.
  - simpl. split; [done|]. split; [|done]. intros x Hx. by apply elem_of_nil in Hx.
  - apply NoDup_cons in Hnd as [Hcls Hnd].
    destruct (register_class_new w c cls Hok (Hnew cls ltac:(by left)))
      as (Hok1 & Hdef1 & Hother1 & Hs1 & Hq1 & Hr1).
    destruct (IH (register_class (w, c) cls) Hok1 Hnd) as (Hok2 & Hin2 & Hout2 & Hs2 & Hq2 & Hr2).
    { intros x Hx. destruct (Hother1 x) as [_ ->]; [by intros ->|]. apply Hnew. by right. }
    change (fold_left register_class (cls :: rest) (w, c))
      with (fold_left register_class rest (register_class (w, c) cls)).
    cbv zeta in *. split; [done|]. split; [|split].
    + intros x [->|Hx]%elem_of_cons; [|by apply Hin2].
      destruct (Hout2 cls Hcls) as [-> _]. exact Hdef1.
    + intros y Hy. apply not_elem_of_cons in Hy as [Hne Hy].
      destruct (Hout2 y Hy) as [-> ->]. by apply Hother1.
    + simpl snd in *. rewrite Hs2, Hq2, Hr2, Hs1, Hq1, Hr1. done.
Qed.

(** What [ring_state] holds. *)
Lemma ring_state_spec n :
  (forall i, i <= n ->
     definitions_of (fst (ring_state n)) (snd (ring_state n)) (ring_name i)
     = [class_definition (ring_name i)]) /\
  _singletons (snd (ring_state n)) = ∅ /\
  _resolving (snd (ring_state n)) = ∅.
Proof.
  destruct (register_classes (map ring_name (seq 0 (S n))) empty_state)
    as (_ & Hin & _ & Hs & _ & Hr).
  - exact heap_ok_new.
  - assert (Hinj : Inj eq eq ring_name) by (intros i j; apply ring_name_inj).
    apply NoDup_fmap_2; [exact Hinj|apply NoDup_seq].
  - intros x _. apply lookup_empty.
  - split; [|split; [exact Hs|exact Hr]].
    intros i Hi. apply Hin. apply list_elem_of_fmap. exists i. split; [done|].
    apply elem_of_seq. lia.
Qed.

(** With room for no more nested calls than the ring has classes, the
    calls [resolve(s0)], [resolve(s1)], ... use it up before any of them
    finds its interface in progress. *)
Lemma ring_overflow n fuel : forall k w c,
  k + fuel <= S n ->
  (forall i, i <= n -> definitions_of w c (ring_name i) = [class_definition (ring_name i)]) ->
  _singletons c = ∅ ->
  (forall j, k <= j -> ring_name j ∉ _resolving c) ->
  resolve_fuel (ring_signature n) no_ainit fuel (w, c) (ring_name k) None = None.
Proof.
  induction fuel as [|fuel IH]; intros k w c Hk Hdefs Hsing Hfree; [done|].
  rewrite resolve_fuel_S.
  rewrite bool_decide_eq_false_2 by (apply Hfree; lia).
  unfold resolve_body. simpl fst; simpl snd.
  change (definitions_of (log_call w (ring_name k, false))
            (set_resolving c ({[ring_name k]} ∪ _resolving c)) (ring_name k))
    with (definitions_of w c (ring_name k)).
  rewrite Hdefs by lia.
  change (select_definition [class_definition (ring_name k)] (ring_name k) None)
    with (Ok (E := Exn) (class_definition (ring_name k))).
  cbv beta iota. change (def_scope (class_definition (ring_name k))) with SINGLETON.
  cbv beta iota. unfold _resolve_singleton.
  change (_singletons (snd (log_call w (ring_name k, false),
                            set_resolving c ({[ring_name k]} ∪ _resolving c))))
    with (_singletons c).
  change (def_interface (class_definition (ring_name k))) with (ring_name k).
  rewrite Hsing, lookup_empty.
  unfold _create_instance.
  change (def_implementation (class_definition (ring_name k))) with (AClass (ring_name k)).
  change (def_async_factory (class_definition (ring_name k))) with (@None AsyncFactory).
  change (def_factory (class_definition (ring_name k))) with (@None Body).
  change (def_kwargs (class_definition (ring_name k))) with (@nil (string * Value)).
  cbv beta iota.
  rewrite ring_signature_at by lia. unfold ring_params.
  rewrite !wire_params_cons.
  change (String.eqb (param_name (mkParam "self" None false)) "self") with true.
  cbv beta iota.
  change (String.eqb (param_name (mkParam "next" (Some (ring_name (ring_next n k))) false))
            "self") with false.
  cbv beta iota.
  change (dict_mem (param_name (mkParam "next" (Some (ring_name (ring_next n k))) false)) [])
    with false.
  cbv beta iota.
  change (annotation (mkParam "next" (Some (ring_name (ring_next n k))) false))
    with (Some (ring_name (ring_next n k))).
  cbv beta iota.
  destruct fuel as [|fuel']; [done|].
  assert (Hnext : ring_next n k = S k).
  { unfold ring_next. destruct (Nat.eqb_spec k n); [lia|done]. }
  rewrite Hnext, IH; [done|lia|exact Hdefs|exact Hsing|].
  intros j Hj. simpl. intros [Hjk|Hjr]%elem_of_union.
  - apply elem_of_singleton, ring_name_inj in Hjk. lia.
  - revert Hjr. apply Hfree. lia.
Qed.

(** The ring is a cycle: building [sk] first resolves [s(k+1)], and so on
    to [sn], which first resolves [s0]. *)
Lemma ring_wired n w c m : forall k,
  k + m = n ->
  (forall i, i <= n -> definitions_of w c (ring_name i) = [class_definition (ring_name i)]) ->
  _singletons c = ∅ ->
  wired (ring_signature n) no_ainit w c (class_definition (ring_name k))
    (map ring_name (seq (S k) m)) (ring_name 0).
Proof.
  assert (Hfirst : forall k, k <= n ->
            first_resolves (ring_signature n) no_ainit (class_definition (ring_name k))
              (ring_name (ring_next n k))).
  { intros k Hk.
    apply (first_by_parameter (ring_signature n) no_ainit _ _ (ring_name k)
             [mkParam "self" None false]
             (mkParam "next" (Some (ring_name (ring_next n k))) false) []);
      try reflexivity; [by apply ring_signature_at| |discriminate].
    constructor; [by left|constructor]. }
  induction m as [|m IH]; intros k Hk Hdefs Hsing.
  - simpl. specialize (Hfirst k ltac:(lia)).
    unfold ring_next in Hfirst. rewrite (proj2 (Nat.eqb_eq k n)) in Hfirst by lia. exact Hfirst.
  - change (seq (S k) (S m)) with (S k :: seq (S (S k)) m). rewrite map_cons.
    split.
    + specialize (Hfirst k ltac:(lia)).
      unfold ring_next in Hfirst. rewrite (proj2 (Nat.eqb_neq k n)) in Hfirst by lia.
      exact Hfirst.
    + exists (class_definition (ring_name (S k))). split; [|split].
      * rewrite Hdefs by lia. reflexivity.
      * unfold uncached. simpl. rewrite Hsing. apply lookup_empty.
      * apply IH; [lia|done|done].
Qed.

(** The ring is a cycle through [s0] in the state [ring_state] leaves. *)
Lemma ring_cycle n :
  exists d path,
    NoDup (ring_name 0 :: path) /\
    (forall y, y ∈ ring_name 0 :: path -> y ∉ _resolving (snd (ring_state n))) /\
    select_definition
      (definitions_of (fst (ring_state n)) (snd (ring_state n)) (ring_name 0))
      (ring_name 0) None = Ok d /\
    uncached (snd (ring_state n)) d /\
    wired (ring_signature n) no_ainit (fst (ring_state n)) (snd (ring_state n))
      d path (ring_name 0).
Proof.
  destruct (ring_state_spec n) as (Hdefs & Hsing & Hres).
  destruct (ring_state n) as [w c].
  change (fst (w, c)) with w in *. change (snd (w, c)) with c in *.
  exists (class_definition (ring_name 0)), (map ring_name (seq 1 n)).
  split; [|split; [|split; [|split]]].
  - assert (Hinj : Inj eq eq ring_name) by (intros i j; apply ring_name_inj).
    change (NoDup (ring_name <$> seq 0 (S n))).
    apply (NoDup_fmap_2 ring_name (seq 0 (S n))). apply NoDup_seq.
  - intros y _. rewrite Hres. apply not_elem_of_empty.
  - rewrite Hdefs by lia. reflexivity.
  - unfold uncached.
    change (def_scope (class_definition (ring_name 0))) with SINGLETON. cbv iota.
    rewrite Hsing. apply lookup_empty.
  - apply (ring_wired n w c n 0); [lia|exact Hdefs|exact Hsing].
Qed.

Lemma ring_overflows depth n :
  depth <= S n ->
  resolve_fuel (ring_signature n) no_ainit depth (ring_state n) (ring_name 0) None = None.
Proof.
  intros Hdepth.
  destruct (ring_state_spec n) as (Hdefs & Hsing & Hres).
  destruct (ring_state n) as [w c].
  change (fst (w, c)) with w in *. change (snd (w, c)) with c in *.
  apply (ring_overflow n depth 0 w c); [lia|exact Hdefs|exact Hsing|].
  intros j _. rewrite Hres. apply not_elem_of_empty.
Qed.

(** C4 fails on the code for a cycle too deep for the stack: with room for
    1000 nested calls of [resolve] (more than the interpreter's default
    recursion limit of 1000 frames leaves, each nested [resolve] taking
    three frames), the ring of the 1001 classes [s0] ... [s1000] makes
    [resolve(s0)] raise [RecursionError] before the call that would find
    [s0] in progress is made. *)
Lemma deep_cycle_raises_recursion_error :
  (exists d path,
     NoDup (ring_name 0 :: path) /\
     (forall y, y ∈ ring_name 0 :: path -> y ∉ _resolving (snd (ring_state 1000))) /\
     select_definition
       (definitions_of (fst (ring_state 1000)) (snd (ring_state 1000)) (ring_name 0))
       (ring_name 0) None = Ok d /\
     uncached (snd (ring_state 1000)) d /\
     wired (ring_signature 1000) no_ainit (fst (ring_state 1000)) (snd (ring_state 1000))
       d path (ring_name 0)) /\
  resolve_fuel (ring_signature 1000) no_ainit 1000 (ring_state 1000) (ring_name 0) None = None.
Proof.
  split.
  - exact (ring_cycle 1000).
  - apply ring_overflows. apply Nat.le_succ_diag_r.
Qed.

End DI.

(** ** Facts about insertion-ordered dictionaries *)

Lemma dict_mem_keys {A} (k : string) (d : Dict A) :
  dict_mem k d = true <-> k ∈ dict_keys d.
Proof.
  unfold dict_mem, dict_keys. induction d as [|[k' v] d IH]; simpl.
  - split; [done|]. intros H. by apply elem_of_nil in H.
  - rewrite elem_of_cons. destruct (String.eqb_spec k k') as [->|Hne].
    + split; [by left|done].
    + rewrite IH. split; [by right|]. by intros [?|?].
Qed.

Lemma dict_get_keys {A} (k : string) (d : Dict A) :
  is_Some (dict_get k d) <-> k ∈ dict_keys d.
Proof.
  rewrite <- dict_mem_keys. unfold dict_mem.
  destruct (dict_get k d); split; intros H; done.
Qed.

Lemma dict_set_absent {A} (k : string) (v : A) (d : Dict A) :
  dict_mem k d = false -> dict_set k v d = d ++ [(k, v)].
Proof.
  unfold dict_mem. induction d as [|[k' v'] d IH]; simpl; [done|].
  destruct (String.eqb k k'); [done|]. intros H. by rewrite IH.
Qed.

Lemma dict_keys_set {A} (k : string) (v : A) (d : Dict A) :
  dict_keys (dict_set k v d) = if dict_mem k d then dict_keys d else dict_keys d ++ [k].
Proof.
  unfold dict_mem, dict_keys. induction d as [|[k' v'] d IH]; simpl; [done|].
  destruct (String.eqb_spec k k') as [->|Hne]; simpl; [done|].
  rewrite IH. by destruct (dict_get k d).
Qed.

Lemma dict_get_set_eq {A} (k : string) (v : A) (d : Dict A) :
  dict_get k (dict_set k v d) = Some v.
Proof.
  induction d as [|[k' v'] d IH]; simpl; [by rewrite String.eqb_refl|].
  destruct (String.eqb k k') eqn:E; simpl; by rewrite ?String.eqb_refl, ?E.
Qed.

Lemma dict_get_set_ne {A} (k k' : string) (v : A) (d : Dict A) :
  k <> k' -> dict_get k' (dict_set k v d) = dict_get k' d.
Proof.
  intros Hne. induction d as [|[k0 v0] d IH]; simpl.
  - by destruct (String.eqb_spec k' k) as [->|].
  - destruct (String.eqb_spec k k0) as [->|Hne0]; simpl.
    + destruct (String.eqb_spec k' k0) as [->|]; done.
    + by rewrite IH.
Qed.

Lemma dict_get_del_eq {A} (k : string) (d : Dict A) : dict_get k (dict_del k d) = None.
Proof.
  unfold dict_del. induction d as [|[k0 v0] d IH]; simpl; [done|].
  destruct (String.eqb k k0) eqn:E; simpl; [done|]. by rewrite E.
Qed.

Lemma dict_get_del_ne {A} (k k' : string) (d : Dict A) :
  k <> k' -> dict_get k' (dict_del k d) = dict_get k' d.
Proof.
  intros Hne. unfold dict_del. induction d as [|[k0 v0] d IH]; simpl; [done|].
  destruct (String.eqb_spec k k0) as [->|Hne0]; simpl.
  - destruct (String.eqb_spec k' k0) as [->|]; done.
  - by rewrite IH.
Qed.

Lemma dict_get_app {A} (k : string) (d1 d2 : Dict A) :
  dict_get k (d1 ++ d2) =
  match dict_get k d1 with Some v => Some v | None => dict_get k d2 end.
Proof.
  induction d1 as [|[k0 v0] d1 IH]; simpl; [done|].
  by destruct (String.eqb k k0).
Qed.

(** ** Plugin registry ([plugin_registry.py], [base_plugin.py]) *)

Module Registry.

(** The five capability base classes [_load_plugin_class] files a plugin
    under. *)
Inductive PluginType : Type :=
  | OperationPlugin | ToolPlugin | BackendPlugin | MiddlewarePlugin | ExtensionPlugin.

#[global] Instance PluginType_eq_dec : EqDecision PluginType.
Proof. solve_decision. Defined.

(** The plugin methods the registry calls. *)
Inductive Method : Type :=
  | Initialize | OnLoad | OnStart | OnStop | OnUnload | Teardown.

#[global] Instance Method_eq_dec : EqDecision Method.
Proof. solve_decision. Defined.

(** [class OperationContext] as far as the dispatcher fills it in. *)
Record OperationContext : Type := mkContext {
  ctx_tool_name : string;
  ctx_operation_name : Value;
  ctx_user_id : option Value;
  ctx_session_id : option Value
}.

(** An operation handler: called with the context and the keyword
    arguments, it returns a payload or raises. *)
Definition OperationHandler : Type :=
  OperationContext -> Dict Value -> Result string Value.

(** A plugin class.  [raises m] tells whether method [m] of its instances
    raises; for [Initialize] it is the [setup] step of
    [BasePlugin.initialize] that raises.  The last five fields are the
    methods of middleware and operation plugins. *)
Record PluginClass : Type := mkPluginClass {
  class_name : string;
  metadata_name : string;
  metadata_dependencies : list string;
  bases : list PluginType;
  construct_raises : bool;
  raises : Method -> bool;
  get_priority : Z;
  process_request : string -> Value -> Dict Value -> Result string (Dict Value);
  process_response : string -> Value -> Value -> Result string Value;
  get_tool_name : string;
  get_operations : Dict OperationHandler
}.

(** A plugin instance. *)
Record Plugin : Type := mkPlugin {
  plugin_class : PluginClass;
  config : Dict Value;
  _initialized : bool
}.

(** [BasePlugin.initialize]: [true] when it raised. *)
Definition initialize (p : Plugin) : bool * Plugin :=
  if _initialized p then (false, p)
  else if raises (plugin_class p) Initialize then (true, p)
  else (false, mkPlugin (plugin_class p) (config p) true).

(** What the registry finds outside itself: the plugin classes that
    importing plugin code yields, found in a directory ([None]: no such
    directory) and in a module ([None]: [ImportError]), in the order they
    are found; and how many nested calls of the local function [visit] the
    interpreter still allows when [_topological_sort] starts (the
    recursion limit, 1000 frames unless changed, less the frames already
    on the stack).  Plugin files whose execution raises are outside the
    model. *)
Record Environment : Type := mkEnvironment {
  plugins_in_path : string -> option (list PluginClass);
  plugins_in_module : string -> option (list PluginClass);
  recursion_limit : nat
}.

(** [class PluginRegistry].  [calls] is a ghost field: the plugin methods
    the registry has called so far, by plugin name, in call order. *)
Record PluginRegistry : Type := mkRegistry {
  _plugins : Dict Plugin;
  _plugin_types : PluginType -> list string;
  _load_order : list string;
  _registry_initialized : bool;
  _builtin_plugins : list PluginClass;
  _plugin_paths : list string;
  _plugin_modules : list string;
  calls : list (string * Method)
}.

(** [PluginRegistry()] *)
Definition new_registry : PluginRegistry :=
  {| _plugins := []; _plugin_types := fun _ => []; _load_order := [];
     _registry_initialized := false; _builtin_plugins := []; _plugin_paths := [];
     _plugin_modules := []; calls := [] |}.

Definition set_plugins (r : PluginRegistry) (p : Dict Plugin) : PluginRegistry :=
  {| _plugins := p; _plugin_types := _plugin_types r; _load_order := _load_order r;
     _registry_initialized := _registry_initialized r;
     _builtin_plugins := _builtin_plugins r; _plugin_paths := _plugin_paths r;
     _plugin_modules := _plugin_modules r; calls := calls r |}.

Definition set_plugin_types (r : PluginRegistry) (t : PluginType -> list string)
    : PluginRegistry :=
  {| _plugins := _plugins r; _plugin_types := t; _load_order := _load_order r;
     _registry_initialized := _registry_initialized r;
     _builtin_plugins := _builtin_plugins r; _plugin_paths := _plugin_paths r;
     _plugin_modules := _plugin_modules r; calls := calls r |}.

Definition set_load_order (r : PluginRegistry) (o : list string) : PluginRegistry :=
  {| _plugins := _plugins r; _plugin_types := _plugin_types r; _load_order := o;
     _registry_initialized := _registry_initialized r;
     _builtin_plugins := _builtin_plugins r; _plugin_paths := _plugin_paths r;
     _plugin_modules := _plugin_modules r; calls := calls r |}.

Definition set_registry_initialized (r : PluginRegistry) (b : bool) : PluginRegistry :=
  {| _plugins := _plugins r; _plugin_types := _plugin_types r; _load_order := _load_order r;
     _registry_initialized := b;
     _builtin_plugins := _builtin_plugins r; _plugin_paths := _plugin_paths r;
     _plugin_modules := _plugin_modules r; calls := calls r |}.

Definition log_call (r : PluginRegistry) (name : string) (m : Method) : PluginRegistry :=
  {| _plugins := _plugins r; _plugin_types := _plugin_types r; _load_order := _load_order r;
     _registry_initialized := _registry_initialized r;
     _builtin_plugins := _builtin_plugins r; _plugin_paths := _plugin_paths r;
     _plugin_modules := _plugin_modules r; calls := calls r ++ [(name, m)] |}.

(** [add_builtin_plugin], [add_plugin_path], [add_plugin_module] *)
Definition add_builtin_plugin (r : PluginRegistry) (plugin_class : PluginClass)
    : PluginRegistry :=
  {| _plugins := _plugins r; _plugin_types := _plugin_types r; _load_order := _load_order r;
     _registry_initialized := _registry_initialized r;
     _builtin_plugins := _builtin_plugins r ++ [plugin_class];
     _plugin_paths := _plugin_paths r; _plugin_modules := _plugin_modules r;
     calls := calls r |}.

Definition add_plugin_path (r : PluginRegistry) (path : string) : PluginRegistry :=
  {| _plugins := _plugins r; _plugin_types := _plugin_types r; _load_order := _load_order r;
     _registry_initialized := _registry_initialized r;
     _builtin_plugins := _builtin_plugins r;
     _plugin_paths := _plugin_paths r ++ [path]; _plugin_modules := _plugin_modules r;
     calls := calls r |}.

Definition add_plugin_module (r : PluginRegistry) (module_name : string) : PluginRegistry :=
  {| _plugins := _plugins r; _plugin_types := _plugin_types r; _load_order := _load_order r;
     _registry_initialized := _registry_initialized r;
     _builtin_plugins := _builtin_plugins r;
     _plugin_paths := _plugin_paths r; _plugin_modules := _plugin_modules r ++ [module_name];
     calls := calls r |}.

(** The loop of [_load_plugin_class] over the method resolution order. *)
Definition register_by_type (name : string) (mro : list PluginType)
    (types : PluginType -> list string) : PluginType -> list string :=
  fold_left
    (fun acc base_class t => if decide (t = base_class) then acc t ++ [name] else acc t)
    mro types.

(** [PluginRegistry._load_plugin_class]: every exception is caught. *)
Definition _load_plugin_class (r : PluginRegistry) (plugin_class : PluginClass)
    (cfg : option (Dict Value)) : PluginRegistry :=
  if construct_raises plugin_class then r
  else
    let plugin := mkPlugin plugin_class (default [] cfg) false in
    let name := metadata_name plugin_class in
    if dict_mem name (_plugins r) then r
    else
      set_plugin_types
        (set_plugins r (dict_set name plugin (_plugins r)))
        (register_by_type name (bases plugin_class) (_plugin_types r)).

Definition load_classes (r : PluginRegistry) (classes : list PluginClass) : PluginRegistry :=
  fold_left (fun acc cls => _load_plugin_class acc cls None) classes r.

(** [_discover_plugins_in_path], [_discover_plugins_in_module] *)
Definition _discover_plugins_in_path (env : Environment) (r : PluginRegistry)
    (path : string) : PluginRegistry :=
  match plugins_in_path env path with
  | None => r
  | Some classes => load_classes r classes
  end.

Definition _discover_plugins_in_module (env : Environment) (r : PluginRegistry)
    (module_name : string) : PluginRegistry :=
  match plugins_in_module env module_name with
  | None => r
  | Some classes => load_classes r classes
  end.

(** The three loading loops that open [discover_and_load]. *)
Definition load_all (env : Environment) (r : PluginRegistry) : PluginRegistry :=
  let r1 := load_classes r (_builtin_plugins r) in
  let r2 := fold_left (_discover_plugins_in_path env) (_plugin_paths r1) r1 in
  fold_left (_discover_plugins_in_module env) (_plugin_modules r2) r2.

(** *** Dependency order *)

(** [graph.get(node, [])] *)
Definition graph_get (graph : Dict (list string)) (node : string) : list string :=
  default [] (dict_get node graph).

(** The state of the traversal: the [visited] set and the [stack]. *)
Definition Visit : Type := gset string * list string.

(** The loop of [visit] over the dependencies of a node. *)
Fixpoint visit_deps (visit_ : string -> Visit -> option Visit) (graph : Dict (list string))
    (deps : list string) (st : Visit) : option Visit :=
  match deps with
  | [] => Some st
  | dep :: rest =>
      if dict_mem dep graph then
        match visit_ dep st with
        | None => None
        | Some st' => visit_deps visit_ graph rest st'
        end
      else visit_deps visit_ graph rest st
  end.

(** The local function [visit] of [_topological_sort].  [depth] is the
    number of nested calls of [visit] the interpreter still allows; a call
    made when none is left raises [RecursionError], which nothing catches:
    that is [None]. *)
Fixpoint visit (depth : nat) (graph : Dict (list string)) (node : string) (st : Visit)
    {struct depth} : option Visit :=
  match depth with
  | 0 => None
  | S depth' =>
      if bool_decide (node ∈ fst st) then Some st
      else
        match visit_deps (visit depth' graph) graph (graph_get graph node)
                ({[node]} ∪ fst st, snd st) with
        | None => None
        | Some (visited, stack) => Some (visited, stack ++ [node])
        end
  end.

(** [for node in graph: visit(node)] *)
Fixpoint visit_all (visit_ : string -> Visit -> option Visit) (nodes : list string)
    (st : Visit) : option Visit :=
  match nodes with
  | [] => Some st
  | node :: rest =>
      match visit_ node st with
      | None => None
      | Some st' => visit_all visit_ rest st'
      end
  end.

(** [PluginRegistry._topological_sort], started with [limit] nested calls
    of [visit] left; [None] is the [RecursionError] of a [visit] nested
    deeper than that. *)
Definition _topological_sort (limit : nat) (graph : Dict (list string))
    : option (list string) :=
  snd <$> visit_all (visit limit graph) (dict_keys graph) (∅, []).

(** The graph [_resolve_dependencies] builds. *)
Definition dependency_graph (plugins : Dict Plugin) : Dict (list string) :=
  fold_left
    (fun graph np => dict_set (fst np) (metadata_dependencies (plugin_class (snd np))) graph)
    plugins [].

(** [PluginRegistry._resolve_dependencies] *)
Definition _resolve_dependencies (env : Environment) (r : PluginRegistry)
    : option PluginRegistry :=
  set_load_order r <$>
    _topological_sort (recursion_limit env) (dependency_graph (_plugins r)).

(** One iteration of [_initialize_plugins]; [Err] is the [KeyError] of
    [self._plugins[plugin_name]], which no handler catches. *)
Definition initialize_plugin (r : PluginRegistry) (plugin_name : string)
    : Result string PluginRegistry :=
  match dict_get plugin_name (_plugins r) with
  | None => Err plugin_name
  | Some plugin =>
      let r1 := log_call r plugin_name Initialize in
      let '(raised, plugin') := initialize plugin in
      let r2 := set_plugins r1 (dict_set plugin_name plugin' (_plugins r1)) in
      if raised then Ok (set_plugins r2 (dict_del plugin_name (_plugins r2)))
      else
        let r3 := log_call r2 plugin_name OnLoad in
        if raises (plugin_class plugin') OnLoad
        then Ok (set_plugins r3 (dict_del plugin_name (_plugins r3)))
        else Ok r3
  end.

(** [PluginRegistry._initialize_plugins] *)
Fixpoint initialize_plugins_from (order : list string) (r : PluginRegistry)
    : Result string PluginRegistry :=
  match order with
  | [] => Ok r
  | plugin_name :: rest =>
      match initialize_plugin r plugin_name with
      | Err e => Err e
      | Ok r' => initialize_plugins_from rest r'
      end
  end.

Definition _initialize_plugins (r : PluginRegistry) : Result string PluginRegistry :=
  initialize_plugins_from (_load_order r) r.

(** [PluginRegistry.discover_and_load]; [None] is the [RecursionError]
    that [_resolve_dependencies] lets through and no handler catches. *)
Definition discover_and_load (env : Environment) (r : PluginRegistry)
    : option (Result string PluginRegistry) :=
  match _resolve_dependencies env (load_all env r) with
  | None => None
  | Some r1 =>
      match _initialize_plugins r1 with
      | Err e => Some (Err e)
      | Ok r2 => Some (Ok (set_registry_initialized r2 true))
      end
  end.

(** [get_plugin], [get_plugins_by_type] *)
Definition get_plugin (r : PluginRegistry) (name : string) : option Plugin :=
  dict_get name (_plugins r).

Definition get_plugins_by_type (r : PluginRegistry) (plugin_type : PluginType)
    : list Plugin :=
  omap (fun name => dict_get name (_plugins r)) (_plugin_types r plugin_type).

(** [get_operation_handlers] *)
Definition get_operation_handlers (r : PluginRegistry) (tool_name : string)
    : Dict OperationHandler :=
  fold_left
    (fun handlers plugin =>
       if String.eqb (get_tool_name (plugin_class plugin)) tool_name
       then dict_update handlers (get_operations (plugin_class plugin))
       else handlers)
    (get_plugins_by_type r OperationPlugin) [].

(** [sorted(middleware, key=...)]: a stable insertion sort. *)
Fixpoint insert_by_priority (m : Plugin) (sorted : list Plugin) : list Plugin :=
  match sorted with
  | [] => [m]
  | x :: rest =>
      if (get_priority (plugin_class m) <? get_priority (plugin_class x))%Z
      then m :: x :: rest
      else x :: insert_by_priority m rest
  end.

(** [get_middleware_chain] *)
Definition get_middleware_chain (r : PluginRegistry) : list Plugin :=
  fold_left (fun acc m => insert_by_priority m acc) (get_plugins_by_type r MiddlewarePlugin) [].

(** One iteration of [start_all] / [stop_all]: the exception is logged. *)
Definition call_if_loaded (m : Method) (r : PluginRegistry) (plugin_name : string)
    : PluginRegistry :=
  if dict_mem plugin_name (_plugins r) then log_call r plugin_name m else r.

(** [start_all], [stop_all] *)
Definition start_all (r : PluginRegistry) : PluginRegistry :=
  fold_left (call_if_loaded OnStart) (_load_order r) r.

Definition stop_all (r : PluginRegistry) : PluginRegistry :=
  fold_left (call_if_loaded OnStop) (rev (_load_order r)) r.

(** One iteration of [unload_all]: [teardown] runs when [on_unload] returned. *)
Definition unload_plugin (r : PluginRegistry) (plugin_name : string) : PluginRegistry :=
  match dict_get plugin_name (_plugins r) with
  | None => r
  | Some plugin =>
      let r1 := log_call r plugin_name OnUnload in
      if raises (plugin_class plugin) OnUnload then r1
      else log_call r1 plugin_name Teardown
  end.

(** [unload_all] *)
Definition unload_all (r : PluginRegistry) : PluginRegistry :=
  let r1 := fold_left unload_plugin (rev (_load_order r)) r in
  {| _plugins := []; _plugin_types := fun _ => []; _load_order := [];
     _registry_initialized := false; _builtin_plugins := _builtin_plugins r1;
     _plugin_paths := _plugin_paths r1; _plugin_modules := _plugin_modules r1;
     calls := calls r1 |}.

(** [if name in plugin_list: plugin_list.remove(name)] *)
Definition remove_name (name : string) (plugin_list : list string) : list string :=
  match list_remove name plugin_list with
  | Some l => l
  | None => plugin_list
  end.

(** [PluginRegistry.reload_plugin] *)
Definition reload_plugin (r : PluginRegistry) (name : string) : bool * PluginRegistry :=
  match dict_get name (_plugins r) with
  | None => (false, r)
  | Some plugin =>
      let cls := plugin_class plugin in
      let cfg := config plugin in
      (* try: *)
      let r1 := log_call r name OnUnload in
      if raises cls OnUnload then (false, r1) else
      let r2 := log_call r1 name Teardown in
      if raises cls Teardown then (false, r2) else
      let r3 := set_plugins r2 (dict_del name (_plugins r2)) in
      let r4 := set_plugin_types r3 (fun t => remove_name name (_plugin_types r3 t)) in
      let r5 := _load_plugin_class r4 cls (Some cfg) in
      match dict_get name (_plugins r5) with
      | None => (false, r5)                     (* KeyError, caught *)
      | Some new_plugin =>
          let r6 := log_call r5 name Initialize in
          let '(raised, new_plugin') := initialize new_plugin in
          let r7 := set_plugins r6 (dict_set name new_plugin' (_plugins r6)) in
          if raised then (false, r7) else
          let r8 := log_call r7 name OnLoad in
          if raises (plugin_class new_plugin') OnLoad then (false, r8) else
          let r9 := log_call r8 name OnStart in
          if raises (plugin_class new_plugin') OnStart then (false, r9) else
          (true, r9)
      end
  end.


(** *** Correctness of the dependency order *)

(** [depends_on graph n d]: [n] and [d] are nodes of the graph and [n]
    lists [d] among its dependencies. *)
Definition depends_on (graph : Dict (list string)) (n d : string) : Prop :=
  n ∈ dict_keys graph /\ d ∈ graph_get graph n /\ d ∈ dict_keys graph.

(** No node depends on itself through one or more steps. *)
Definition acyclic (graph : Dict (list string)) : Prop :=
  forall n, ~ tc (depends_on graph) n n.

(** [d] stands strictly before [n] in [order]. *)
Definition before (order : list string) (d n : string) : Prop :=
  exists i j, order !! i = Some d /\ order !! j = Some n /\ i < j.

(** The nodes of a graph, as a set. *)
Definition node_set (graph : Dict (list string)) : gset string :=
  list_to_set (dict_keys graph).

Section TopologicalSort.

Variable graph : Dict (list string).

(** A ranking that every dependency lowers: the graph is acyclic, and the
    rank of a node bounds the length of the dependency chains below it. *)
Variable rank : string -> nat.
Hypothesis rank_decreases : forall n d, depends_on graph n d -> rank d < rank n.

Lemma graph_acyclic : acyclic graph.
Proof.
  intros n Htc.
  assert (Hlt : forall a b, tc (depends_on graph) a b -> rank b < rank a).
  { induction 1 as [a b Hab|a b c Hab _ IH]; [by apply rank_decreases|].
    specialize (rank_decreases a b Hab). lia. }
  specialize (Hlt n n Htc). lia.
Qed.

(** What holds of [visited] and [stack] between two steps: the stack holds
    visited nodes, once each, and every node on it is preceded by its
    dependencies. *)
Definition consistent (V : gset string) (S : list string) : Prop :=
  (forall x, x ∈ S -> x ∈ V /\ x ∈ dict_keys graph) /\
  NoDup S /\
  (forall n d, n ∈ S -> depends_on graph n d -> before S d n).

(** A node entered and not yet left. *)
Definition open_node (V : gset string) (S : list string) (x : string) : Prop :=
  x ∈ V /\ x ∉ S.

Definition visit_pre (V : gset string) (S : list string) (node : string) : Prop :=
  consistent V S /\ node ∈ dict_keys graph /\
  (forall g, open_node V S g -> tc (depends_on graph) g node).

Definition visit_post (V : gset string) (S : list string) (node : string)
    (V' : gset string) (S' : list string) : Prop :=
  consistent V' S' /\ V ⊆ V' /\ (exists new, S' = S ++ new) /\
  (forall x, open_node V' S' x <-> open_node V S x) /\ node ∈ S'.

Definition visit_ok (visit_ : string -> Visit -> option Visit) (bound : nat) : Prop :=
  forall node V S, visit_pre V S node -> rank node < bound ->
    exists V' S', visit_ node (V, S) = Some (V', S') /\ visit_post V S node V' S'.

Lemma before_app order new d n : before order d n -> before (order ++ new) d n.
Proof.
  intros (i & j & Hi & Hj & Hlt). exists i, j.
  split; [by apply lookup_app_l_Some|]. split; [by apply lookup_app_l_Some|done].
Qed.

Lemma before_last order d n : d ∈ order -> before (order ++ [n]) d n.
Proof.
  intros Hd. apply list_elem_of_lookup in Hd as [i Hi].
  exists i, (length order). split; [by apply lookup_app_l_Some|].
  split; [by apply list_lookup_middle|]. by eapply lookup_lt_Some.
Qed.

Lemma visit_deps_ok visit_ bound n :
  visit_ok visit_ bound ->
  n ∈ dict_keys graph ->
  forall deps V S,
    consistent V S -> open_node V S n ->
    (forall g, open_node V S g -> g = n \/ tc (depends_on graph) g n) ->
    (forall d, d ∈ deps -> d ∈ graph_get graph n) ->
    rank n <= bound ->
    exists V' S',
      visit_deps visit_ graph deps (V, S) = Some (V', S') /\
      consistent V' S' /\ V ⊆ V' /\ (exists new, S' = S ++ new) /\
      (forall x, open_node V' S' x <-> open_node V S x) /\
      (forall d, d ∈ deps -> d ∈ dict_keys graph -> d ∈ S').
Proof.
  intros Hcb Hn. induction deps as [|dep rest IH]; intros V S Hc Hopen Hreach Hdeps Hsz.
  - exists V, S. simpl. split; [done|]. split; [done|]. split; [done|].
    split; [exists []; by rewrite app_nil_r|]. split; [done|].
    intros d Hd. by apply elem_of_nil in Hd.
  - simpl. destruct (dict_mem dep graph) eqn:Hmem.
    + apply dict_mem_keys in Hmem.
      assert (Hedge : depends_on graph n dep).
      { split; [done|]. split; [apply Hdeps; by left|done]. }
      destruct (Hcb dep V S) as (V1 & S1 & -> & Hc1 & Hsub1 & [new1 ->] & Hg1 & Hin1).
      { split; [done|]. split; [done|]. intros g Hg.
        destruct (Hreach g Hg) as [->|Htc]; [by apply tc_once|by eapply tc_r]. }
      { specialize (rank_decreases n dep Hedge). lia. }
      destruct (IH V1 (S ++ new1)) as (V' & S' & -> & Hc' & Hsub' & [new2 ->] & Hg' & Hin').
      { done. }
      { by apply Hg1. }
      { intros g Hg. apply Hreach. by apply Hg1. }
      { intros d Hd. apply Hdeps. by right. }
      { done. }
      exists V', ((S ++ new1) ++ new2). split; [done|]. split; [done|].
      split; [set_solver|]. split; [exists (new1 ++ new2); by rewrite app_assoc|].
      split; [intros x; by rewrite Hg', Hg1|].
      intros d [->|Hd]%elem_of_cons Hk; [|by apply Hin'].
      apply elem_of_app. by left.
    + destruct (IH V S) as (V' & S' & -> & Hc' & Hsub' & Hnew & Hg' & Hin'); try done.
      { intros d Hd. apply Hdeps. by right. }
      exists V', S'. repeat (split; [done|]).
      intros d [->|Hd]%elem_of_cons Hk; [|by apply Hin'].
      apply dict_mem_keys in Hk. congruence.
Qed.

Lemma visit_sound depth : visit_ok (visit depth graph) depth.
Proof.
  induction depth as [|fuel IH]; intros node V S (Hc & Hnode & Hreach) Hsz; [lia|].
  simpl. destruct (bool_decide (node ∈ V)) eqn:HV.
    + apply bool_decide_eq_true_1 in HV.
      exists V, S. split; [done|]. split; [done|]. split; [done|].
      split; [exists []; by rewrite app_nil_r|]. split; [done|].
      destruct (decide (node ∈ S)) as [|Hnin]; [done|].
      destruct (graph_acyclic node). by apply Hreach.
    + apply bool_decide_eq_false_1 in HV.
      destruct Hc as (HS & Hnd & Hord).
      assert (HnS : node ∉ S) by (intros Hin; by destruct (HS node Hin)).
      destruct (visit_deps_ok (visit fuel graph) fuel node IH Hnode
                  (graph_get graph node) ({[node]} ∪ V) S)
        as (V' & S' & -> & (HS' & Hnd' & Hord') & Hsub' & [new ->] & Hg' & Hin').
      { split; [|done]. intros x Hx. destruct (HS x Hx). set_solver. }
      { split; [set_solver|done]. }
      { intros g [HgV HgS]. apply elem_of_union in HgV as [HgV|HgV].
        - apply elem_of_singleton in HgV. by left.
        - right. by apply Hreach. }
      { done. }
      { lia. }
      assert (HnS' : node ∉ S ++ new).
      { apply (Hg' node). split; [set_solver|done]. }
      exists V', ((S ++ new) ++ [node]). split; [done|]. split; [|split; [|split; [|split]]].
      * split; [|split].
        -- intros x [Hx|Hx%list_elem_of_singleton]%elem_of_app; [by apply HS'|].
           subst x. split; [set_solver|done].
        -- apply NoDup_app. split; [done|]. split; [|apply NoDup_singleton].
           intros x Hx Hx'%list_elem_of_singleton. by subst x.
        -- intros n d [Hn|Hn%list_elem_of_singleton]%elem_of_app Hdep.
           ++ apply before_app. by apply Hord'.
           ++ subst n. apply before_last. destruct Hdep as (_ & Hd & Hk). by apply Hin'.
      * set_solver.
      * exists (new ++ [node]). by rewrite app_assoc.
      * intros x. split.
        -- intros [HxV HxS]. rewrite elem_of_app, list_elem_of_singleton in HxS.
           destruct (proj1 (Hg' x)) as [HxV1 HxS1]; [split; [done|tauto]|].
           split; [|done]. set_solver.
        -- intros [HxV HxS].
           destruct (proj2 (Hg' x)) as [HxV' HxS']; [split; [set_solver|done]|].
           split; [done|]. rewrite elem_of_app, list_elem_of_singleton.
           intros [Hx|Hx]; [done|by subst x].
      * apply elem_of_app. right. by apply list_elem_of_singleton.
Qed.

Lemma visit_all_ok fuel : forall todo V S,
  consistent V S -> (forall x, x ∈ V -> x ∈ S) ->
  (forall n, n ∈ todo -> n ∈ dict_keys graph) ->
  (forall n, n ∈ dict_keys graph -> rank n < fuel) ->
  exists V' S',
    visit_all (visit fuel graph) todo (V, S) = Some (V', S') /\
    consistent V' S' /\ (forall x, x ∈ V' -> x ∈ S') /\
    (forall x, x ∈ S -> x ∈ S') /\
    (forall n, n ∈ todo -> n ∈ S').
Proof.
  induction todo as [|node rest IH]; intros V S Hc Hclosed Htodo Hsz.
  - exists V, S. simpl. repeat (split; [done|]). intros n Hn. by apply elem_of_nil in Hn.
  - simpl.
    destruct (visit_sound fuel node V S) as (V1 & S1 & -> & Hc1 & Hsub1 & [new ->] & Hg1 & Hin1).
    { split; [done|]. split; [apply Htodo; by left|].
      intros g [HgV HgS]. destruct HgS. by apply Hclosed. }
    { apply Hsz, Htodo. by left. }
    destruct (IH V1 (S ++ new)) as (V' & S' & -> & Hc' & Hclosed' & Hmono' & Hin').
    { done. }
    { intros x Hx. destruct (decide (x ∈ S ++ new)) as [|Hnin]; [done|].
      destruct (proj1 (Hg1 x)) as [HxV HxS]; [by split|]. destruct HxS. by apply Hclosed. }
    { intros n Hn. apply Htodo. by right. }
    { done. }
    exists V', S'. split; [done|]. split; [done|]. split; [done|].
    split; [intros x Hx; apply Hmono', elem_of_app; by left|].
    intros n [->|Hn]%elem_of_cons; [by apply Hmono'|by apply Hin'].
Qed.

Lemma size_list_to_set_le (l : list string) :
  size (list_to_set l : gset string) <= length l.
Proof.
  induction l as [|x l IH].
  - change (list_to_set [] : gset string) with (∅ : gset string). by rewrite size_empty.
  - change (list_to_set (x :: l) : gset string)
      with ({[x]} ∪ list_to_set l : gset string).
    rewrite size_union_alt, size_singleton. simpl.
  assert (Hle : size ((list_to_set l : gset string) ∖ {[x]}) <= size (list_to_set l : gset string))
    by (apply subseteq_size; set_solver).
  lia.
Qed.

(** On a graph whose dependency chains are shorter than the number of
    nested calls allowed, [_topological_sort] returns an order that holds
    every node once and every node after its dependencies in the graph. *)
Lemma topological_sort_correct limit :
  (forall n, n ∈ dict_keys graph -> rank n < limit) ->
  exists order,
    _topological_sort limit graph = Some order /\
    NoDup order /\
    (forall n, n ∈ order <-> n ∈ dict_keys graph) /\
    (forall n d, depends_on graph n d -> before order d n).
Proof.
  intros Hlimit.
  destruct (visit_all_ok limit (dict_keys graph) ∅ [])
    as (V' & S' & Heq & (HS & Hnd & Hord) & Hclosed & _ & Hall).
  - split; [|split].
    + intros x Hx. by apply elem_of_nil in Hx.
    + apply NoDup_nil_2.
    + intros n d Hn. by apply elem_of_nil in Hn.
  - intros x Hx. by apply elem_of_empty in Hx.
  - done.
  - done.
  - exists S'. unfold _topological_sort. rewrite Heq. simpl.
    split; [done|]. split; [done|]. split.
    + intros n. split; [intros Hn; by apply HS|apply Hall].
    + intros n d Hdep. apply Hord; [|done]. apply Hall. by destruct Hdep.
Qed.

End TopologicalSort.

(** *** The dependency order on any graph *)

Lemma size_list_to_set_length (l : list string) :
  size (list_to_set l : gset string) <= length l.
Proof.
  induction l as [|x l IH].
  - change (list_to_set [] : gset string) with (∅ : gset string). by rewrite size_empty.
  - change (list_to_set (x :: l) : gset string)
      with ({[x]} ∪ list_to_set l : gset string).
    rewrite size_union_alt, size_singleton. simpl.
    assert (Hle : size ((list_to_set l : gset string) ∖ {[x]})
                  <= size (list_to_set l : gset string))
      by (apply subseteq_size; set_solver).
    lia.
Qed.

Section TopologicalSortAny.

Variable graph : Dict (list string).

(** What holds of [visited] and [stack] whatever the graph: the stack
    holds visited nodes of the graph, once each. *)
Definition tidy (V : gset string) (S : list string) : Prop :=
  (forall x, x ∈ S -> x ∈ V /\ x ∈ dict_keys graph) /\ NoDup S.

Definition visit_total (visit_ : string -> Visit -> option Visit) (bound : nat) : Prop :=
  forall node V S, tidy V S -> node ∈ dict_keys graph ->
    size (node_set graph ∖ V) < bound ->
    exists V' S', visit_ node (V, S) = Some (V', S') /\
      tidy V' S' /\ V ⊆ V' /\ node ∈ V' /\ (exists new, S' = S ++ new) /\
      (forall x, open_node V' S' x <-> open_node V S x).

Lemma visit_deps_total visit_ bound :
  visit_total visit_ bound ->
  forall deps V S, tidy V S -> size (node_set graph ∖ V) < bound ->
    exists V' S', visit_deps visit_ graph deps (V, S) = Some (V', S') /\
      tidy V' S' /\ V ⊆ V' /\ (exists new, S' = S ++ new) /\
      (forall x, open_node V' S' x <-> open_node V S x).
Proof.
  intros Hcb. induction deps as [|dep rest IH]; intros V S Ht Hsz; simpl.
  - exists V, S. split; [done|]. split; [done|]. split; [done|].
    split; [exists []; by rewrite app_nil_r|done].
  - destruct (dict_mem dep graph) eqn:Hmem; [|by apply IH].
    apply dict_mem_keys in Hmem.
    destruct (Hcb dep V S Ht Hmem Hsz) as (V1 & S1 & -> & Ht1 & Hsub1 & _ & [new1 ->] & Ho1).
    destruct (IH V1 (S ++ new1) Ht1) as (V' & S' & -> & Ht' & Hsub' & [new2 ->] & Ho').
    { eapply Nat.le_lt_trans; [|exact Hsz]. apply subseteq_size. set_solver. }
    exists V', ((S ++ new1) ++ new2). split; [done|]. split; [done|].
    split; [set_solver|]. split; [exists (new1 ++ new2); by rewrite app_assoc|].
    intros x. by rewrite Ho', Ho1.
Qed.

Lemma visit_total_fuel fuel : visit_total (visit fuel graph) fuel.
Proof.
  induction fuel as [|fuel IH]; intros node V S Ht Hnode Hsz; [lia|].
  - simpl. destruct (bool_decide (node ∈ V)) eqn:HV.
    + apply bool_decide_eq_true_1 in HV.
      exists V, S. split; [done|]. split; [done|]. split; [done|]. split; [done|].
      split; [exists []; by rewrite app_nil_r|done].
    + apply bool_decide_eq_false_1 in HV.
      destruct Ht as [HS Hnd].
      assert (HnS : node ∉ S) by (intros Hin; by destruct (HS node Hin)).
      destruct (visit_deps_total (visit fuel graph) fuel IH (graph_get graph node)
                  ({[node]} ∪ V) S)
        as (V' & S' & -> & [HS' Hnd'] & Hsub' & [new ->] & Ho').
      { split; [|done]. intros x Hx. destruct (HS x Hx). set_solver. }
      { assert (Hlt : size (node_set graph ∖ ({[node]} ∪ V)) < size (node_set graph ∖ V)); [|lia].
        apply subset_size. unfold node_set. set_solver. }
      assert (HnS' : node ∉ S ++ new).
      { apply (Ho' node). split; [set_solver|done]. }
      exists V', ((S ++ new) ++ [node]). split; [done|].
      split; [|split; [|split; [|split]]].
      * split.
        -- intros x [Hx|Hx%list_elem_of_singleton]%elem_of_app; [by apply HS'|].
           subst x. split; [set_solver|done].
        -- apply NoDup_app. split; [done|]. split; [|apply NoDup_singleton].
           intros x Hx Hx'%list_elem_of_singleton. by subst x.
      * set_solver.
      * set_solver.
      * exists (new ++ [node]). by rewrite app_assoc.
      * intros x. split.
        -- intros [HxV HxS]. rewrite elem_of_app, list_elem_of_singleton in HxS.
           destruct (proj1 (Ho' x)) as [HxV1 HxS1]; [split; [done|tauto]|].
           split; [|done]. set_solver.
        -- intros [HxV HxS].
           destruct (proj2 (Ho' x)) as [HxV' HxS']; [split; [set_solver|done]|].
           split; [done|]. rewrite elem_of_app, list_elem_of_singleton.
           intros [Hx|Hx]; [done|by subst x].
Qed.

Lemma visit_all_total fuel : forall todo V S,
  tidy V S -> (forall n, n ∈ todo -> n ∈ dict_keys graph) ->
  size (node_set graph ∖ V) < fuel ->
  exists V' S',
    visit_all (visit fuel graph) todo (V, S) = Some (V', S') /\
    tidy V' S' /\ V ⊆ V' /\ (forall n, n ∈ todo -> n ∈ V') /\
    (forall x, open_node V' S' x <-> open_node V S x).
Proof.
  induction todo as [|node rest IH]; intros V S Ht Htodo Hsz; simpl.
  - exists V, S. repeat (split; [done|]). split; [|done].
    intros n Hn. by apply elem_of_nil in Hn.
  - destruct (visit_total_fuel fuel node V S Ht) as (V1 & S1 & -> & Ht1 & Hsub1 & Hin1 & _ & Ho1).
    { apply Htodo. by left. }
    { done. }
    destruct (IH V1 S1 Ht1) as (V' & S' & -> & Ht' & Hsub' & Hin' & Ho').
    { intros n Hn. apply Htodo. by right. }
    { eapply Nat.le_lt_trans; [|exact Hsz]. apply subseteq_size. set_solver. }
    exists V', S'. split; [done|]. split; [done|]. split; [set_solver|].
    split; [|intros x; by rewrite Ho', Ho1].
    intros n [->|Hn]%elem_of_cons; [set_solver|by apply Hin'].
Qed.

(** With more nested calls allowed than the graph has nodes,
    [_topological_sort] returns on every graph, cyclic or not, and the
    order holds every node of the graph exactly once. *)
Lemma topological_sort_total limit :
  length graph < limit ->
  exists order,
    _topological_sort limit graph = Some order /\
    NoDup order /\
    (forall n, n ∈ order <-> n ∈ dict_keys graph).
Proof.
  intros Hlimit.
  destruct (visit_all_total limit (dict_keys graph) ∅ [])
    as (V' & S' & Heq & [HS Hnd] & _ & Hall & Ho).
  - split; [|apply NoDup_nil_2]. intros x Hx. by apply elem_of_nil in Hx.
  - done.
  - eapply Nat.le_lt_trans; [|exact Hlimit].
    etrans; [apply subseteq_size|].
    + instantiate (1 := node_set graph). set_solver.
    + unfold node_set. etrans; [apply size_list_to_set_length|].
      unfold dict_keys. by rewrite length_map.
  - exists S'. unfold _topological_sort. rewrite Heq. simpl.
    split; [done|]. split; [done|].
    intros n. split; [intros Hn; by apply HS|].
    intros Hn. destruct (decide (n ∈ S')) as [|Hnin]; [done|].
    destruct (proj1 (Ho n)) as [HnV _]; [split; [by apply Hall|done]|].
    by apply elem_of_empty in HnV.
Qed.

End TopologicalSortAny.

(** *** Loading and initialization *)

(** [declares plugins n d]: the registered plugin [n] lists [d], itself
    registered, among its dependencies. *)
Definition declares (plugins : Dict Plugin) (n d : string) : Prop :=
  exists p, dict_get n plugins = Some p /\
            d ∈ metadata_dependencies (plugin_class p) /\
            d ∈ dict_keys plugins.

(** The method calls [_initialize_plugins] makes on plugin [n]. *)
Definition init_calls (plugins : Dict Plugin) (n : string) : list (string * Method) :=
  match dict_get n plugins with
  | Some p =>
      if fst (initialize p) then [(n, Initialize)]
      else [(n, Initialize); (n, OnLoad)]
  | None => []
  end.

Definition graph_entry (np : string * Plugin) : string * list string :=
  (fst np, metadata_dependencies (plugin_class (snd np))).

Lemma dependency_graph_from (plugins : Dict Plugin) : forall graph,
  NoDup (dict_keys graph ++ dict_keys plugins) ->
  fold_left
    (fun graph np => dict_set (fst np) (metadata_dependencies (plugin_class (snd np))) graph)
    plugins graph
  = graph ++ map graph_entry plugins.
Proof.
  induction plugins as [|[n p] plugins IH]; intros graph Hnd; simpl.
  - by rewrite app_nil_r.
  - rewrite dict_set_absent.
    + rewrite IH.
      * by rewrite <- app_assoc.
      * unfold dict_keys in *. rewrite map_app. simpl. by rewrite <- app_assoc.
    + destruct (dict_mem n graph) eqn:E; [|done].
      apply dict_mem_keys in E. apply NoDup_app in Hnd as (_ & Hdisj & _).
      destruct (Hdisj n E). simpl. by left.
Qed.

Lemma dependency_graph_map (plugins : Dict Plugin) :
  NoDup (dict_keys plugins) -> dependency_graph plugins = map graph_entry plugins.
Proof. intros Hnd. unfold dependency_graph. by rewrite dependency_graph_from. Qed.

Lemma graph_entry_keys (plugins : Dict Plugin) :
  dict_keys (map graph_entry plugins) = dict_keys plugins.
Proof. unfold dict_keys. rewrite map_map. done. Qed.

Lemma graph_entry_get (plugins : Dict Plugin) n :
  dict_get n (map graph_entry plugins)
  = (fun p => metadata_dependencies (plugin_class p)) <$> dict_get n plugins.
Proof.
  induction plugins as [|[k p] plugins IH]; simpl; [done|].
  by destruct (String.eqb n k).
Qed.

Lemma declares_depends_on (plugins : Dict Plugin) n d :
  declares plugins n d <-> depends_on (map graph_entry plugins) n d.
Proof.
  unfold declares, depends_on, graph_get.
  rewrite graph_entry_keys, graph_entry_get. split.
  - intros (p & Hp & Hd & Hk). rewrite Hp. simpl. split; [|done].
    apply dict_get_keys. by rewrite Hp.
  - intros (Hn & Hd & Hk). destruct (dict_get n plugins) as [p|]; simpl in Hd.
    + by exists p.
    + by apply elem_of_nil in Hd.
Qed.

Lemma acyclic_graph_entry (plugins : Dict Plugin) :
  (forall n, ~ tc (declares plugins) n n) -> acyclic (map graph_entry plugins).
Proof.
  intros Hac n Htc. apply (Hac n).
  eapply tc_congruence with (f := fun x : string => x); [|exact Htc].
  intros x y Hxy. by apply declares_depends_on.
Qed.

Lemma load_plugin_class_keys r cls cfg :
  NoDup (dict_keys (_plugins r)) ->
  NoDup (dict_keys (_plugins (_load_plugin_class r cls cfg))) /\
  calls (_load_plugin_class r cls cfg) = calls r.
Proof.
  intros Hnd. unfold _load_plugin_class.
  destruct (construct_raises cls); [done|].
  destruct (dict_mem (metadata_name cls) (_plugins r)) eqn:E; [done|].
  simpl. split; [|done]. rewrite dict_keys_set, E.
  apply NoDup_app. split; [done|]. split; [|apply NoDup_singleton].
  intros x Hx Hx'%list_elem_of_singleton. subst x.
  apply dict_mem_keys in Hx. congruence.
Qed.

Lemma load_classes_keys classes : forall r,
  NoDup (dict_keys (_plugins r)) ->
  NoDup (dict_keys (_plugins (load_classes r classes))) /\
  calls (load_classes r classes) = calls r.
Proof.
  unfold load_classes.
  induction classes as [|cls classes IH]; intros r Hnd; simpl; [done|].
  destruct (load_plugin_class_keys r cls None Hnd) as [Hnd' Hc].
  destruct (IH _ Hnd') as [Hnd'' Hc'']. split; [done|congruence].
Qed.

Lemma discover_fold_keys (step : PluginRegistry -> string -> PluginRegistry) sources :
  (forall r s, NoDup (dict_keys (_plugins r)) ->
     NoDup (dict_keys (_plugins (step r s))) /\ calls (step r s) = calls r) ->
  forall r, NoDup (dict_keys (_plugins r)) ->
    NoDup (dict_keys (_plugins (fold_left step sources r))) /\
    calls (fold_left step sources r) = calls r.
Proof.
  intros Hstep. induction sources as [|s sources IH]; intros r Hnd; simpl; [done|].
  destruct (Hstep r s Hnd) as [Hnd' Hc]. destruct (IH _ Hnd') as [Hnd'' Hc''].
  split; [done|congruence].
Qed.

Lemma load_all_keys env r :
  NoDup (dict_keys (_plugins r)) ->
  NoDup (dict_keys (_plugins (load_all env r))) /\ calls (load_all env r) = calls r.
Proof.
  intros Hnd. unfold load_all.
  destruct (load_classes_keys (_builtin_plugins r) r Hnd) as [Hnd1 Hc1].
  destruct (discover_fold_keys (_discover_plugins_in_path env)
              (_plugin_paths (load_classes r (_builtin_plugins r)))
              ltac:(intros r0 s H0; unfold _discover_plugins_in_path;
                    destruct (plugins_in_path env s); [by apply load_classes_keys|done])
              _ Hnd1) as [Hnd2 Hc2].
  destruct (discover_fold_keys (_discover_plugins_in_module env)
              (_plugin_modules
                 (fold_left (_discover_plugins_in_path env)
                    (_plugin_paths (load_classes r (_builtin_plugins r)))
                    (load_classes r (_builtin_plugins r))))
              ltac:(intros r0 s H0; unfold _discover_plugins_in_module;
                    destruct (plugins_in_module env s); [by apply load_classes_keys|done])
              _ Hnd2) as [Hnd3 Hc3].
  split; [done|congruence].
Qed.

(** One iteration of [_initialize_plugins] on a registered plugin: it
    calls [initialize], then [on_load] unless [initialize] raised, and
    touches no other entry of [_plugins]. *)
Lemma initialize_plugin_effect r n :
  is_Some (dict_get n (_plugins r)) ->
  exists r',
    initialize_plugin r n = Ok r' /\
    calls r' = calls r ++ init_calls (_plugins r) n /\
    _load_order r' = _load_order r /\
    (forall m, m <> n -> dict_get m (_plugins r') = dict_get m (_plugins r)).
Proof.
  intros [p Hp]. unfold initialize_plugin, init_calls. rewrite Hp.
  destruct (initialize p) as [raised p'] eqn:Hinit. simpl.
  destruct raised.
  - eexists. split; [done|]. simpl. split; [done|]. split; [done|].
    intros m Hm. by rewrite dict_get_del_ne, dict_get_set_ne.
  - destruct (raises (plugin_class p') OnLoad).
    + eexists. split; [done|]. simpl. split; [by rewrite <- app_assoc|]. split; [done|].
      intros m Hm. by rewrite dict_get_del_ne, dict_get_set_ne.
    + eexists. split; [done|]. simpl. split; [by rewrite <- app_assoc|]. split; [done|].
      intros m Hm. by rewrite dict_get_set_ne.
Qed.

Lemma init_calls_ext plugins plugins' order :
  (forall m, m ∈ order -> dict_get m plugins' = dict_get m plugins) ->
  flat_map (init_calls plugins') order = flat_map (init_calls plugins) order.
Proof.
  induction order as [|n order IH]; intros Hext; simpl; [done|].
  rewrite IH by (intros m Hm; apply Hext; by right).
  unfold init_calls at 1 3. rewrite Hext by (by left). done.
Qed.

Lemma initialize_plugins_from_effect order : forall r,
  NoDup order ->
  (forall n, n ∈ order -> is_Some (dict_get n (_plugins r))) ->
  exists r',
    initialize_plugins_from order r = Ok r' /\
    calls r' = calls r ++ flat_map (init_calls (_plugins r)) order /\
    _load_order r' = _load_order r.
Proof.
  induction order as [|n order IH]; intros r Hnd Hreg; simpl.
  - exists r. by rewrite app_nil_r.
  - apply NoDup_cons in Hnd as [Hn Hnd].
    destruct (initialize_plugin_effect r n) as (r1 & -> & Hc1 & Ho1 & Hsame);
      [apply Hreg; by left|].
    assert (Hother : forall m, m ∈ order -> dict_get m (_plugins r1) = dict_get m (_plugins r)).
    { intros m Hm. apply Hsame. by intros ->. }
    destruct (IH r1 Hnd) as (r' & -> & Hc' & Ho').
    { intros m Hm. rewrite Hother by done. apply Hreg. by right. }
    exists r'. split; [done|]. split; [|congruence].
    rewrite Hc', Hc1, <- app_assoc. f_equal. f_equal. by apply init_calls_ext.
Qed.


(** A relation that strictly lowers a rank has no cycle. *)
Lemma ranked_acyclic (plugins : Dict Plugin) (rank : string -> nat) :
  (forall n d, declares plugins n d -> rank d < rank n) ->
  forall n, ~ tc (declares plugins) n n.
Proof.
  intros Hrank n Htc.
  assert (Hlt : forall a b, tc (declares plugins) a b -> rank b < rank a).
  { induction 1 as [a b Hab|a b c Hab _ IH]; [by apply Hrank|].
    specialize (Hrank a b Hab). lia. }
  specialize (Hlt n n Htc). lia.
Qed.

(** *** Scenarios *)

(** A plugin class with the given name, dependencies and raising methods,
    and no middleware or operation behaviour of interest. *)
Definition simple_class (name : string) (deps : list string) (failing : list Method)
    : PluginClass :=
  {| class_name := name; metadata_name := name; metadata_dependencies := deps;
     bases := [ExtensionPlugin]; construct_raises := false;
     raises := fun m => bool_decide (m ∈ failing);
     get_priority := 100;
     process_request := fun _ _ params => Ok params;
     process_response := fun _ _ response => Ok response;
     get_tool_name := ""; get_operations := [] |}.

(** No plugin paths or modules to import from, and the interpreter's
    default recursion limit. *)
Definition no_environment : Environment :=
  {| plugins_in_path := fun _ => None; plugins_in_module := fun _ => None;
     recursion_limit := 1000 |}.

(** Scenario 1 of the specification: [A], [B] depending on [A], [C]
    depending on [B] (and on an unregistered [X]), added in the order
    [C], [B], [A]. *)
Definition abc_registry : PluginRegistry :=
  add_builtin_plugin
    (add_builtin_plugin
       (add_builtin_plugin new_registry (simple_class "C" ["B"; "X"] []))
       (simple_class "B" ["A"] []))
    (simple_class "A" [] []).

Definition abc_rank (n : string) : nat :=
  if String.eqb n "C" then 2 else if String.eqb n "B" then 1 else 0.

Lemma abc_ranked n d :
  declares (_plugins (load_all no_environment abc_registry)) n d ->
  abc_rank d < abc_rank n.
Proof.
  intros (p & Hp & Hd & Hk).
  change (_plugins (load_all no_environment abc_registry))
    with [("C", mkPlugin (simple_class "C" ["B"; "X"] []) [] false);
          ("B", mkPlugin (simple_class "B" ["A"] []) [] false);
          ("A", mkPlugin (simple_class "A" [] []) [] false)] in *.
  simpl in Hp, Hk.
  destruct (String.eqb_spec n "C") as [->|_].
  { injection Hp as <-. simpl in Hd.
    apply elem_of_cons in Hd as [->|Hd]; [vm_compute; lia|].
    apply list_elem_of_singleton in Hd. subst d.
    repeat (apply elem_of_cons in Hk as [Hk|Hk]; [discriminate Hk|]).
    by apply elem_of_nil in Hk. }
  destruct (String.eqb_spec n "B") as [->|_].
  { injection Hp as <-. simpl in Hd.
    apply list_elem_of_singleton in Hd. subst d. vm_compute. lia. }
  destruct (String.eqb_spec n "A") as [->|_]; [|done].
  injection Hp as <-. simpl in Hd. by apply elem_of_nil in Hd.
Qed.


Example abc_load_order :
  (fun r => (_load_order r, calls r)) <$>
    match discover_and_load no_environment abc_registry with
    | Some (Ok r) => Some r
    | _ => None
    end
  = Some (["A"; "B"; "C"],
          [("A", Initialize); ("A", OnLoad); ("B", Initialize); ("B", OnLoad);
           ("C", Initialize); ("C", OnLoad)]).
Proof. vm_compute. reflexivity. Qed.

(** *** Reloading *)

(** A registry holding one plugin whose [on_start] raises: loaded,
    initialized, and started by [start_all], which logs the failure. *)
Definition flaky_class : PluginClass := simple_class "flaky" [] [OnStart].

Definition flaky_started : PluginRegistry :=
  match discover_and_load no_environment (add_builtin_plugin new_registry flaky_class) with
  | Some (Ok r) => start_all r
  | _ => new_registry
  end.

(** A registry holding one plugin whose [on_unload] raises. *)
Definition sticky_class : PluginClass := simple_class "sticky" [] [OnUnload].

Definition sticky_started : PluginRegistry :=
  match discover_and_load no_environment (add_builtin_plugin new_registry sticky_class) with
  | Some (Ok r) => start_all r
  | _ => new_registry
  end.

(** C5 fails on the code: the handler of [reload_plugin] only logs and
    returns [False].  When a method of the new instance raises, the new
    instance stays in [_plugins] (here initialized and loaded but not
    started); when [on_unload] or [teardown] of the old instance raises,
    the old instance stays. *)
Theorem reload_failure_leaves_plugin_registered :
  dict_keys (_plugins flaky_started) = ["flaky"] /\
  (let run := reload_plugin flaky_started "flaky" in
   fst run = false /\
   dict_keys (_plugins (snd run)) = ["flaky"] /\
   _initialized <$> dict_get "flaky" (_plugins (snd run)) = Some true /\
   calls (snd run) =
     calls flaky_started ++
     [("flaky", OnUnload); ("flaky", Teardown); ("flaky", Initialize);
      ("flaky", OnLoad); ("flaky", OnStart)]) /\
  (let run := reload_plugin sticky_started "sticky" in
   fst run = false /\
   dict_keys (_plugins (snd run)) = ["sticky"] /\
   calls (snd run) = calls sticky_started ++ [("sticky", OnUnload)]).
Proof. vm_compute. repeat split; reflexivity. Qed.

(** A reload in which nothing raises. *)
Example reload_succeeds :
  let r :=
    match discover_and_load no_environment
            (add_builtin_plugin new_registry (simple_class "steady" [] [])) with
    | Some (Ok r) => start_all r
    | _ => new_registry
    end in
  let run := reload_plugin r "steady" in
  fst run = true /\ dict_keys (_plugins (snd run)) = ["steady"].
Proof. vm_compute. split; reflexivity. Qed.


(** *** What is left of the plugins after loading *)

(** What [_initialize_plugins] leaves of a plugin: the initialized
    instance when [initialize] and [on_load] returned, nothing when one of
    them raised. *)
Definition after_initialization (p : Plugin) : option Plugin :=
  let '(raised, p') := initialize p in
  if raised then None
  else if raises (plugin_class p') OnLoad then None
  else Some p'.

Lemma initialize_plugin_get r n p :
  dict_get n (_plugins r) = Some p ->
  exists r',
    initialize_plugin r n = Ok r' /\
    dict_get n (_plugins r') = after_initialization p /\
    _load_order r' = _load_order r /\
    _plugin_types r' = _plugin_types r /\
    (forall m, m <> n -> dict_get m (_plugins r') = dict_get m (_plugins r)).
Proof.
  intros Hp. unfold initialize_plugin, after_initialization. rewrite Hp.
  destruct (initialize p) as [raised p'] eqn:Hinit. simpl.
  destruct raised.
  - eexists. split; [done|]. simpl. split; [by rewrite dict_get_del_eq|].
    split; [done|]. split; [done|].
    intros m Hm. by rewrite dict_get_del_ne, dict_get_set_ne.
  - destruct (raises (plugin_class p') OnLoad).
    + eexists. split; [done|]. simpl. split; [by rewrite dict_get_del_eq|].
      split; [done|]. split; [done|].
      intros m Hm. by rewrite dict_get_del_ne, dict_get_set_ne.
    + eexists. split; [done|]. simpl. split; [by rewrite dict_get_set_eq|].
      split; [done|]. split; [done|].
      intros m Hm. by rewrite dict_get_set_ne.
Qed.

Lemma initialize_plugins_from_get order : forall r,
  NoDup order ->
  (forall n, n ∈ order -> is_Some (dict_get n (_plugins r))) ->
  exists r',
    initialize_plugins_from order r = Ok r' /\
    _load_order r' = _load_order r /\
    _plugin_types r' = _plugin_types r /\
    forall n, dict_get n (_plugins r') =
              if bool_decide (n ∈ order)
              then dict_get n (_plugins r) ≫= after_initialization
              else dict_get n (_plugins r).
Proof.
  induction order as [|n order IH]; intros r Hnd Hreg; simpl.
  - exists r. by repeat split.
  - apply NoDup_cons in Hnd as [Hn Hnd].
    destruct (Hreg n) as [p Hp]; [by left|].
    destruct (initialize_plugin_get r n p Hp) as (r1 & -> & Hget & Ho1 & Ht1 & Hsame).
    destruct (IH r1 Hnd) as (r' & -> & Ho' & Ht' & Hget').
    { intros m Hm. rewrite Hsame by (by intros ->). apply Hreg. by right. }
    exists r'. split; [done|]. split; [congruence|]. split; [congruence|].
    intros m. rewrite Hget'. destruct (decide (m = n)) as [->|Hne].
    + rewrite bool_decide_eq_false_2 by done.
      rewrite bool_decide_eq_true_2 by (by left). by rewrite Hget, Hp.
    + rewrite Hsame by done.
      destruct (bool_decide (m ∈ order)) eqn:Hm.
      * apply bool_decide_eq_true_1 in Hm. rewrite bool_decide_eq_true_2 by (by right). done.
      * apply bool_decide_eq_false_1 in Hm.
        rewrite bool_decide_eq_false_2; [done|].
        intros [?|?]%elem_of_cons; done.
Qed.

(** With fewer plugins loaded than the interpreter allows nested calls
    of [visit], [discover_and_load] returns whatever dependencies the
    plugins declare: a dependency cycle is not detected and is no error.
    The load order holds every loaded plugin once.  Afterwards a plugin is
    registered exactly when its [initialize] and [on_load] returned; a
    plugin whose initialization raised is gone from [_plugins], while its
    name stays in the load order. *)
Theorem discover_and_load_drops_failed env r :
  NoDup (dict_keys (_plugins r)) ->
  length (_plugins (load_all env r)) < recursion_limit env ->
  exists r',
    discover_and_load env r = Some (Ok r') /\
    _registry_initialized r' = true /\
    NoDup (_load_order r') /\
    (forall n, n ∈ _load_order r' <-> n ∈ dict_keys (_plugins (load_all env r))) /\
    (forall n, get_plugin r' n = get_plugin (load_all env r) n ≫= after_initialization).
Proof.
  intros Hnd Hlimit.
  destruct (load_all_keys env r Hnd) as [Hnd' _].
  set (loaded := load_all env r) in *.
  destruct (topological_sort_total (map graph_entry (_plugins loaded))
              (recursion_limit env) ltac:(by rewrite length_map))
    as (order & Hsort & Hndo & Hmem).
  rewrite graph_entry_keys in Hmem.
  unfold discover_and_load, _resolve_dependencies. fold loaded.
  rewrite dependency_graph_map by done. rewrite Hsort. simpl.
  unfold _initialize_plugins. simpl.
  destruct (initialize_plugins_from_get order (set_load_order loaded order) Hndo)
    as (r' & -> & Ho & _ & Hget).
  { intros n Hn. simpl. apply dict_get_keys. by apply Hmem. }
  simpl in *. exists (set_registry_initialized r' true). simpl.
  rewrite Ho. split; [done|]. split; [done|]. split; [done|]. split; [done|].
  intros n. unfold get_plugin. simpl. rewrite Hget.
  destruct (bool_decide (n ∈ order)) eqn:Hn; [done|].
  apply bool_decide_eq_false_1 in Hn.
  destruct (dict_get n (_plugins loaded)) as [p|] eqn:Hp; [|done].
  destruct Hn. apply Hmem, dict_get_keys. by rewrite Hp.
Qed.

(** Two plugins that depend on each other, the second with a raising
    [on_load]. *)
Definition cyclic_registry : PluginRegistry :=
  add_builtin_plugin
    (add_builtin_plugin new_registry (simple_class "ping" ["pong"] []))
    (simple_class "pong" ["ping"] [OnLoad]).

Lemma discover_and_load_drops_failed_witness :
  exists r',
    discover_and_load no_environment cyclic_registry = Some (Ok r') /\
    get_plugin r' "pong" = None /\
    get_plugin r' "ping" = Some (mkPlugin (simple_class "ping" ["pong"] []) [] true).
Proof.
  destruct (discover_and_load_drops_failed no_environment cyclic_registry)
    as (r' & Hrun & _ & _ & _ & Hget).
  - apply NoDup_nil_2.
  - apply Nat.ltb_lt. vm_compute. reflexivity.
  - exists r'. split; [exact Hrun|].
    split; rewrite Hget; vm_compute; reflexivity.
Defined.

(** *** Start, stop and unload *)

(** The names of the load order that are registered. *)
Definition loaded_names (r : PluginRegistry) : list string :=
  List.filter (fun n => dict_mem n (_plugins r)) (_load_order r).

Lemma fold_call_if_loaded m names : forall r,
  _plugins (fold_left (call_if_loaded m) names r) = _plugins r /\
  _load_order (fold_left (call_if_loaded m) names r) = _load_order r /\
  calls (fold_left (call_if_loaded m) names r)
  = calls r ++ map (fun n => (n, m)) (List.filter (fun n => dict_mem n (_plugins r)) names).
Proof.
  induction names as [|n names IH]; intros r; simpl.
  - by rewrite app_nil_r.
  - destruct (IH (call_if_loaded m r n)) as (Hp & Ho & Hc).
    rewrite Hp, Ho, Hc. unfold call_if_loaded.
    destruct (dict_mem n (_plugins r)) eqn:Hn; simpl; [|done].
    by rewrite <- app_assoc.
Qed.

(** [start_all] calls [on_start] on the registered plugins of the load
    order, in that order, and [stop_all] calls [on_stop] on the same
    plugins in the opposite order.  A name of the load order whose plugin
    is no longer registered is skipped, and a raising hook stops neither
    loop nor removes the plugin. *)
Theorem stop_all_reverses_start_all r :
  calls (start_all r) = calls r ++ map (fun n => (n, OnStart)) (loaded_names r) /\
  calls (stop_all (start_all r))
  = calls (start_all r) ++ map (fun n => (n, OnStop)) (rev (loaded_names r)) /\
  _plugins (stop_all (start_all r)) = _plugins r.
Proof.
  unfold start_all, stop_all, loaded_names.
  destruct (fold_call_if_loaded OnStart (_load_order r) r) as (Hp & Ho & Hc).
  destruct (fold_call_if_loaded OnStop
              (rev (_load_order (fold_left (call_if_loaded OnStart) (_load_order r) r)))
              (fold_left (call_if_loaded OnStart) (_load_order r) r)) as (Hp' & _ & Hc').
  split; [done|]. split; [|congruence].
  rewrite Hc', Hp, Ho. by rewrite filter_rev.
Qed.

(** The method calls [unload_all] makes on plugin [n]. *)
Definition unload_calls (plugins : Dict Plugin) (n : string) : list (string * Method) :=
  match dict_get n plugins with
  | Some p =>
      if raises (plugin_class p) OnUnload then [(n, OnUnload)]
      else [(n, OnUnload); (n, Teardown)]
  | None => []
  end.

Lemma fold_unload_plugin names : forall r,
  _plugins (fold_left unload_plugin names r) = _plugins r /\
  _builtin_plugins (fold_left unload_plugin names r) = _builtin_plugins r /\
  calls (fold_left unload_plugin names r)
  = calls r ++ flat_map (unload_calls (_plugins r)) names.
Proof.
  induction names as [|n names IH]; intros r; simpl.
  - by rewrite app_nil_r.
  - destruct (IH (unload_plugin r n)) as (Hp & Hb & Hc).
    rewrite Hp, Hb, Hc. unfold unload_plugin, unload_calls at 2.
    destruct (dict_get n (_plugins r)) as [p|] eqn:Hn; simpl; [|done].
    destruct (raises (plugin_class p) OnUnload); simpl;
      rewrite <- ?app_assoc; done.
Qed.

(** [unload_all] walks the load order backwards calling [on_unload] and
    then [teardown] on every registered plugin ([teardown] is skipped when
    [on_unload] raised), and leaves the registry without plugins, type
    lists or load order whatever the hooks did; the built-in plugin
    classes stay. *)
Theorem unload_all_empties_registry r :
  calls (unload_all r)
  = calls r ++ flat_map (unload_calls (_plugins r)) (rev (_load_order r)) /\
  (forall n, get_plugin (unload_all r) n = None) /\
  (forall t, get_plugins_by_type (unload_all r) t = []) /\
  _load_order (unload_all r) = [] /\
  _registry_initialized (unload_all r) = false /\
  _builtin_plugins (unload_all r) = _builtin_plugins r /\
  calls (start_all (unload_all r)) = calls (unload_all r).
Proof.
  unfold unload_all.
  destruct (fold_unload_plugin (rev (_load_order r)) r) as (Hp & Hb & Hc).
  simpl. rewrite Hc, Hb. repeat split; done.
Qed.

(** *** Plugins of the same name *)

Lemma load_plugin_class_keeps r cls cfg n p :
  dict_get n (_plugins r) = Some p ->
  dict_get n (_plugins (_load_plugin_class r cls cfg)) = Some p.
Proof.
  intros Hp. unfold _load_plugin_class.
  destruct (construct_raises cls); [done|].
  destruct (dict_mem (metadata_name cls) (_plugins r)) eqn:E; [done|].
  simpl. rewrite dict_get_set_ne; [done|].
  intros Heq. unfold dict_mem in E. by rewrite Heq, Hp in E.
Qed.

Lemma load_classes_keeps classes n p : forall r,
  dict_get n (_plugins r) = Some p ->
  dict_get n (_plugins (load_classes r classes)) = Some p.
Proof.
  unfold load_classes.
  induction classes as [|cls classes IH]; intros r Hp; simpl; [done|].
  apply IH. by apply load_plugin_class_keeps.
Qed.

Lemma discover_fold_keeps (step : PluginRegistry -> string -> PluginRegistry) n p sources :
  (forall r s, dict_get n (_plugins r) = Some p -> dict_get n (_plugins (step r s)) = Some p) ->
  forall r, dict_get n (_plugins r) = Some p ->
    dict_get n (_plugins (fold_left step sources r)) = Some p.
Proof.
  intros Hstep. induction sources as [|s sources IH]; intros r Hp; simpl; [done|].
  apply IH. by apply Hstep.
Qed.

(** The first plugin loaded under a name keeps it: no later class with the
    same metadata name, built-in or discovered in a path or a module,
    replaces it. *)
Theorem first_loaded_plugin_wins env r n p :
  get_plugin r n = Some p ->
  get_plugin (load_all env r) n = Some p.
Proof.
  unfold get_plugin, load_all. intros Hp.
  apply discover_fold_keeps.
  { intros r0 s H0. unfold _discover_plugins_in_module.
    destruct (plugins_in_module env s); [by apply load_classes_keeps|done]. }
  apply discover_fold_keeps.
  { intros r0 s H0. unfold _discover_plugins_in_path.
    destruct (plugins_in_path env s); [by apply load_classes_keeps|done]. }
  by apply load_classes_keeps.
Qed.

Lemma first_loaded_plugin_wins_witness :
  let r := _load_plugin_class new_registry (simple_class "cache" [] []) None in
  get_plugin
    (load_all no_environment (add_builtin_plugin r (simple_class "cache" ["db"] [OnLoad])))
    "cache"
  = Some (mkPlugin (simple_class "cache" [] []) [] false).
Proof.
  apply (first_loaded_plugin_wins no_environment
           (add_builtin_plugin
              (_load_plugin_class new_registry (simple_class "cache" [] []) None)
              (simple_class "cache" ["db"] [OnLoad]))
           "cache" (mkPlugin (simple_class "cache" [] []) [] false)).
  vm_compute. reflexivity.
Defined.


(** *** The middleware chain *)

Definition priority_le (a b : Plugin) : Prop :=
  (get_priority (plugin_class a) <= get_priority (plugin_class b))%Z.

Definition has_priority (k : Z) (m : Plugin) : bool :=
  (get_priority (plugin_class m) =? k)%Z.

Lemma insert_by_priority_perm m sorted : insert_by_priority m sorted ≡ₚ m :: sorted.
Proof.
  induction sorted as [|x rest IH]; simpl; [done|].
  destruct (get_priority (plugin_class m) <? get_priority (plugin_class x))%Z; [done|].
  rewrite IH. apply Permutation_swap.
Qed.

Lemma insert_by_priority_sorted m sorted :
  StronglySorted priority_le sorted ->
  StronglySorted priority_le (insert_by_priority m sorted).
Proof.
  induction 1 as [|x rest Hrest IH Hx]; simpl.
  - repeat constructor.
  - destruct (Z.ltb_spec (get_priority (plugin_class m)) (get_priority (plugin_class x)))
      as [Hlt|Hge].
    + constructor; [by constructor|].
      constructor; [unfold priority_le; lia|].
      eapply Forall_impl; [exact Hx|]. unfold priority_le. intros y Hy. simpl in Hy. lia.
    + constructor; [done|].
      rewrite insert_by_priority_perm. by constructor.
Qed.

Lemma insert_by_priority_filter k m sorted :
  StronglySorted priority_le sorted ->
  List.filter (has_priority k) (insert_by_priority m sorted)
  = List.filter (has_priority k) sorted ++ List.filter (has_priority k) [m].
Proof.
  induction 1 as [|x rest Hrest IH Hx]; simpl; [done|].
  destruct (Z.ltb_spec (get_priority (plugin_class m)) (get_priority (plugin_class x)))
    as [Hlt|Hge].
  - simpl. destruct (has_priority k m) eqn:Hm; [|by rewrite app_nil_r].
    unfold has_priority in Hm. apply Z.eqb_eq in Hm.
    assert (Hnone : List.filter (has_priority k) (x :: rest) = []).
    { apply (proj2 (List.forallb_filter_id _ _)) || idtac.
      assert (Hall : Forall (fun y => has_priority k y = false) (x :: rest)).
      { constructor.
        - unfold has_priority. apply Z.eqb_neq. lia.
        - eapply Forall_impl; [exact Hx|]. unfold priority_le, has_priority.
          intros y Hy. simpl in Hy. apply Z.eqb_neq. lia. }
      clear -Hall. induction Hall as [|y l Hy _ IHl]; simpl; [done|]. by rewrite Hy. }
    simpl in Hnone. rewrite Hnone. done.
  - simpl. rewrite IH. by destruct (has_priority k x).
Qed.

Lemma fold_insert_by_priority plugins : forall acc,
  StronglySorted priority_le acc ->
  StronglySorted priority_le (fold_left (fun acc m => insert_by_priority m acc) plugins acc) /\
  fold_left (fun acc m => insert_by_priority m acc) plugins acc ≡ₚ acc ++ plugins /\
  forall k,
    List.filter (has_priority k) (fold_left (fun acc m => insert_by_priority m acc) plugins acc)
    = List.filter (has_priority k) acc ++ List.filter (has_priority k) plugins.
Proof.
  induction plugins as [|m plugins IH]; intros acc Hacc; simpl.
  - split; [done|]. split; [by rewrite app_nil_r|]. intros k. by rewrite app_nil_r.
  - destruct (IH (insert_by_priority m acc)) as (Hs & Hp & Hf);
      [by apply insert_by_priority_sorted|].
    split; [done|]. split.
    + rewrite Hp, insert_by_priority_perm. simpl. apply Permutation_middle.
    + intros k. rewrite Hf, insert_by_priority_filter by done.
      simpl. destruct (has_priority k m); by rewrite <- app_assoc.
Qed.

(** The middleware chain is a rearrangement of what
    [get_plugins_by_type(MiddlewarePlugin)] returns (every plugin as many
    times as that list holds it), in non-decreasing priority value;
    plugins of equal priority keep the order they have in that list. *)
Theorem middleware_chain_sorted_stable r :
  StronglySorted priority_le (get_middleware_chain r) /\
  get_middleware_chain r ≡ₚ get_plugins_by_type r MiddlewarePlugin /\
  forall k,
    List.filter (has_priority k) (get_middleware_chain r)
    = List.filter (has_priority k) (get_plugins_by_type r MiddlewarePlugin).
Proof.
  unfold get_middleware_chain.
  destruct (fold_insert_by_priority (get_plugins_by_type r MiddlewarePlugin) [])
    as (Hs & Hp & Hf); [constructor|].
  done.
Qed.

(** A name can stand twice in a type list: a plugin that
    [_initialize_plugins] removed stays filed under its types, and loading
    a class of that name again files it once more.  The chain then holds
    the new plugin twice. *)
Definition middleware_class (name : string) (priority : Z) (failing : list Method)
    : PluginClass :=
  {| class_name := name; metadata_name := name; metadata_dependencies := [];
     bases := [MiddlewarePlugin]; construct_raises := false;
     raises := fun m => bool_decide (m ∈ failing);
     get_priority := priority;
     process_request := fun _ _ params => Ok params;
     process_response := fun _ _ response => Ok response;
     get_tool_name := ""; get_operations := [] |}.

Example chain_repeats_refiled_name :
  let r1 :=
    match discover_and_load no_environment
            (add_builtin_plugin new_registry (middleware_class "auth" 10 [OnLoad])) with
    | Some (Ok r) => r
    | _ => new_registry
    end in
  let r2 := _load_plugin_class r1 (middleware_class "auth" 10 []) None in
  get_plugin r1 "auth" = None /\
  _plugin_types r1 MiddlewarePlugin = ["auth"] /\
  _plugin_types r2 MiddlewarePlugin = ["auth"; "auth"] /\
  map (fun m => metadata_name (plugin_class m)) (get_middleware_chain r2) = ["auth"; "auth"].
Proof. vm_compute. repeat split; reflexivity. Qed.

(** *** Reloading *)

(** [reload_plugin] answers [True] exactly when the plugin is registered,
    its class can be instantiated again under the same name, and none of
    [on_unload], [teardown], [initialize], [on_load], [on_start] raises.
    When it answers [True] it made exactly these five calls, the plugin is
    registered as a new initialized instance with the configuration of the
    old one, and the other plugins are untouched. *)
Theorem reload_plugin_success r name :
  (fst (reload_plugin r name) = true <->
   exists p,
     get_plugin r name = Some p /\
     metadata_name (plugin_class p) = name /\
     construct_raises (plugin_class p) = false /\
     (forall m, m ∈ [OnUnload; Teardown; Initialize; OnLoad; OnStart] ->
        raises (plugin_class p) m = false)) /\
  (fst (reload_plugin r name) = true ->
   forall p, get_plugin r name = Some p ->
     calls (snd (reload_plugin r name))
     = calls r ++ [(name, OnUnload); (name, Teardown); (name, Initialize);
                   (name, OnLoad); (name, OnStart)] /\
     get_plugin (snd (reload_plugin r name)) name
     = Some (mkPlugin (plugin_class p) (config p) true) /\
     (forall n, n <> name ->
        get_plugin (snd (reload_plugin r name)) n = get_plugin r n)).
Proof.
  unfold reload_plugin, get_plugin.
  destruct (dict_get name (_plugins r)) as [p|] eqn:Hp.
  2: { split; [split; [done|]|done]. by intros (p & Hp' & _). }
  destruct (raises (plugin_class p) OnUnload) eqn:H1.
  { split; [split; [done|]|done]. intros (p' & [= <-] & _ & _ & Hr).
    rewrite Hr in H1; [done|]. set_solver. }
  destruct (raises (plugin_class p) Teardown) eqn:H2.
  { split; [split; [done|]|done]. intros (p' & [= <-] & _ & _ & Hr).
    rewrite Hr in H2; [done|]. set_solver. }
  unfold _load_plugin_class.
  destruct (construct_raises (plugin_class p)) eqn:Hc.
  { simpl. rewrite dict_get_del_eq. split; [split; [done|]|done].
    intros (p' & [= <-] & _ & ? & _). congruence. }
  simpl.
  assert (Hfree : dict_mem (metadata_name (plugin_class p)) (dict_del name (_plugins r))
                  = true -> metadata_name (plugin_class p) <> name).
  { intros Hm Heq. rewrite Heq in Hm. unfold dict_mem in Hm.
    by rewrite dict_get_del_eq in Hm. }
  destruct (dict_mem (metadata_name (plugin_class p)) (dict_del name (_plugins r))) eqn:Hm.
  { simpl. rewrite dict_get_del_eq. split; [split; [done|]|done].
    intros (p' & [= <-] & Hname & _). by destruct (Hfree eq_refl). }
  simpl.
  destruct (decide (metadata_name (plugin_class p) = name)) as [Hname|Hname].
  2: { rewrite dict_get_set_ne, dict_get_del_eq by done. split; [split; [done|]|done].
       by intros (p' & [= <-] & ? & _). }
  rewrite Hname, dict_get_set_eq. unfold initialize. simpl.
  destruct (raises (plugin_class p) Initialize) eqn:H3.
  { simpl. split; [split; [done|]|done]. intros (p' & [= <-] & _ & _ & Hr).
    rewrite Hr in H3; [done|]. set_solver. }
  simpl.
  destruct (raises (plugin_class p) OnLoad) eqn:H4.
  { simpl. split; [split; [done|]|done]. intros (p' & [= <-] & _ & _ & Hr).
    rewrite Hr in H4; [done|]. set_solver. }
  destruct (raises (plugin_class p) OnStart) eqn:H5.
  { simpl. split; [split; [done|]|done]. intros (p' & [= <-] & _ & _ & Hr).
    rewrite Hr in H5; [done|]. set_solver. }
  simpl. split.
  - split; [|done]. intros _. exists p.
    split; [done|]. split; [done|]. split; [done|].
    intros m Hm'. repeat (apply elem_of_cons in Hm' as [->|Hm']; [done|]).
    by apply elem_of_nil in Hm'.
  - intros _ p' [= <-].
    split; [by rewrite <- !app_assoc|].
    split; [by rewrite dict_get_set_eq|].
    intros n Hn. by rewrite !dict_get_set_ne, dict_get_del_ne.
Qed.

(** *** Operation handlers *)

(** [d.update(other)] read back: the entries of [other] come first. *)
Lemma dict_get_update {A} (k : string) (other : Dict A) : forall d,
  NoDup (dict_keys other) ->
  dict_get k (dict_update d other) =
  match dict_get k other with Some v => Some v | None => dict_get k d end.
Proof.
  unfold dict_update.
  induction other as [|[k0 v0] other IH]; intros d Hnd; [done|].
  change (dict_keys ((k0, v0) :: other)) with (k0 :: dict_keys other) in Hnd.
  apply NoDup_cons in Hnd as [Hk0 Hnd]. simpl. rewrite IH by done.
  destruct (String.eqb_spec k k0) as [->|Hne].
  - destruct (dict_get k0 other) as [v|] eqn:Hv.
    + destruct Hk0. apply dict_get_keys. by rewrite Hv.
    + by rewrite dict_get_set_eq.
  - rewrite dict_get_set_ne by done. done.
Qed.


(** Whether plugin [p] serves tool [tool_name] and defines operation [s]. *)
Definition provides (tool_name s : string) (p : Plugin) : bool :=
  String.eqb (get_tool_name (plugin_class p)) tool_name &&
  dict_mem s (get_operations (plugin_class p)).

Lemma fold_operation_handlers tool_name s plugins : forall handlers,
  (forall p, p ∈ plugins -> NoDup (dict_keys (get_operations (plugin_class p)))) ->
  dict_get s
    (fold_left
       (fun handlers plugin =>
          if String.eqb (get_tool_name (plugin_class plugin)) tool_name
          then dict_update handlers (get_operations (plugin_class plugin))
          else handlers)
       plugins handlers)
  = match List.find (provides tool_name s) (rev plugins) with
    | Some p => dict_get s (get_operations (plugin_class p))
    | None => dict_get s handlers
    end.
Proof.
  induction plugins as [|p plugins IH] using rev_ind; intros handlers Hnd; [done|].
  rewrite fold_left_app, rev_app_distr. simpl. unfold provides at 1.
  destruct (String.eqb (get_tool_name (plugin_class p)) tool_name) eqn:Ht; simpl.
  - rewrite dict_get_update by (apply Hnd, elem_of_app; right; by left).
    unfold dict_mem.
    destruct (dict_get s (get_operations (plugin_class p))) as [h|] eqn:Hs; [done|].
    apply IH. intros q Hq. apply Hnd, elem_of_app. by left.
  - apply IH. intros q Hq. apply Hnd, elem_of_app. by left.
Qed.

(** The handler [get_operation_handlers] gives for an operation of a tool
    is the one of the operation plugin filed last among those that serve
    the tool and define the operation: a later plugin overrides an earlier
    one, and an operation no such plugin defines has no handler. *)
Theorem later_operation_plugin_wins r tool_name s :
  (forall p, p ∈ get_plugins_by_type r OperationPlugin ->
     NoDup (dict_keys (get_operations (plugin_class p)))) ->
  dict_get s (get_operation_handlers r tool_name)
  = match List.find (provides tool_name s) (rev (get_plugins_by_type r OperationPlugin)) with
    | Some p => dict_get s (get_operations (plugin_class p))
    | None => None
    end.
Proof.
  intros Hnd. unfold get_operation_handlers.
  by rewrite fold_operation_handlers.
Qed.

(** Two operation plugins of the tool [mem0_memory] that both define
    [search]. *)
Definition operation_class (name : string) (ops : Dict OperationHandler) : PluginClass :=
  {| class_name := name; metadata_name := name; metadata_dependencies := [];
     bases := [OperationPlugin]; construct_raises := false;
     raises := fun _ => false;
     get_priority := 100;
     process_request := fun _ _ params => Ok params;
     process_response := fun _ _ response => Ok response;
     get_tool_name := "mem0_memory"; get_operations := ops |}.

Definition search_registry : PluginRegistry :=
  load_classes new_registry
    [operation_class "basic_search" [("search", fun _ _ => Ok (VStr "basic"))];
     operation_class "vector_search"
       [("search", fun _ _ => Ok (VStr "vector")); ("rank", fun _ _ => Ok (VStr "rank"))]].

Lemma later_operation_plugin_wins_witness :
  (fun h => h (mkContext "mem0_memory" (VStr "search") None None) [])
    <$> dict_get "search" (get_operation_handlers search_registry "mem0_memory")
  = Some (Ok (VStr "vector")).
Proof.
  rewrite (later_operation_plugin_wins search_registry "mem0_memory" "search").
  - vm_compute. reflexivity.
  - intros p Hp. vm_compute in Hp.
    repeat (apply elem_of_cons in Hp as [->|Hp];
            [vm_compute; repeat constructor; set_solver|]).
    by apply elem_of_nil in Hp.
Defined.


(** *** A dependency chain deeper than the recursion limit *)

(** The plugins [p0], [p1], ..., [pn], each depending on the next: an
    acyclic chain of [n + 1] plugins. *)
Definition chain_name (i : nat) : string := String.append "p" (pretty i).
Arguments chain_name : simpl never.

Definition chain_dependencies (n i : nat) : list string :=
  if Nat.ltb i n then [chain_name (S i)] else [].

Definition chain_class (n i : nat) : PluginClass :=
  simple_class (chain_name i) (chain_dependencies n i) [].

Definition chain_registry (n : nat) : PluginRegistry :=
  fold_left add_builtin_plugin (map (chain_class n) (seq 0 (S n))) new_registry.

(** Nothing to import, and [limit] nested calls of [visit] left. *)
Definition limited_environment (limit : nat) : Environment :=
  {| plugins_in_path := fun _ => None; plugins_in_module := fun _ => None;
     recursion_limit := limit |}.

Definition chain_entry (n i : nat) : string * Plugin :=
  (chain_name i, mkPlugin (chain_class n i) [] false).

Lemma chain_name_inj i j : chain_name i = chain_name j -> i = j.
Proof.
  unfold chain_name. intros H. cbv [String.append] in H.
  injection H as H. by apply (inj pretty) in H.
Qed.

Lemma dict_get_cons {A} (k k' : string) (v : A) (d : Dict A) :
  dict_get k ((k', v) :: d) = if String.eqb k k' then Some v else dict_get k d.
Proof. reflexivity. Qed.

Lemma chain_get {A} (f : nat -> A) i len : forall start,
  dict_get (chain_name i) (map (fun j => (chain_name j, f j)) (seq start len))
  = if bool_decide (start <= i < start + len) then Some (f i) else None.
Proof.
  induction len as [|len IH]; intros start.
  - simpl. rewrite bool_decide_eq_false_2 by lia. done.
  - change (seq start (S len)) with (start :: seq (S start) len).
    rewrite map_cons, dict_get_cons.
    destruct (String.eqb_spec (chain_name i) (chain_name start)) as [Heq|Hne].
    + apply chain_name_inj in Heq. subst start.
      rewrite bool_decide_eq_true_2 by lia. done.
    + rewrite IH. assert (i <> start) by (by intros ->).
      destruct (bool_decide (S start <= i < S start + len)) eqn:Hb.
      * apply bool_decide_eq_true_1 in Hb. rewrite bool_decide_eq_true_2 by lia. done.
      * apply bool_decide_eq_false_1 in Hb. rewrite bool_decide_eq_false_2 by lia. done.
Qed.

Lemma chain_get_inv {A} (f : nat -> A) a v len : forall start,
  dict_get a (map (fun j => (chain_name j, f j)) (seq start len)) = Some v ->
  exists j, a = chain_name j /\ v = f j.
Proof.
  induction len as [|len IH]; intros start; [done|].
  change (seq start (S len)) with (start :: seq (S start) len).
  rewrite map_cons, dict_get_cons.
  destruct (String.eqb_spec a (chain_name start)) as [->|Hne].
  - intros [= <-]. by exists start.
  - apply IH.
Qed.

Lemma fold_add_builtin_plugin classes : forall r,
  _plugins (fold_left add_builtin_plugin classes r) = _plugins r /\
  _plugin_paths (fold_left add_builtin_plugin classes r) = _plugin_paths r /\
  _plugin_modules (fold_left add_builtin_plugin classes r) = _plugin_modules r /\
  _builtin_plugins (fold_left add_builtin_plugin classes r) = _builtin_plugins r ++ classes.
Proof.
  induction classes as [|cls classes IH]; intros r; simpl.
  - by rewrite app_nil_r.
  - destruct (IH (add_builtin_plugin r cls)) as (H1 & H2 & H3 & H4).
    rewrite H1, H2, H3, H4. simpl. by rewrite <- app_assoc.
Qed.

Lemma load_chain_class n start r :
  dict_mem (chain_name start) (_plugins r) = false ->
  _plugins (_load_plugin_class r (chain_class n start) None)
  = _plugins r ++ [chain_entry n start] /\
  _plugin_paths (_load_plugin_class r (chain_class n start) None) = _plugin_paths r /\
  _plugin_modules (_load_plugin_class r (chain_class n start) None) = _plugin_modules r.
Proof.
  intros Hfree. unfold _load_plugin_class.
  change (construct_raises (chain_class n start)) with false.
  change (metadata_name (chain_class n start)) with (chain_name start).
  cbv iota. rewrite Hfree. cbv iota.
  split; [|done]. change (_plugins (set_plugin_types ?r0 ?t)) with (_plugins r0).
  change (_plugins (set_plugins ?r0 ?d)) with d.
  by rewrite dict_set_absent.
Qed.

Lemma load_chain_classes n len : forall start r,
  (forall j, start <= j -> dict_mem (chain_name j) (_plugins r) = false) ->
  _plugins (load_classes r (map (chain_class n) (seq start len)))
  = _plugins r ++ map (chain_entry n) (seq start len) /\
  _plugin_paths (load_classes r (map (chain_class n) (seq start len))) = _plugin_paths r /\
  _plugin_modules (load_classes r (map (chain_class n) (seq start len))) = _plugin_modules r.
Proof.
  unfold load_classes.
  induction len as [|len IH]; intros start r Hfree.
  - simpl. by rewrite app_nil_r.
  - change (seq start (S len)) with (start :: seq (S start) len).
    rewrite !map_cons. simpl fold_left.
    destruct (load_chain_class n start r) as (S1 & S2 & S3); [apply Hfree; lia|].
    destruct (IH (S start) (_load_plugin_class r (chain_class n start) None))
      as (H1 & H2 & H3).
    { intros j Hj. rewrite S1. unfold dict_mem. rewrite dict_get_app.
      specialize (Hfree j ltac:(lia)). unfold dict_mem in Hfree.
      destruct (dict_get (chain_name j) (_plugins r)); [done|].
      unfold chain_entry. rewrite dict_get_cons.
      destruct (String.eqb_spec (chain_name j) (chain_name start)) as [Heq|]; [|done].
      apply chain_name_inj in Heq. lia. }
    rewrite H1, H2, H3, S1, S2, S3. by rewrite <- app_assoc.
Qed.

Lemma chain_plugins limit n :
  _plugins (load_all (limited_environment limit) (chain_registry n))
  = map (chain_entry n) (seq 0 (S n)).
Proof.
  unfold load_all, chain_registry.
  destruct (fold_add_builtin_plugin (map (chain_class n) (seq 0 (S n))) new_registry)
    as (Hp & Hpaths & Hmods & Hb).
  rewrite Hb. change (_builtin_plugins new_registry ++ ?l) with l.
  destruct (load_chain_classes n (S n) 0
              (fold_left add_builtin_plugin (map (chain_class n) (seq 0 (S n))) new_registry))
    as (H1 & H2 & H3).
  { intros j _. by rewrite Hp. }
  rewrite H2, Hpaths.
  change (fold_left (_discover_plugins_in_path (limited_environment limit))
            (_plugin_paths new_registry) ?x) with x.
  rewrite H3, Hmods.
  change (fold_left (_discover_plugins_in_module (limited_environment limit))
            (_plugin_modules new_registry) ?x) with x.
  rewrite H1, Hp. done.
Qed.

Lemma chain_keys_NoDup n : NoDup (dict_keys (map (chain_entry n) (seq 0 (S n)))).
Proof.
  unfold dict_keys. rewrite map_map.
  change (map (fun x => fst (chain_entry n x)) (seq 0 (S n)))
    with (chain_name <$> seq 0 (S n)).
  assert (Hinj : Inj (=) (=) chain_name) by (intros i j; apply chain_name_inj).
  apply NoDup_fmap_2; [exact Hinj|apply NoDup_seq].
Qed.

Definition chain_graph (n : nat) : Dict (list string) :=
  map (fun j => (chain_name j, chain_dependencies n j)) (seq 0 (S n)).

Lemma chain_dependency_graph n :
  dependency_graph (map (chain_entry n) (seq 0 (S n))) = chain_graph n.
Proof.
  rewrite dependency_graph_map by apply chain_keys_NoDup.
  unfold chain_graph. rewrite map_map. done.
Qed.

Lemma visit_S depth graph node st :
  visit (S depth) graph node st =
  if bool_decide (node ∈ fst st) then Some st
  else
    match visit_deps (visit depth graph) graph (graph_get graph node)
            ({[node]} ∪ fst st, snd st) with
    | None => None
    | Some (visited, stack) => Some (visited, stack ++ [node])
    end.
Proof. reflexivity. Qed.

Lemma visit_deps_cons visit_ graph dep rest st :
  visit_deps visit_ graph (dep :: rest) st =
  if dict_mem dep graph then
    match visit_ dep st with
    | None => None
    | Some st' => visit_deps visit_ graph rest st'
    end
  else visit_deps visit_ graph rest st.
Proof. reflexivity. Qed.

Lemma chain_graph_get n i :
  i <= n -> dict_get (chain_name i) (chain_graph n) = Some (chain_dependencies n i).
Proof.
  intros Hi. unfold chain_graph. rewrite chain_get.
  by rewrite bool_decide_eq_true_2 by lia.
Qed.

(** With [depth] nested calls left, [visit] raises on a plugin that has at
    least [depth] plugins of the chain below it. *)
Lemma chain_visit_overflow n depth : forall i visited stack,
  depth + i <= n ->
  (forall j, i <= j -> chain_name j ∉ visited) ->
  visit depth (chain_graph n) (chain_name i) (visited, stack) = None.
Proof.
  induction depth as [|depth IH]; intros i visited stack Hle Hfresh; [done|].
  rewrite visit_S. simpl fst; simpl snd.
  rewrite bool_decide_eq_false_2 by (apply Hfresh; lia).
  unfold graph_get. rewrite chain_graph_get by lia. simpl default.
  unfold chain_dependencies. rewrite (proj2 (Nat.ltb_lt i n)) by lia.
  rewrite visit_deps_cons. unfold dict_mem. rewrite chain_graph_get by lia.
  rewrite IH; [done|lia|].
  intros j Hj. specialize (Hfresh j ltac:(lia)).
  intros [Hin|Hin]%elem_of_union; [|done].
  apply elem_of_singleton in Hin. apply chain_name_inj in Hin. lia.
Qed.

Lemma chain_declares n a b :
  declares (map (chain_entry n) (seq 0 (S n))) a b ->
  exists i, a = chain_name i /\ b = chain_name (S i).
Proof.
  intros (p & Hp & Hd & _).
  apply (chain_get_inv (fun j => mkPlugin (chain_class n j) [] false)) in Hp
    as (j & -> & ->).
  exists j. split; [done|]. simpl in Hd. unfold chain_dependencies in Hd.
  destruct (Nat.ltb j n); [|by apply elem_of_nil in Hd].
  by apply list_elem_of_singleton in Hd.
Qed.

Lemma chain_acyclic n m : ~ tc (declares (map (chain_entry n) (seq 0 (S n)))) m m.
Proof.
  assert (Hup : forall a b, tc (declares (map (chain_entry n) (seq 0 (S n)))) a b ->
                  exists i j, i < j /\ a = chain_name i /\ b = chain_name j).
  { induction 1 as [a b Hab|a b c Hab _ IH].
    - apply chain_declares in Hab as (i & -> & ->). exists i, (S i). by split; [lia|].
    - apply chain_declares in Hab as (i & -> & ->).
      destruct IH as (i' & j & Hlt & Hi & ->). apply chain_name_inj in Hi. subst i'.
      exists i, j. split; [lia|done]. }
  intros Htc. destruct (Hup m m Htc) as (i & j & Hlt & -> & Heq).
  apply chain_name_inj in Heq. lia.
Qed.

(** A chain of [n + 1] plugins overflows [limit] nested calls whenever
    [limit <= n]: [discover_and_load] raises [RecursionError]. *)
Lemma chain_overflows limit n :
  limit <= n ->
  discover_and_load (limited_environment limit) (chain_registry n) = None.
Proof.
  intros Hle. unfold discover_and_load, _resolve_dependencies.
  rewrite chain_plugins, chain_dependency_graph.
  change (recursion_limit (limited_environment limit)) with limit.
  unfold _topological_sort.
  change (dict_keys (chain_graph n))
    with (chain_name 0 :: dict_keys (map (fun j => (chain_name j, chain_dependencies n j))
                                       (seq 1 n))).
  simpl visit_all. rewrite chain_visit_overflow; [done|lia|].
  intros j _. apply not_elem_of_empty.
Qed.


End Registry.

(** ** Operation dispatcher ([server.py]) *)

Module Server.

(** What the dispatcher makes happen outside itself, apart from the event
    it emits (which the event bus records). *)
Inductive Effect : Type :=
  | RequestProcessed (middleware : string)
  | HandlerCalled (operation : string)
  | ResponseProcessed (middleware : string).

(** The part of [class Mem0MCPServer] the dispatcher works on.  [effects]
    is a ghost field: the middleware and handler calls made so far. *)
Record Mem0MCPServer : Type := mkServer {
  plugin_registry : Registry.PluginRegistry;
  event_bus : EventBus.EventBus;
  effects : list Effect
}.

(** A tool module: [TOOL_NAME] and, when it has that function, what
    [get_builtin_operations()] returns. *)
Record ToolModule : Type := mkToolModule {
  TOOL_NAME : string;
  get_builtin_operations : option (Dict Registry.OperationHandler)
}.

(** The [operation_handlers] dictionary [_register_tool_with_operations]
    builds and the handler closure keeps: the handlers contributed by
    plugins, updated with the built-in ones. *)
Definition merged_operation_handlers (srv : Mem0MCPServer) (tool_module : ToolModule)
    : Dict Registry.OperationHandler :=
  let operation_handlers :=
    Registry.get_operation_handlers (plugin_registry srv) (TOOL_NAME tool_module) in
  match get_builtin_operations tool_module with
  | Some builtin_ops => dict_update operation_handlers builtin_ops
  | None => operation_handlers
  end.

(** [str(v)] for the values an operation name can be. *)
Definition to_str (v : Value) : string :=
  match v with
  | VNone => "None"
  | VBool true => "True"
  | VBool false => "False"
  | VInt z => pretty z
  | VStr s => s
  | VList _ => "[...]"
  | VDict _ => "{...}"
  end.

(** [operation not in operation_handlers]: a list or a dictionary is not
    hashable and makes the test raise. *)
Definition not_in_handlers (operation : Value) (operation_handlers : Dict Registry.OperationHandler)
    : Result string bool :=
  match operation with
  | VStr s => Ok (negb (dict_mem s operation_handlers))
  | VList _ | VDict _ => Err "TypeError: unhashable type"
  | _ => Ok true
  end.

(** [operation_handlers[operation]], once the membership test has passed. *)
Definition handler_for (operation : Value) (operation_handlers : Dict Registry.OperationHandler)
    : option Registry.OperationHandler :=
  match operation with
  | VStr s => dict_get s operation_handlers
  | _ => None
  end.

Definition optional (v : option Value) : Value := default VNone v.

Definition context_value (context : Registry.OperationContext) : Value :=
  VDict [("tool_name", VStr (Registry.ctx_tool_name context));
         ("operation_name", Registry.ctx_operation_name context);
         ("user_id", optional (Registry.ctx_user_id context));
         ("session_id", optional (Registry.ctx_session_id context))].

Definition log_effect (srv : Mem0MCPServer) (e : Effect) : Mem0MCPServer :=
  {| plugin_registry := plugin_registry srv; event_bus := event_bus srv;
     effects := effects srv ++ [e] |}.

(** The request loop: [process_request] of each middleware, in chain order. *)
Fixpoint apply_requests (chain : list Registry.Plugin) (tool_name : string)
    (operation : Value) (kwargs : Dict Value) (srv : Mem0MCPServer)
    : Result string (Dict Value) * Mem0MCPServer :=
  match chain with
  | [] => (Ok kwargs, srv)
  | middleware :: rest =>
      let cls := Registry.plugin_class middleware in
      let srv' := log_effect srv (RequestProcessed (Registry.metadata_name cls)) in
      match Registry.process_request cls tool_name operation kwargs with
      | Err e => (Err e, srv')
      | Ok kwargs' => apply_requests rest tool_name operation kwargs' srv'
      end
  end.

(** The response loop: [process_response] of each middleware of the given
    (reversed) chain. *)
Fixpoint apply_responses (chain : list Registry.Plugin) (tool_name : string)
    (operation : Value) (result : Value) (srv : Mem0MCPServer)
    : Result string Value * Mem0MCPServer :=
  match chain with
  | [] => (Ok result, srv)
  | middleware :: rest =>
      let cls := Registry.plugin_class middleware in
      let srv' := log_effect srv (ResponseProcessed (Registry.metadata_name cls)) in
      match Registry.process_response cls tool_name operation result with
      | Err e => (Err e, srv')
      | Ok result' => apply_responses rest tool_name operation result' srv'
      end
  end.

Definition error_payload (message : string) : Value := VDict [("error", VStr message)].

(** The closure [tool_handler] of [_register_tool_with_operations], called
    with keyword arguments [kwargs]; [Err] is an exception that escapes. *)
Definition tool_handler (rt : EventBus.Runtime) (tool_name : string)
    (operation_handlers : Dict Registry.OperationHandler)
    (srv : Mem0MCPServer) (kwargs : Dict Value) : Result string Value * Mem0MCPServer :=
  let operation := optional (dict_get "operation" kwargs) in
  if negb (truthy operation) then
    (Ok (error_payload "Operation parameter is required"), srv)
  else
    match not_in_handlers operation operation_handlers with
    | Err e => (Err e, srv)
    | Ok true =>
        (Ok (error_payload (String.append "Unknown operation: " (to_str operation))), srv)
    | Ok false =>
        let context :=
          Registry.mkContext tool_name operation (dict_get "user_id" kwargs)
            (dict_get "session_id" kwargs) in
        let chain := Registry.get_middleware_chain (plugin_registry srv) in
        match apply_requests chain tool_name operation kwargs srv with
        | (Err e, srv1) => (Err e, srv1)
        | (Ok kwargs1, srv1) =>
            match handler_for operation operation_handlers with
            | None => (Err "KeyError", srv1)
            | Some handler =>
                let srv2 := log_effect srv1 (HandlerCalled (to_str operation)) in
                match handler context kwargs1 with
                | Err e => (Err e, srv2)
                | Ok result =>
                    let chain' := rev (Registry.get_middleware_chain (plugin_registry srv2)) in
                    match apply_responses chain' tool_name operation result srv2 with
                    | (Err e, srv3) => (Err e, srv3)
                    | (Ok result', srv3) =>
                        let topic :=
                          String.append "tool."
                            (String.append tool_name
                               (String.append "." (to_str operation))) in
                        let '(emitted, bus') :=
                          EventBus.emit rt (event_bus srv3) topic
                            [("params", VDict kwargs1); ("result", result');
                             ("context", context_value context)]
                            None [] in
                        let srv4 :=
                          {| plugin_registry := plugin_registry srv3; event_bus := bus';
                             effects := effects srv3 |} in
                        match emitted with
                        | Err _ => (Err "ValueError", srv4)
                        | Ok _ => (Ok result', srv4)
                        end
                    end
                end
            end
        end
    end.

(** C9. When the [operation] argument is absent (or [None]), or is a
    string that is no key of the merged operation handlers, the dispatcher
    returns an error payload that says which of the two it was, and the
    server is left exactly as it was: no middleware call, no handler call,
    nothing emitted on the event bus. *)
Theorem unknown_operation_has_no_effect rt srv tool_module kwargs :
  let operation_handlers := merged_operation_handlers srv tool_module in
  (dict_get "operation" kwargs = None \/
   dict_get "operation" kwargs = Some VNone \/
   exists s, dict_get "operation" kwargs = Some (VStr s) /\
             dict_mem s operation_handlers = false) ->
  exists message,
    tool_handler rt (TOOL_NAME tool_module) operation_handlers srv kwargs
      = (Ok (error_payload message), srv) /\
    match dict_get "operation" kwargs with
    | Some (VStr s) =>
        if String.eqb s "" then message = "Operation parameter is required"
        else message = String.append "Unknown operation: " s
    | _ => message = "Operation parameter is required"
    end.
Proof.
  intros operation_handlers [Hop|[Hop|(s & Hop & Hmem)]]; unfold tool_handler; rewrite Hop.
  - by eexists.
  - by eexists.
  - simpl. destruct (String.eqb s "") eqn:Hs; simpl; [by eexists|].
    rewrite Hmem. simpl. by eexists.
Qed.

(** *** Scenario 5 of the specification *)

(** A middleware plugin that passes requests and responses through. *)
Definition logging_middleware : Registry.PluginClass :=
  {| Registry.class_name := "LoggingMiddleware";
     Registry.metadata_name := "logging_middleware";
     Registry.metadata_dependencies := [];
     Registry.bases := [Registry.MiddlewarePlugin];
     Registry.construct_raises := false;
     Registry.raises := fun _ => false;
     Registry.get_priority := 10;
     Registry.process_request := fun _ _ params => Ok params;
     Registry.process_response := fun _ _ response => Ok response;
     Registry.get_tool_name := "";
     Registry.get_operations := [] |}.

Definition mem0_memory : ToolModule :=
  {| TOOL_NAME := "mem0_memory";
     get_builtin_operations :=
       Some [("add", fun _ _ => Ok (VDict [("status", VStr "success")]))] |}.

Definition demo_server : Mem0MCPServer :=
  {| plugin_registry :=
       match Registry.discover_and_load Registry.no_environment
               (Registry.add_builtin_plugin Registry.new_registry logging_middleware) with
       | Some (Ok r) => r
       | _ => Registry.new_registry
       end;
     event_bus := EventBus.new_bus 1000;
     effects := [] |}.

Lemma unknown_operation_has_no_effect_witness :
  dict_mem "nonexistent_op" (merged_operation_handlers demo_server mem0_memory) = false /\
  tool_handler EventBus.echo_rt "mem0_memory"
    (merged_operation_handlers demo_server mem0_memory) demo_server
    [("operation", VStr "nonexistent_op")]
  = (Ok (error_payload "Unknown operation: nonexistent_op"), demo_server).
Proof.
  split; [reflexivity|].
  destruct (unknown_operation_has_no_effect EventBus.echo_rt demo_server mem0_memory
              [("operation", VStr "nonexistent_op")]) as (message & Hrun & Hmsg).
  - right. right. exists "nonexistent_op". split; reflexivity.
  - simpl in Hmsg. subst message. exact Hrun.
Defined.

(** A known operation goes through the middleware, the handler and the
    event bus. *)
Example known_operation_effects :
  let run :=
    tool_handler EventBus.echo_rt "mem0_memory"
      (merged_operation_handlers demo_server mem0_memory) demo_server
      [("operation", VStr "add")] in
  fst run = Ok (VDict [("status", VStr "success")]) /\
  effects (snd run) =
    [RequestProcessed "logging_middleware"; HandlerCalled "add";
     ResponseProcessed "logging_middleware"] /\
  map EventBus.ev_name (EventBus._history (event_bus (snd run))) = ["tool.mem0_memory.add"].
Proof. vm_compute. repeat split; reflexivity. Qed.


(** *** The dispatch pipeline *)

(** The names of the middleware chain, in chain order. *)
Definition chain_names (srv : Mem0MCPServer) : list string :=
  map (fun m => Registry.metadata_name (Registry.plugin_class m))
    (Registry.get_middleware_chain (plugin_registry srv)).

(** The calls of a dispatch that runs to its end: every middleware on the
    request in chain order, the handler, every middleware on the response
    in the opposite order. *)
Definition full_pipeline (srv : Mem0MCPServer) (s : string) : list Effect :=
  map RequestProcessed (chain_names srv) ++ [HandlerCalled s] ++
  map ResponseProcessed (rev (chain_names srv)).

Lemma apply_requests_frame chain tool_name operation : forall kwargs srv r srv',
  apply_requests chain tool_name operation kwargs srv = (r, srv') ->
  plugin_registry srv' = plugin_registry srv /\ event_bus srv' = event_bus srv /\
  forall kwargs', r = Ok kwargs' ->
    effects srv' = effects srv ++
      map (fun m => RequestProcessed (Registry.metadata_name (Registry.plugin_class m))) chain.
Proof.
  induction chain as [|m chain IH]; intros kwargs srv r srv'; simpl.
  - intros [= <- <-]. by rewrite app_nil_r.
  - destruct (Registry.process_request _ _ _ _) as [kwargs1|e].
    + intros Hrun. apply IH in Hrun as (Hr & Hb & He). simpl in *.
      split; [done|]. split; [done|]. intros kwargs' Hk.
      rewrite (He kwargs' Hk). by rewrite <- app_assoc.
    + intros [= <- <-]. simpl. split; [done|]. split; [done|]. done.
Qed.

Lemma apply_responses_frame chain tool_name operation : forall result srv r srv',
  apply_responses chain tool_name operation result srv = (r, srv') ->
  plugin_registry srv' = plugin_registry srv /\ event_bus srv' = event_bus srv /\
  forall result', r = Ok result' ->
    effects srv' = effects srv ++
      map (fun m => ResponseProcessed (Registry.metadata_name (Registry.plugin_class m))) chain.
Proof.
  induction chain as [|m chain IH]; intros result srv r srv'; simpl.
  - intros [= <- <-]. by rewrite app_nil_r.
  - destruct (Registry.process_response _ _ _ _) as [result1|e].
    + intros Hrun. apply IH in Hrun as (Hr & Hb & He). simpl in *.
      split; [done|]. split; [done|]. intros result' Hk.
      rewrite (He result' Hk). by rewrite <- app_assoc.
    + intros [= <- <-]. simpl. split; [done|]. split; [done|]. done.
Qed.

(** What a dispatch that got as far as [emit] has done. *)
Definition dispatched (rt : EventBus.Runtime) (tool_name : string) (srv srv' : Mem0MCPServer)
    (s : string) : Prop :=
  plugin_registry srv' = plugin_registry srv /\
  effects srv' = effects srv ++ full_pipeline srv s /\
  exists data,
    event_bus srv' =
    snd (EventBus.emit rt (event_bus srv)
           (String.append "tool." (String.append tool_name (String.append "." s)))
           data None []).

Lemma tool_handler_cases rt tool_name operation_handlers srv kwargs :
  let run := tool_handler rt tool_name operation_handlers srv kwargs in
  (plugin_registry (snd run) = plugin_registry srv /\
   event_bus (snd run) = event_bus srv /\
   forall result, fst run = Ok result ->
     snd run = srv /\ exists message, result = error_payload message) \/
  exists s, dict_get "operation" kwargs = Some (VStr s) /\
            dict_mem s operation_handlers = true /\
            dispatched rt tool_name srv (snd run) s.
Proof.
  unfold tool_handler.
  destruct (negb (truthy (optional (dict_get "operation" kwargs)))) eqn:Htruthy.
  { left. simpl. split; [done|]. split; [done|].
    intros result [= <-]. split; [done|by eexists]. }
  destruct (not_in_handlers _ _) as [[|]|e] eqn:Hnot.
  { left. simpl. split; [done|]. split; [done|].
    intros result [= <-]. split; [done|by eexists]. }
  2: { left. simpl. split; [done|]. split; [done|]. done. }
  assert (Hop : exists s, dict_get "operation" kwargs = Some (VStr s) /\
                          dict_mem s operation_handlers = true).
  { unfold not_in_handlers, optional in Hnot.
    destruct (dict_get "operation" kwargs) as [[| | |s| |]|]; simpl in Hnot; try done.
    exists s. split; [done|]. injection Hnot as Hnot. by apply negb_false_iff in Hnot. }
  destruct Hop as (s & Hop & Hmem). rewrite Hop. simpl optional.
  destruct (apply_requests _ _ _ _ _) as [[kwargs1|e] srv1] eqn:Hreq.
  2: { left. apply apply_requests_frame in Hreq as (Hr & Hb & _). simpl.
       split; [done|]. split; [done|]. done. }
  apply apply_requests_frame in Hreq as (Hr1 & Hb1 & He1). specialize (He1 _ eq_refl).
  destruct (handler_for _ _) as [handler|].
  2: { left. simpl. split; [done|]. split; [done|]. done. }
  destruct (handler _ _) as [result|e].
  2: { left. simpl. split; [done|]. split; [done|]. done. }
  destruct (apply_responses _ _ _ _ _) as [[result'|e] srv3] eqn:Hresp.
  2: { left. apply apply_responses_frame in Hresp as (Hr & Hb & _). simpl in *.
       split; [congruence|]. split; [congruence|]. done. }
  apply apply_responses_frame in Hresp as (Hr3 & Hb3 & He3). specialize (He3 _ eq_refl).
  simpl in Hr3, Hb3, He3.
  right. exists s. split; [done|]. split; [done|].
  destruct (EventBus.emit _ _ _ _ _ _) as [emitted bus'] eqn:Hemit.
  assert (Hdone : dispatched rt tool_name srv
            {| plugin_registry := plugin_registry srv3; event_bus := bus';
               effects := effects srv3 |} s).
  { split; [simpl; congruence|]. split.
    - simpl. rewrite He3, He1. unfold full_pipeline, chain_names.
      rewrite Hr1, <- !app_assoc, !map_rev, !map_map. done.
    - eexists. rewrite Hb3, Hb1 in Hemit. simpl to_str in Hemit. by rewrite Hemit. }
  destruct emitted; simpl; exact Hdone.
Qed.

(** A dispatch changes the event bus only at its very end: whenever the
    bus is not left as it was, the dispatch ran every middleware on the
    request in chain order, then the handler of the operation, then every
    middleware on the response in the opposite order, and the change is
    that of emitting the event named after the tool and the operation.  A
    middleware or handler that raises therefore leaves no event. *)
Theorem event_only_after_full_pipeline rt tool_name operation_handlers srv kwargs :
  let run := tool_handler rt tool_name operation_handlers srv kwargs in
  event_bus (snd run) = event_bus srv \/
  exists s, dict_get "operation" kwargs = Some (VStr s) /\
            dict_mem s operation_handlers = true /\
            dispatched rt tool_name srv (snd run) s.
Proof.
  intros run.
  destruct (tool_handler_cases rt tool_name operation_handlers srv kwargs)
    as [(_ & Hb & _)|Hd]; [by left|by right].
Qed.

(** A dispatch that returns something other than an error payload ran the
    whole pipeline, once, and emitted the event of the operation. *)
Theorem returned_result_ran_pipeline rt tool_name operation_handlers srv kwargs result srv' :
  tool_handler rt tool_name operation_handlers srv kwargs = (Ok result, srv') ->
  (forall message, result <> error_payload message) ->
  exists s, dict_get "operation" kwargs = Some (VStr s) /\
            dict_mem s operation_handlers = true /\
            dispatched rt tool_name srv srv' s.
Proof.
  intros Hrun Hresult.
  destruct (tool_handler_cases rt tool_name operation_handlers srv kwargs)
    as [(_ & _ & Hpayload)|Hd].
  - rewrite Hrun in Hpayload. destruct (Hpayload result eq_refl) as (_ & message & ->).
    by destruct (Hresult message).
  - by rewrite Hrun in Hd.
Qed.

Lemma returned_result_ran_pipeline_witness :
  exists srv' s,
    dict_get "operation" [("operation", VStr "add")] = Some (VStr s) /\
    dict_mem s (merged_operation_handlers demo_server mem0_memory) = true /\
    dispatched EventBus.echo_rt "mem0_memory" demo_server srv' s.
Proof.
  eexists.
  apply (returned_result_ran_pipeline EventBus.echo_rt "mem0_memory"
           (merged_operation_handlers demo_server mem0_memory) demo_server
           [("operation", VStr "add")] (VDict [("status", VStr "success")])).
  - vm_compute. reflexivity.
  - intros message. unfold error_payload. discriminate.
Defined.

(** The built-in operations of a tool module take precedence: a plugin
    cannot replace the handler of a built-in operation, it can only add
    operations the module does not have. *)
Theorem builtin_operations_override srv tool_module builtin_ops s :
  get_builtin_operations tool_module = Some builtin_ops ->
  NoDup (dict_keys builtin_ops) ->
  dict_get s (merged_operation_handlers srv tool_module)
  = match dict_get s builtin_ops with
    | Some handler => Some handler
    | None =>
        dict_get s
          (Registry.get_operation_handlers (plugin_registry srv) (TOOL_NAME tool_module))
    end.
Proof.
  intros Hops Hnd. unfold merged_operation_handlers. rewrite Hops.
  by apply Registry.dict_get_update.
Qed.

Lemma builtin_operations_override_witness :
  (fun h => h (Registry.mkContext "mem0_memory" (VStr "add") None None) [])
    <$> dict_get "add" (merged_operation_handlers demo_server mem0_memory)
  = Some (Ok (VDict [("status", VStr "success")])).
Proof.
  rewrite (builtin_operations_override demo_server mem0_memory
             [("add", fun _ _ => Ok (VDict [("status", VStr "success")]))] "add").
  - reflexivity.
  - reflexivity.
  - repeat constructor. set_solver.
Defined.

End Server.

(** ** Configuration ([config_manager.py]) *)

Module Config.

(** [key.split(".")]: the parts between the dots, at least one. *)
Fixpoint split_dots (key : string) : list string :=
  match key with
  | EmptyString => [""]
  | String c rest =>
      if String.eqb (String c "") "." then "" :: split_dots rest
      else match split_dots rest with
           | part :: parts => String c part :: parts
           | [] => [String c ""]
           end
  end.

(** The part of [class ConfigManager] that [get], [set] and the merge of
    [load] work on.  [notifications] is a ghost field: how many times
    [set] has scheduled [_notify_listeners] (it is called from inside a
    running event loop). *)
Record ConfigManager : Type := mkConfig {
  _config : Dict Value;
  notifications : nat
}.

(** The loop of [ConfigManager.get] over the parts of the key. *)
Fixpoint get_parts (parts : list string) (value default : Value) : Value :=
  match parts with
  | [] => value
  | part :: rest =>
      match value with
      | VDict d =>
          match dict_get part d with
          | Some v => get_parts rest v default
          | None => default
          end
      | _ => default
      end
  end.

(** [ConfigManager.get] *)
Definition get (cm : ConfigManager) (key : string) (default : Value) : Value :=
  get_parts (split_dots key) (VDict (_config cm)) default.

(** The loop and the final assignment of [ConfigManager.set], on the
    dictionary [config] the loop has reached.  A part that is present
    with a value other than a dictionary makes the next membership test,
    subscript or assignment raise [TypeError], before anything was
    changed.  The source assigns in place, in the dictionary objects the
    path runs through; the result here is the configuration read back from
    the root along that path.  What the assignment does to another key
    under which one of these dictionary objects is also stored is not
    followed. *)
Fixpoint set_parts (parts : list string) (value : Value) (config : Dict Value)
    : Result string (Dict Value) :=
  match parts with
  | [] => Ok config
  | [last_part] => Ok (dict_set last_part value config)
  | part :: rest =>
      match dict_get part config with
      | None =>
          match set_parts rest value [] with
          | Ok sub => Ok (dict_set part (VDict sub) config)
          | Err e => Err e
          end
      | Some (VDict d) =>
          match set_parts rest value d with
          | Ok sub => Ok (dict_set part (VDict sub) config)
          | Err e => Err e
          end
      | Some _ => Err "TypeError"
      end
  end.

(** [ConfigManager.set] *)
Definition set (cm : ConfigManager) (key : string) (value : Value)
    : Result string ConfigManager :=
  match set_parts (split_dots key) value (_config cm) with
  | Ok config => Ok (mkConfig config (S (notifications cm)))
  | Err e => Err e
  end.

(** [ConfigManager._deep_merge], by recursion on the structure of
    [update]. *)
Fixpoint deep_merge_value (update : Value) (base : Dict Value) {struct update} : Dict Value :=
  match update with
  | VDict u =>
      (fix merge_items (items : Dict Value) (result : Dict Value) {struct items}
           : Dict Value :=
         match items with
         | [] => result
         | (key, value) :: rest =>
             merge_items rest
               (dict_set key
                  (match dict_get key result, value with
                   | Some (VDict b), VDict _ => VDict (deep_merge_value value b)
                   | _, _ => value
                   end)
                  result)
         end) u base
  | _ => base
  end.

Definition _deep_merge (base update : Dict Value) : Dict Value :=
  deep_merge_value (VDict update) base.

(** The value [_deep_merge] stores under a key of [update]. *)
Definition merged_entry (old : option Value) (value : Value) : Value :=
  match old, value with
  | Some (VDict b), VDict u => VDict (_deep_merge b u)
  | _, _ => value
  end.

Lemma deep_merge_nil base : _deep_merge base [] = base.
Proof. reflexivity. Qed.

Lemma deep_merge_cons base key value rest :
  _deep_merge base ((key, value) :: rest)
  = _deep_merge (dict_set key (merged_entry (dict_get key base) value) base) rest.
Proof.
  unfold _deep_merge, merged_entry. simpl.
  destruct (dict_get key base) as [[| | | | |b]|]; try reflexivity.
  destruct value; reflexivity.
Qed.

(** *** Facts about the parts of a key *)

Lemma split_dots_nonempty key : split_dots key <> [].
Proof.
  destruct key as [|c rest]; [done|].
  change (split_dots (String c rest))
    with (if String.eqb (String c "") "." then "" :: split_dots rest
          else match split_dots rest with
               | part :: parts => String c part :: parts
               | [] => [String c ""]
               end).
  destruct (String.eqb (String c "") "."); [done|]. by destruct (split_dots rest).
Qed.

Lemma set_parts_get parts : forall value config config' default,
  parts <> [] ->
  set_parts parts value config = Ok config' ->
  get_parts parts (VDict config') default = value.
Proof.
  induction parts as [|part rest IH]; intros value config config' default Hne; [done|].
  destruct rest as [|part2 rest].
  - simpl. intros [= <-]. by rewrite dict_get_set_eq.
  - change (set_parts (part :: part2 :: rest) value config)
      with (match dict_get part config with
            | None =>
                match set_parts (part2 :: rest) value [] with
                | Ok sub => Ok (dict_set part (VDict sub) config)
                | Err e => Err e
                end
            | Some (VDict d) =>
                match set_parts (part2 :: rest) value d with
                | Ok sub => Ok (dict_set part (VDict sub) config)
                | Err e => Err e
                end
            | Some _ => Err "TypeError"
            end).
    change (get_parts (part :: part2 :: rest) (VDict config') default)
      with (match dict_get part config' with
            | Some v => get_parts (part2 :: rest) v default
            | None => default
            end).
    destruct (dict_get part config) as [[| | | | |d]|]; try done.
    + destruct (set_parts (part2 :: rest) value d) as [sub|e] eqn:Hsub; [|done].
      intros [= <-]. rewrite dict_get_set_eq. by eapply IH.
    + destruct (set_parts (part2 :: rest) value []) as [sub|e] eqn:Hsub; [|done].
      intros [= <-]. rewrite dict_get_set_eq. by eapply IH.
Qed.

(** A value stored with [set] is what [get] returns for the same key,
    whatever default is given; the change is notified once. *)
Theorem set_then_get cm key value cm' default :
  set cm key value = Ok cm' ->
  get cm' key default = value /\ notifications cm' = S (notifications cm).
Proof.
  unfold set, get.
  destruct (set_parts (split_dots key) value (_config cm)) as [config|e] eqn:Hset; [|done].
  intros [= <-]. simpl. split; [|done].
  eapply set_parts_get; [apply split_dots_nonempty|exact Hset].
Qed.

Example split_dots_examples :
  split_dots "api.key" = ["api"; "key"] /\ split_dots "a..b" = ["a"; ""; "b"] /\
  split_dots "" = [""] /\ split_dots "timeout" = ["timeout"].
Proof. repeat split; reflexivity. Qed.

Definition sample_config : ConfigManager :=
  mkConfig [("api", VDict [("key", VStr "k-1"); ("timeout", VInt 30)]);
            ("debug", VBool false)] 0.

Lemma set_then_get_witness :
  exists cm',
    set sample_config "api.retry.max" (VInt 3) = Ok cm' /\
    get cm' "api.retry.max" VNone = VInt 3 /\ notifications cm' = 1.
Proof.
  eexists. split; [reflexivity|].
  apply (set_then_get sample_config "api.retry.max" (VInt 3)). reflexivity.
Defined.

(** A key that runs through a value that is no dictionary cannot be set:
    [set] raises and the configuration is as before. *)
Example set_through_scalar :
  set sample_config "debug.level" (VInt 2) = Err "TypeError" /\
  set sample_config "api.key.id" (VInt 2) = Err "TypeError".
Proof. split; reflexivity. Qed.

(** *** Merging sources *)

Lemma dict_get_deep_merge key update : forall base,
  NoDup (dict_keys update) ->
  dict_get key (_deep_merge base update)
  = match dict_get key update with
    | Some value => Some (merged_entry (dict_get key base) value)
    | None => dict_get key base
    end.
Proof.
  induction update as [|[k0 v0] update IH]; intros base Hnd; [done|].
  change (dict_keys ((k0, v0) :: update)) with (k0 :: dict_keys update) in Hnd.
  apply NoDup_cons in Hnd as [Hk0 Hnd].
  rewrite deep_merge_cons, IH by done. simpl.
  destruct (String.eqb_spec key k0) as [->|Hne].
  - destruct (dict_get k0 update) as [v|] eqn:Hv.
    + destruct Hk0. apply dict_get_keys. by rewrite Hv.
    + by rewrite dict_get_set_eq.
  - rewrite dict_get_set_ne by done. done.
Qed.

(** The dictionaries met in [value] along the path [parts] have no key
    twice (as every Python dictionary). *)
Fixpoint unique_along (parts : list string) (value : Value) : Prop :=
  match value with
  | VDict d =>
      NoDup (dict_keys d) /\
      match parts with
      | [] => True
      | part :: rest =>
          match dict_get part d with
          | Some v => unique_along rest v
          | None => True
          end
      end
  | _ => True
  end.

Lemma get_parts_present part rest (d : Dict Value) v :
  (forall default, get_parts (part :: rest) (VDict d) default = v) ->
  exists v', dict_get part d = Some v' /\
             forall default, get_parts rest v' default = v.
Proof.
  simpl. intros Hget. destruct (dict_get part d) as [v'|]; [by exists v'|].
  pose proof (Hget VNone) as H1. pose proof (Hget (VBool true)) as H2. congruence.
Qed.

Lemma get_parts_scalar part rest value v :
  (forall default, get_parts (part :: rest) value default = v) ->
  exists d, value = VDict d.
Proof.
  intros Hget. destruct value as [| | | | |d]; [..|by exists d];
    pose proof (Hget VNone) as H1; pose proof (Hget (VBool true)) as H2;
    simpl in H1, H2; congruence.
Qed.

Lemma deep_merge_leaf parts : forall base update v default,
  parts <> [] ->
  unique_along parts (VDict update) ->
  (forall default', get_parts parts (VDict update) default' = v) ->
  (forall d, v <> VDict d) ->
  get_parts parts (VDict (_deep_merge base update)) default = v.
Proof.
  induction parts as [|part rest IH]; intros base update v default Hne Huniq Hget Hleaf;
    [done|].
  destruct Huniq as [Hnd Huniq].
  destruct (get_parts_present part rest update v Hget) as (vu & Hvu & Hrest).
  rewrite Hvu in Huniq.
  change (get_parts (part :: rest) (VDict (_deep_merge base update)) default)
    with (match dict_get part (_deep_merge base update) with
          | Some v0 => get_parts rest v0 default
          | None => default
          end).
  rewrite dict_get_deep_merge, Hvu by done.
  destruct rest as [|part2 rest].
  - simpl in Hrest. specialize (Hrest VNone). subst vu. simpl.
    unfold merged_entry. destruct v as [| | | | |d]; try by destruct (dict_get part base) as [[]|].
    by destruct (Hleaf d).
  - destruct (get_parts_scalar part2 rest vu v Hrest) as [du ->].
    unfold merged_entry.
    destruct (dict_get part base) as [[| | | | |db]|]; try apply Hrest.
    by apply IH.
Qed.

(** What [_deep_merge] makes of two configurations, read with the loop
    of [get]: a setting that [update] gives a value other than a
    dictionary has that value in the result, whatever [base] says; a
    setting under a top-level key that [update] does not have is as in
    [base]. *)
Theorem deep_merge_precedence base update parts default :
  parts <> [] ->
  unique_along parts (VDict update) ->
  (forall v,
     (forall default', get_parts parts (VDict update) default' = v) ->
     (forall d, v <> VDict d) ->
     get_parts parts (VDict (_deep_merge base update)) default = v) /\
  (forall part rest,
     parts = part :: rest -> dict_get part update = None ->
     get_parts parts (VDict (_deep_merge base update)) default
     = get_parts parts (VDict base) default).
Proof.
  intros Hne Huniq. split.
  - intros v Hget Hleaf. by apply deep_merge_leaf.
  - intros part rest -> Hnone. destruct Huniq as [Hnd _].
    simpl. by rewrite dict_get_deep_merge, Hnone.
Qed.

(** A file configuration overridden by an environment configuration. *)
Definition file_config : Dict Value :=
  [("api", VDict [("key", VStr "from-file"); ("host", VStr "https://api.mem0.ai")]);
   ("debug", VBool false)].

Definition env_config : Dict Value :=
  [("api", VDict [("key", VStr "from-env")])].

Lemma deep_merge_precedence_witness :
  get_parts ["api"; "key"] (VDict (_deep_merge file_config env_config)) VNone
    = VStr "from-env" /\
  get_parts ["debug"] (VDict (_deep_merge file_config env_config)) VNone
    = get_parts ["debug"] (VDict file_config) VNone.
Proof.
  split.
  - apply (proj1 (deep_merge_precedence file_config env_config ["api"; "key"] VNone
                    ltac:(discriminate)
                    ltac:(simpl; repeat split; repeat constructor; set_solver))).
    + intros default'. reflexivity.
    + discriminate.
  - apply (proj2 (deep_merge_precedence file_config env_config ["debug"] VNone
                    ltac:(discriminate)
                    ltac:(simpl; repeat split; repeat constructor; set_solver))
             "debug" []); reflexivity.
Defined.

End Config.
